(** * Wave planning and constraint repair: plan_waves.py

    A shallow embedding of [migration_planning/scripts/plan_waves.py]:
    the wave distributor ([clusters_to_waves]), the validator
    ([validate_waves]), the repair engine with its sanitizer and equalizer
    ([enforce_constraints]) and the export of the waves ([waves_to_df]),
    followed by the properties of the wave assignment they produce.

    Conventions of the embedding.
    - The wave assignment is the one mutable object of the script (a dict
      with the keys 'nonprod' and 'prod', each a list of lists of ids).  It
      is the state of a small state-and-exception monad [M]; every Python
      statement that reads or writes it is one primitive of that monad.
    - Python exceptions are values of [exn]; the state reached when an
      exception is raised is kept, because two [try ... except: pass]
      blocks of the repair engine continue from it.
    - [BCP_score] and [weight] are floats read from CSV files; they are only
      compared (with each other and with 7, 8, 9), so they are modelled by
      rationals with the same order.
    - The pandas tables [apps] and [deps] are lists of rows, in row order. *)

From Stdlib Require Import QArith.
From Stdlib Require OrdersEx.
From stdpp Require Import gmap strings list fin_maps sorting.

Local Open Scope string_scope.
Local Open Scope list_scope.
Local Open Scope nat_scope.

(** ** Strings *)

(** [s.endswith(suf)] *)
Definition endswith (s suf : string) : bool :=
  let n := String.length s in
  let m := String.length suf in
  (m <=? n) && String.eqb (String.substring (n - m) m s) suf.

(** ** Tables and environments *)

Inductive Env := Nonprod | Prod.

#[global] Instance Env_eq_dec : EqDecision Env.
Proof. solve_decision. Defined.

Definition env_name (env : Env) : string :=
  match env with Nonprod => "nonprod" | Prod => "prod" end.

(** the f-string [f'-{env}'] *)
Definition env_suffix (env : Env) : string := "-" +:+ env_name env.

(** the loop header [for env in ['nonprod','prod']] *)
Definition envs : list Env := [Nonprod; Prod].

(** One row of apps.csv (the columns the planner reads). *)
Record AppRow := {
  app_instance_id : string;
  base_app_id : string;
  BCP_score : Q
}.

(** One row of dependencies.csv (the columns the planner reads). *)
Record DepRow := {
  source : string;
  target : string;
  source_type : string;
  weight : Q
}.

(** The wave assignment: [waves['nonprod']] and [waves['prod']]. *)
Record Waves := {
  nonprod : list (list string);
  prod : list (list string)
}.

Definition env_waves (env : Env) (w : Waves) : list (list string) :=
  match env with Nonprod => nonprod w | Prod => prod w end.

Definition set_env_waves (env : Env) (ws : list (list string)) (w : Waves) : Waves :=
  match env with
  | Nonprod => {| nonprod := ws; prod := prod w |}
  | Prod => {| nonprod := nonprod w; prod := ws |}
  end.

(** ** Exceptions and the state monad of the wave assignment *)

Inductive exn := KeyError | ValueError | IndexError | ZeroDivisionError.

Inductive Res (A : Type) : Type :=
  | OK (a : A)
  | Raise (e : exn).
Arguments OK {A} a.
Arguments Raise {A} e.

#[global] Instance Res_ret : MRet Res := λ A a, OK a.
#[global] Instance Res_bind : MBind Res := λ A B f r,
  match r with OK a => f a | Raise e => Raise e end.

Definition M (A : Type) : Type := Waves → Res A * Waves.

#[global] Instance M_ret : MRet M := λ A a s, (OK a, s).
#[global] Instance M_bind : MBind M := λ A B f m s,
  match m s with
  | (OK a, s') => f a s'
  | (Raise e, s') => (Raise e, s')
  end.

Definition gets {A} (f : Waves → A) : M A := λ s, (OK (f s), s).
Definition modify (f : Waves → Waves) : M unit := λ s, (OK (), f s).
Definition raise {A} (e : exn) : M A := λ s, (Raise e, s).
Definition lift {A} (r : Res A) : M A := λ s, (r, s).

(** [try: body  except Exception: pass]; [dflt] is the value the local
    variables assigned by [body] keep when it raises. *)
Definition try_or {A} (body : M A) (dflt : A) : M A := λ s,
  match body s with
  | (OK a, s') => (OK a, s')
  | (Raise _, s') => (OK dflt, s')
  end.

(** [for x in l: body], threading the locals the body assigns. *)
Fixpoint for_each {A S} (l : list A) (body : A → S → M S) (acc : S) : M S :=
  match l with
  | [] => mret acc
  | x :: r => acc' ← body x acc; for_each r body acc'
  end.

(** [enumerate(l)] *)
Definition enumerate {A} (l : list A) : list (nat * A) := zip (seq 0 (length l)) l.

(** *** Primitives on the wave lists *)

(** [len(waves[env])] *)
Definition len_env (env : Env) : M nat := gets (λ s, length (env_waves env s)).

(** [waves[env]] read for iteration *)
Definition read_env (env : Env) : M (list (list string)) := gets (env_waves env).

(** [waves[env] = ws] *)
Definition write_env (env : Env) (ws : list (list string)) : M unit :=
  modify (set_env_waves env ws).

(** [waves[env][i]] for an index [i >= 0] *)
Definition read_wave (env : Env) (i : nat) : M (list string) := λ s,
  match env_waves env s !! i with
  | Some w => (OK w, s)
  | None => (Raise IndexError, s)
  end.

(** [waves[env][i] = l], and every in-place update of the list [waves[env][i]] *)
Definition write_wave (env : Env) (i : nat) (l : list string) : M unit := λ s,
  if decide (i < length (env_waves env s))
  then (OK (), set_env_waves env (<[i := l]> (env_waves env s)) s)
  else (Raise IndexError, s).

(** Python's list index: a negative index counts from the end. *)
Definition py_index (len : nat) (i : Z) : Res nat :=
  if decide (0 ≤ i < Z.of_nat len)%Z then OK (Z.to_nat i)
  else if decide (- Z.of_nat len ≤ i < 0)%Z then OK (Z.to_nat (Z.of_nat len + i))
  else Raise IndexError.

(** the position that [waves[env][i]] denotes for a signed index *)
Definition resolve_index (env : Env) (i : Z) : M nat :=
  n ← len_env env; lift (py_index n i).

(** [l.remove(a)] on a list value: the first occurrence goes *)
Fixpoint remove_first (a : string) (l : list string) : list string :=
  match l with
  | [] => []
  | x :: r => if decide (x = a) then r else x :: remove_first a r
  end.

(** [waves[env][i].remove(a)] *)
Definition wave_remove (env : Env) (i : nat) (a : string) : M unit :=
  w ← read_wave env i;
  if bool_decide (a ∈ w) then write_wave env i (remove_first a w)
  else raise ValueError.

(** [waves[env][i].append(a)] *)
Definition wave_append (env : Env) (i : nat) (a : string) : M unit :=
  w ← read_wave env i; write_wave env i (w ++ [a]).

(** [waves[env][i].extend(l)] *)
Definition wave_extend (env : Env) (i : nat) (l : list string) : M unit :=
  w ← read_wave env i; write_wave env i (w ++ l).

(** [if a in waves[env][i]: waves[env][i].remove(a)] *)
Definition wave_discard (env : Env) (i : nat) (a : string) : M unit :=
  w ← read_wave env i;
  if bool_decide (a ∈ w) then write_wave env i (remove_first a w) else mret ().

(** [waves[env].append([])] *)
Definition push_empty_wave (env : Env) : M unit :=
  modify (λ s, set_env_waves env (env_waves env s ++ [[]]) s).

(** [waves[env].pop()] *)
Definition pop_wave (env : Env) : M (list string) := λ s,
  match last (env_waves env s) with
  | Some w =>
      (OK w, set_env_waves env (take (length (env_waves env s) - 1) (env_waves env s)) s)
  | None => (Raise IndexError, s)
  end.

(** ** wave_index_map *)

(** [for app in w: m[app] = (env, i)] *)
Definition index_wave (env : Env) (i : nat) (w : list string)
    (m : gmap string (Env * nat)) : gmap string (Env * nat) :=
  foldl (λ m app, <[app := (env, i)]> m) m w.

(** [for i,w in enumerate(wlist): ...], counting from [i] *)
Fixpoint index_waves (env : Env) (i : nat) (wlist : list (list string))
    (m : gmap string (Env * nat)) : gmap string (Env * nat) :=
  match wlist with
  | [] => m
  | w :: rest => index_waves env (S i) rest (index_wave env i w m)
  end.

(** [waves.items()] yields 'nonprod' first, then 'prod': the order in which
    [build_waves_for_algo] creates the keys. *)
Definition wave_index_map (waves : Waves) : gmap string (Env * nat) :=
  index_waves Prod 0 (prod waves) (index_waves Nonprod 0 (nonprod waves) ∅).

(** [idxmap.get(a, (None, 999))[1]] *)
Definition idx_or_999 (idxmap : gmap string (Env * nat)) (a : string) : nat :=
  match idxmap !! a with Some (_, i) => i | None => 999 end.

(** [min(idxmap.get(a,(None,999))[1] for a in x :: l)] *)
Definition min_wave_index (idxmap : gmap string (Env * nat)) (x : string) (l : list string) : nat :=
  foldl (λ acc a, Nat.min acc (idx_or_999 idxmap a)) (idx_or_999 idxmap x) l.

(** ** Configuration constants *)

Definition MIN_WAVE : nat := 15.
Definition MAX_WAVE : nat := 25.
Definition TARGET_WAVES_PER_ENV : nat := 8.

(** ** Sorting and slicing *)

(** [sorted(l, key=..., reverse=True)] on keyed elements: Python's sort is
    stable, also with [reverse=True], so an element goes in front of the
    first element whose key is not larger than its own. *)
Fixpoint insert_desc (x : string * Q) (l : list (string * Q)) : list (string * Q) :=
  match l with
  | [] => [x]
  | y :: r => if Qle_bool (snd y) (snd x) then x :: y :: r else y :: insert_desc x r
  end.

Definition sort_desc (l : list (string * Q)) : list (string * Q) :=
  foldr insert_desc [] l.

(** [[base + 1 if i < rem else base for i in range(target_waves)]] *)
Definition wave_sizes (base rem target_waves : nat) : list nat :=
  map (λ i, if i <? rem then base + 1 else base) (seq 0 target_waves).

(** [for s in sizes: new_w.append(l[idx: idx + s]); idx += s] *)
Fixpoint slice_waves (sizes : list nat) (idx : nat) (l : list string) : list (list string) :=
  match sizes with
  | [] => []
  | s :: r => take s (drop idx l) :: slice_waves r (idx + s) l
  end.

(** [math.floor(0.25*N)], [math.ceil(0.75*N)-1] and their midpoint; the
    products are exact in double precision for every list length. *)
Definition middle_wave (N : nat) : nat :=
  let low := N / 4 in
  let high := (3 * N + 3) / 4 - 1 in
  (low + high) / 2.

(** ** Validation issues and statistics *)

Inductive Issue :=
  | wave_count_mismatch (algorithm : string) (env : Env) (expected actual : nat)
  | wave_size_out_of_bounds (algorithm : string) (env : Env) (wave_index num_apps : nat)
      (preferred_range : nat * nat)
  | env_exclusivity_violation (algorithm : string) (env : Env) (wave_index : nat) (app : string)
  | nonprod_not_before_prod (algorithm : string) (base_app : string) (nonprod_wave prod_wave : nat)
  | nonprod_production_gap_too_small (algorithm : string) (base_app : string) (gap : Z)
  | cross_env_dependency (algorithm : string) (src tgt : string)
  | cross_wave_high_bcp (algorithm : string) (src tgt : string) (s_idx t_idx : nat)
  | critical_not_co_migrate (algorithm : string) (src tgt : string) (wt : Q) (s_idx t_idx : nat)
  | mission_critical_edge_wave (algorithm : string) (env : Env) (wave_index : nat) (app : string).

Record Stat := {
  stat_algorithm : string;
  stat_env : Env;
  stat_wave_index : nat;
  stat_num_apps : nat
}.

(** ** groupby *)

(** One more row for [apps.groupby('base_app_id')['app_instance_id'].apply(list)]:
    pandas sorts the groups by key and keeps the row order inside a group. *)
Fixpoint group_insert (base inst : string) (groups : list (string * list string))
    : list (string * list string) :=
  match groups with
  | [] => [(base, [inst])]
  | (b, l) :: rest =>
      match String.compare base b with
      | Eq => (b, l ++ [inst]) :: rest
      | Lt => (base, [inst]) :: (b, l) :: rest
      | Gt => (b, l) :: group_insert base inst rest
      end
  end.

(** The value of a cell [apps_df.loc[a]['BCP_score']]: a number when one row
    has the id, a pandas Series when several rows have it. *)
Inductive cell := Scalar (q : Q) | Series.

(** the truth value of [c >= k] where an [if] needs it *)
Definition cell_ge (c : cell) (k : Q) : Res bool :=
  match c with
  | Scalar q => OK (Qle_bool k q)
  | Series => Raise ValueError
  end.

Definition is_scalar (c : cell) : bool :=
  match c with Scalar _ => true | Series => false end.

Definition scalar_value (c : cell) : Q :=
  match c with Scalar q => q | Series => 0%Q end.

Section Planner.

(** the module-level tables [apps] and [deps] *)
Variable apps : list AppRow.
Variable deps : list DepRow.

(** [apps['app_instance_id'].tolist()] *)
Definition app_ids : list string := map app_instance_id apps.

(** [apps_df.loc[a]['BCP_score']] with [apps_df = apps.set_index('app_instance_id')] *)
Definition loc_bcp (a : string) : Res cell :=
  match filter (λ r, app_instance_id r = a) apps with
  | [] => Raise KeyError
  | [r] => OK (Scalar (BCP_score r))
  | _ => OK Series
  end.

(** [apps.groupby('base_app_id')['app_instance_id'].apply(list).to_dict()], as
    the list of its items *)
Definition base_groups : list (string * list string) :=
  foldl (λ g r, group_insert (base_app_id r) (app_instance_id r) g) [] apps.

(** [deps[deps['source_type']=='application']] *)
Definition app_deps : list DepRow :=
  filter (λ r, source_type r = "application") deps.

(** [[a for a in apps['app_instance_id'].tolist() if a.endswith(f'-{env}')]] *)
Definition all_env_apps (env : Env) : list string :=
  filter (λ a, endswith a (env_suffix env)) app_ids.

(** the keys [apps_df.loc[x]['BCP_score']] of the elements to sort *)
Fixpoint with_keys (l : list string) : Res (list (string * cell)) :=
  match l with
  | [] => OK []
  | x :: r => c ← loc_bcp x; kr ← with_keys r; mret ((x, c) :: kr)
  end.

(** [sorted(l, key=lambda x: apps_df.loc[x]['BCP_score'], reverse=True)].
    The keys are computed first; sorting two or more elements compares every
    key with another one, and a comparison with a Series has no truth value. *)
Definition sorted_by_bcp (l : list string) : Res (list string) :=
  keyed ← with_keys l;
  if (2 <=? length keyed) && negb (forallb (λ p, is_scalar (snd p)) keyed)
  then Raise ValueError
  else OK (map fst (sort_desc (map (λ p, (fst p, scalar_value (snd p))) keyed))).

(** ** Equalizer *)

(** the body of the loop of [equalize_waves] *)
Definition equalize_env (target_waves : nat) (env : Env) : M unit :=
  sorted ← lift (sorted_by_bcp (all_env_apps env));
  let total := length sorted in
  if total =? 0 then write_env env (replicate target_waves [])
  else if target_waves =? 0 then raise ZeroDivisionError
  else
    let base := total / target_waves in
    let rem := total mod target_waves in
    write_env env (slice_waves (wave_sizes base rem target_waves) 0 sorted).

Definition equalize_waves (target_waves : nat) : M unit :=
  for_each envs (λ env _, equalize_env target_waves env) ().

(** ** Sanitizer *)

(** the filter that builds [newlist] from the wave [w], adding to [seen] *)
Definition sanitize_wave (env : Env) (w : list string) (seen : gset string)
    : list string * gset string :=
  foldl (λ '(newlist, seen) a,
           if negb (endswith a (env_suffix env)) then (newlist, seen)
           else if bool_decide (a ∈ seen) then (newlist, seen)
           else (newlist ++ [a], seen ∪ {[a]}))
        ([], seen) w.

(** [k] turns of a loop whose body does not depend on the turn *)
Fixpoint repeat_m (k : nat) (body : M unit) : M unit :=
  match k with
  | 0 => mret ()
  | S k' => body;; repeat_m k' body
  end.

(** [while len(waves[env]) < target_waves: waves[env].append([])]: every
    turn makes the list one longer, so the loop takes
    [target_waves - len(waves[env])] turns. *)
Definition pad_waves (target_waves : nat) (env : Env) : M unit :=
  n ← len_env env; repeat_m (target_waves - n) (push_empty_wave env).

(** [while len(waves[env]) > target_waves: extra = waves[env].pop();
    waves[env][target_waves-1].extend(extra)]: every turn makes the list one
    shorter. *)
Definition merge_extra_waves (target_waves : nat) (env : Env) : M unit :=
  n ← len_env env;
  repeat_m (n - target_waves)
    (extra ← pop_wave env;
     i ← resolve_index env (Z.of_nat target_waves - 1);
     wave_extend env i extra).

Definition sanitize_waves (target_waves : nat) : M unit :=
  seen ← for_each envs (λ env seen,
    pad_waves target_waves env;;
    ws ← read_env env;
    for_each (enumerate ws) (λ '(i, w) seen,
      let '(newlist, seen') := sanitize_wave env w seen in
      write_wave env i newlist;; mret seen') seen) (∅ : gset string);
  for_each envs (λ env seen,
    let missing := filter (λ a, a ∉ seen) (all_env_apps env) in
    n ← len_env env;
    (if n =? 0 then write_env env (replicate target_waves []) else mret ());;
    '(_, seen') ← for_each missing (λ a '(j, seen),
      n ← len_env env;
      if n =? 0 then raise ZeroDivisionError
      else wave_append env (j mod n) a;; mret (S j, seen ∪ {[a]})) (0, seen);
    mret seen') seen;;
  mret ().

(** ** Repair rules *)

(** The loop that relocates instances, written four times in the source
    (for prod and for nonprod, in rule 1 and in the corrective pass):
    [[
      for p in insts:
          old = idxmap.get(p)
          if old and old[1] != target_idx:
              if p in waves[env][old[1]]:
                  waves[env][old[1]].remove(p)
              waves[env][target_idx].append(p)
              changed = True
    ]] *)
Definition move_instances (idxmap : gmap string (Env * nat)) (env : Env)
    (target_idx : nat) (insts : list string) (changed : bool) : M bool :=
  for_each insts (λ p changed,
    match idxmap !! p with
    | Some (_, old) =>
        if decide (old ≠ target_idx) then
          wave_discard env old p;;
          wave_append env target_idx p;;
          mret true
        else mret changed
    | None => mret changed
    end) changed.

(** rule 1: nonprod precedes prod by at least one wave *)
Definition sequencing_rule (idxmap : gmap string (Env * nat)) (target_waves : nat)
    (changed : bool) : M bool :=
  for_each base_groups (λ '(base, instances) changed,
    let nonprod := filter (λ i, endswith i "nonprod") instances in
    let prod := filter (λ i, endswith i "prod") instances in
    match nonprod, prod with
    | n :: ns, p :: ps =>
        let np_idx := min_wave_index idxmap n ns in
        let p_idx := min_wave_index idxmap p ps in
        if p_idx <=? np_idx then
          if (Z.of_nat np_idx <? Z.of_nat target_waves - 1)%Z then
            move_instances idxmap Prod (np_idx + 1) prod changed
          else
            move_instances idxmap Nonprod (Nat.max (np_idx - 1) 0) nonprod changed
        else mret changed
    | _, _ => mret changed
    end) changed.

(** rules 3 and 4, the body of the loop over the application dependencies *)
Definition repair_dep (idxmap : gmap string (Env * nat)) (target_waves : nat)
    (r : DepRow) (changed : bool) : M bool :=
  let src := source r in
  let tgt := target r in
  let wt := weight r in
  match idxmap !! src, idxmap !! tgt with
  | Some (src_env, s_idx), Some (tgt_env, t_idx) =>
      if decide (src_env ≠ tgt_env) then mret changed
      else
        bcp_src ← lift (loc_bcp src);
        (* BCP >= 8: force same wave *)
        b8 ← lift (cell_ge bcp_src 8);
        changed ←
          (if b8 && negb (s_idx =? t_idx) then
             try_or
               (wave_discard tgt_env t_idx tgt;;
                w ← read_wave src_env s_idx;
                if bool_decide (tgt ∈ w) then mret changed
                else wave_append src_env s_idx tgt;; mret true)
               changed
           else mret changed);
        (* BCP >= 7 and wt > 7: same or preceding wave *)
        b7 ← lift (cell_ge bcp_src 7);
        if b7 && negb (Qle_bool wt 7)
           && negb ((t_idx =? s_idx) || (Z.of_nat t_idx =? Z.of_nat s_idx - 1)%Z)
        then
          let preferred :=
            if target_waves <=? s_idx then (Z.of_nat target_waves - 1)%Z
            else Z.of_nat s_idx in
          wave_discard tgt_env t_idx tgt;;
          j ← resolve_index src_env preferred;
          w ← read_wave src_env j;
          if bool_decide (tgt ∈ w) then mret changed
          else wave_append src_env j tgt;; mret true
        else mret changed
  | _, _ => mret changed
  end.

Definition dependency_rules (idxmap : gmap string (Env * nat)) (target_waves : nat)
    (changed : bool) : M bool :=
  for_each app_deps (repair_dep idxmap target_waves) changed.

(** rule 2, the body of the loop [for a in list(waves[env][i])] *)
Definition mission_critical_step (env : Env) (N middle i : nat) (a : string)
    (changed : bool) : M bool :=
  try_or
    (bcp ← lift (loc_bcp a);
     b9 ← lift (cell_ge bcp 9);
     if b9 && ((i =? 0) || (Z.of_nat i =? Z.of_nat N - 1)%Z) then
       wave_remove env i a;;
       wave_append env middle a;;
       mret true
     else mret changed)
    changed.

(** rule 2 for one environment: BCP 9-10 into the middle wave *)
Definition mission_critical_rule (env : Env) (changed : bool) : M bool :=
  N ← len_env env;
  if N <=? 2 then mret changed
  else
    let middle := middle_wave N in
    for_each (seq 0 N) (λ i changed,
      snapshot ← read_wave env i;
      for_each snapshot (mission_critical_step env N middle i) changed) changed.

(** exactly [target_waves] slots again *)
Definition structural_rule (target_waves : nat) (env : Env) : M unit :=
  pad_waves target_waves env;;
  merge_extra_waves target_waves env.

(** one turn of the loop [while changed and iters < 40] *)
Definition repair_pass (target_waves : nat) : M bool :=
  idxmap ← gets wave_index_map;
  changed ← sequencing_rule idxmap target_waves false;
  changed ← dependency_rules idxmap target_waves changed;
  changed ← for_each envs mission_critical_rule changed;
  for_each envs (λ env _, structural_rule target_waves env) ();;
  mret changed.

(** [while changed and iters < 40], entered with [changed = True] and
    [iters = 0]: [fuel] is [40 - iters]. *)
Fixpoint repair_loop (target_waves : nat) (fuel : nat) : M unit :=
  match fuel with
  | 0 => mret ()
  | S fuel' =>
      repair_pass target_waves ≫= λ changed : bool,
      if changed then repair_loop target_waves fuel' else mret ()
  end.

(** one turn of the loop of [fix_nonprod_prod_order] *)
Definition fix_order_pass (target_waves : nat) : M bool :=
  idxmap ← gets wave_index_map;
  for_each base_groups (λ '(base, instances) changed_local,
    let nonprod := filter (λ i, endswith i "nonprod") instances in
    let prod := filter (λ i, endswith i "prod") instances in
    match nonprod, prod with
    | n :: ns, p :: ps =>
        let np_idx := min_wave_index idxmap n ns in
        let p_idx := min_wave_index idxmap p ps in
        if p_idx <=? np_idx then
          if 0 <? np_idx then
            move_instances idxmap Nonprod (Nat.max (np_idx - 1) 0) nonprod changed_local
          else if (Z.of_nat p_idx <? Z.of_nat target_waves - 1)%Z then
            move_instances idxmap Prod
              (Z.to_nat (Z.min (Z.of_nat p_idx + 1) (Z.of_nat target_waves - 1)))
              prod changed_local
          else mret changed_local
        else mret changed_local
    | _, _ => mret changed_local
    end) false.

Fixpoint fix_nonprod_prod_order (target_waves : nat) (fuel : nat) : M unit :=
  match fuel with
  | 0 => mret ()
  | S fuel' =>
      fix_order_pass target_waves ≫= λ changed_local : bool,
      if changed_local then fix_nonprod_prod_order target_waves fuel' else mret ()
  end.

(** ** enforce_constraints *)

Definition enforce_constraints (target_waves : nat) : M unit :=
  repair_loop target_waves 40;;
  fix_nonprod_prod_order target_waves 40;;
  sanitize_waves target_waves;;
  equalize_waves target_waves.

(** ** Validator *)

(** check wave counts *)
Definition check_wave_counts (algorithm_name : string) (issues : list Issue)
    : M (list Issue) :=
  for_each envs (λ env issues,
    n ← len_env env;
    if decide (n ≠ TARGET_WAVES_PER_ENV)
    then mret (issues ++ [wave_count_mismatch algorithm_name env TARGET_WAVES_PER_ENV n])
    else mret issues) issues.

(** per-wave stats and size checks *)
Definition check_wave_sizes (algorithm_name : string) (acc : list Issue * list Stat)
    : M (list Issue * list Stat) :=
  for_each envs (λ env acc,
    ws ← read_env env;
    for_each (enumerate ws) (λ '(i, w) '(issues, stats),
      let stats := stats ++ [{| stat_algorithm := algorithm_name; stat_env := env;
                                stat_wave_index := i; stat_num_apps := length w |}] in
      if (length w <? MIN_WAVE) || (MAX_WAVE <? length w)
      then mret (issues ++ [wave_size_out_of_bounds algorithm_name env i (length w)
                              (MIN_WAVE, MAX_WAVE)], stats)
      else mret (issues, stats)) acc) acc.

(** exclusivity *)
Definition check_exclusivity (algorithm_name : string) (issues : list Issue)
    : M (list Issue) :=
  for_each envs (λ env issues,
    ws ← read_env env;
    for_each (enumerate ws) (λ '(i, w) issues,
      for_each w (λ a issues,
        if negb (endswith a (env_suffix env))
        then mret (issues ++ [env_exclusivity_violation algorithm_name env i a])
        else mret issues) issues) issues) issues.

(** non-prod must precede prod by at least one wave for the same base app:
    the body of the loop over the groups *)
Definition check_base (idxmap : gmap string (Env * nat)) (algorithm_name : string)
    (group : string * list string) (issues : list Issue) : list Issue :=
  let '(base, instances) := group in
  let nonprod := filter (λ i, endswith i "-nonprod") instances in
  let prod := filter (λ i, endswith i "-prod") instances in
  match nonprod, prod with
  | n :: ns, p :: ps =>
      let np_idx := min_wave_index idxmap n ns in
      let p_idx := min_wave_index idxmap p ps in
      let issues :=
        if p_idx <=? np_idx
        then issues ++ [nonprod_not_before_prod algorithm_name base np_idx p_idx]
        else issues in
      if (Z.of_nat p_idx - Z.of_nat np_idx <? 1)%Z
      then issues ++ [nonprod_production_gap_too_small algorithm_name base
                        (Z.of_nat p_idx - Z.of_nat np_idx)]
      else issues
  | _, _ => issues
  end.

Definition check_sequencing (idxmap : gmap string (Env * nat)) (algorithm_name : string)
    (issues : list Issue) : M (list Issue) :=
  for_each base_groups (λ group issues, mret (check_base idxmap algorithm_name group issues))
    issues.

(** BCP and dependency checks: the body of the loop over the rows *)
Definition validate_dep (idxmap : gmap string (Env * nat)) (algorithm_name : string)
    (r : DepRow) (issues : list Issue) : M (list Issue) :=
  let src := source r in
  let tgt := target r in
  let wt := weight r in
  match idxmap !! src, idxmap !! tgt with
  | Some (s_env, s_idx), Some (t_env, t_idx) =>
      bcp_src ← lift (loc_bcp src);
      if decide (s_env ≠ t_env)
      then mret (issues ++ [cross_env_dependency algorithm_name src tgt])
      else
        b8 ← lift (cell_ge bcp_src 8);
        let issues :=
          if b8 && negb (s_idx =? t_idx)
          then issues ++ [cross_wave_high_bcp algorithm_name src tgt s_idx t_idx]
          else issues in
        b7 ← lift (cell_ge bcp_src 7);
        if b7 && negb (Qle_bool wt 7)
           && negb ((t_idx =? s_idx) || (Z.of_nat t_idx =? Z.of_nat s_idx - 1)%Z)
        then mret (issues ++ [critical_not_co_migrate algorithm_name src tgt wt s_idx t_idx])
        else mret issues
  | _, _ => mret issues
  end.

Definition check_dependencies (idxmap : gmap string (Env * nat)) (algorithm_name : string)
    (issues : list Issue) : M (list Issue) :=
  for_each app_deps (validate_dep idxmap algorithm_name) issues.

(** mission critical (9-10) not in first or last wave *)
Definition check_mission_critical (algorithm_name : string) (issues : list Issue)
    : M (list Issue) :=
  for_each envs (λ env issues,
    N ← len_env env;
    ws ← read_env env;
    for_each (enumerate ws) (λ '(i, w) issues,
      for_each w (λ a issues,
        bcp ← lift (loc_bcp a);
        b9 ← lift (cell_ge bcp 9);
        if b9 && ((i =? 0) || (Z.of_nat i =? Z.of_nat N - 1)%Z)
        then mret (issues ++ [mission_critical_edge_wave algorithm_name env i a])
        else mret issues) issues) issues) issues.

Definition validate_waves (algorithm_name : string) : M (list Issue * list Stat) :=
  idxmap ← gets wave_index_map;
  issues ← check_wave_counts algorithm_name [];
  '(issues, stats) ← check_wave_sizes algorithm_name (issues, []);
  issues ← check_exclusivity algorithm_name issues;
  issues ← check_sequencing idxmap algorithm_name issues;
  issues ← check_dependencies idxmap algorithm_name issues;
  issues ← check_mission_critical algorithm_name issues;
  mret (issues, stats).

(** ** Wave distributor *)

(** [clusters] is the JSON object of a partition, as the list of its items.
    A slot of size 0 gets [[]], which is also the slice of length 0. *)
Definition clusters_to_waves (clusters : list (string * list string)) (env : Env)
    (target_waves : nat) : Res (list (list string)) :=
  let ordered :=
    filter (λ members_env, members_env ≠ [])
      (map (λ '(com_id, members),
              filter (λ m, m ∈ app_ids ∧ endswith m (env_suffix env)) members)
           clusters) in
  let app_list := concat ordered in
  let total_apps := length app_list in
  if total_apps =? 0 then OK (replicate target_waves [])
  else if target_waves =? 0 then Raise ZeroDivisionError
  else
    let base := total_apps / target_waves in
    let rem := total_apps mod target_waves in
    let sizes := wave_sizes base rem target_waves in
    let waves := slice_waves sizes 0 app_list in
    let idx := sum_list sizes in
    if idx <? total_apps then
      match last waves with
      | Some l => OK (take (length waves - 1) waves ++ [l ++ drop idx app_list])
      | None => Raise IndexError
      end
    else OK waves.

Definition build_waves_for_algo (communities : list (string * list string)) : Res Waves :=
  np ← clusters_to_waves communities Nonprod TARGET_WAVES_PER_ENV;
  p ← clusters_to_waves communities Prod TARGET_WAVES_PER_ENV;
  mret {| nonprod := np; prod := p |}.

(** What the script does for one algorithm: the initial waves, the first
    call of [enforce_constraints], then the second call and the validation
    of the reporting loop. *)
Definition plan_algorithm (communities : list (string * list string)) (algorithm : string)
    : Res (Res (list Issue * list Stat) * Waves) :=
  waves ← build_waves_for_algo communities;
  mret ((enforce_constraints TARGET_WAVES_PER_ENV;;
         enforce_constraints TARGET_WAVES_PER_ENV;;
         validate_waves algorithm) waves).

End Planner.

(** ** Export of the waves *)

(** One row of waves.csv. *)
Record WaveRow := {
  row_algorithm : string;
  row_env : Env;
  row_wave_index : nat;
  row_app_instance_id : string
}.

(** [waves_to_df]: the rows of the frame, in the order they are appended *)
Definition waves_to_df (waves : Waves) (algorithm : string) : list WaveRow :=
  concat (map (λ env,
    concat (map (λ '(i, w),
      map (λ app, {| row_algorithm := algorithm; row_env := env;
                     row_wave_index := i; row_app_instance_id := app |}) w)
      (enumerate (env_waves env waves)))) envs).

(** * Example data

    A table of three base applications with their two instances each, three
    dependency rows (two of them on a server and a database, which are in no
    wave), a partition into two communities, and the scenario of one base
    application whose two instances start in wave 0. *)

Definition example_apps : list AppRow :=
  [ {| app_instance_id := "APP_001-prod"; base_app_id := "APP_001"; BCP_score := 46 # 5 |};
    {| app_instance_id := "APP_001-nonprod"; base_app_id := "APP_001"; BCP_score := 46 # 5 |};
    {| app_instance_id := "APP_002-prod"; base_app_id := "APP_002"; BCP_score := 5 |};
    {| app_instance_id := "APP_002-nonprod"; base_app_id := "APP_002"; BCP_score := 5 |};
    {| app_instance_id := "APP_003-prod"; base_app_id := "APP_003"; BCP_score := 15 # 2 |};
    {| app_instance_id := "APP_003-nonprod"; base_app_id := "APP_003"; BCP_score := 15 # 2 |} ].

(** an edge to a server: servers are in no wave *)
Definition example_server_edge : DepRow :=
  {| source := "APP_001-prod"; target := "SRV-P001"; source_type := "application";
     weight := 13 # 2 |}.

Definition example_other_edges : list DepRow :=
  [ {| source := "APP_001-prod"; target := "APP_002-prod"; source_type := "application";
       weight := 15 # 2 |};
    {| source := "APP_003-nonprod"; target := "DB-N001"; source_type := "application";
       weight := 6 |} ].

Definition example_deps : list DepRow := example_server_edge :: example_other_edges.

Definition example_communities : list (string * list string) :=
  [ ("0", ["APP_001-prod"; "APP_001-nonprod"; "APP_002-prod"; "SRV-P001"]);
    ("1", ["APP_002-nonprod"; "APP_003-prod"; "APP_003-nonprod"; "DB-N001"]) ].

(** the waves that [build_waves_for_algo] makes of [example_communities] *)
Definition example_waves : Waves :=
  {| nonprod := [["APP_001-nonprod"]; ["APP_002-nonprod"]; ["APP_003-nonprod"];
                 []; []; []; []; []];
     prod := [["APP_001-prod"]; ["APP_002-prod"]; ["APP_003-prod"]; []; []; []; []; []] |}.

(** another assignment of the same instances: everything in wave 0 *)
Definition example_waves_alt : Waves :=
  {| nonprod := [["APP_003-nonprod"; "APP_002-nonprod"; "APP_001-nonprod"];
                 []; []; []; []; []; []; []];
     prod := [["APP_003-prod"; "APP_002-prod"; "APP_001-prod"]; []; []; []; []; []; []; []] |}.

(** one base application, both instances in wave 0 of their environments *)
Definition scenario_apps : list AppRow :=
  [ {| app_instance_id := "APP_001-prod"; base_app_id := "APP_001"; BCP_score := 5 |};
    {| app_instance_id := "APP_001-nonprod"; base_app_id := "APP_001"; BCP_score := 5 |} ].

Definition scenario_waves : Waves :=
  {| nonprod := [["APP_001-nonprod"]; []; []; []; []; []; []; []];
     prod := [["APP_001-prod"]; []; []; []; []; []; []; []] |}.

(** the scenario after rule 1 of the first repair pass *)
Definition scenario_after_rule1 : Waves :=
  {| nonprod := [["APP_001-nonprod"]; []; []; []; []; []; []; []];
     prod := [[]; ["APP_001-prod"; "APP_001-nonprod"]; []; []; []; []; []; []] |}.

(** the report of the validator on [scenario_waves] *)
Definition scenario_report : list Issue * list Stat :=
  Eval vm_compute in
    match fst (validate_waves scenario_apps [] "louvain" scenario_waves) with
    | OK r => r
    | Raise _ => ([], [])
    end.

(** a table in which one id has two rows *)
Definition duplicate_apps : list AppRow :=
  [ {| app_instance_id := "APP_001-nonprod"; base_app_id := "APP_001"; BCP_score := 5 |};
    {| app_instance_id := "APP_001-prod"; base_app_id := "APP_001"; BCP_score := 5 |};
    {| app_instance_id := "APP_001-prod"; base_app_id := "APP_001"; BCP_score := 7 |} ].

(** * Specification vocabulary *)

(** ** A Hoare logic for [M] with an exceptional postcondition

    [triple P m Q E]: started in a state satisfying [P], the command [m]
    either returns [a] in a state satisfying [Q a], or raises in a state
    satisfying [E]. *)

Definition triple {A} (P : Waves → Prop) (m : M A) (Q : A → Waves → Prop)
    (E : Waves → Prop) : Prop :=
  ∀ s, P s → match m s with (OK a, s') => Q a s' | (Raise _, s') => E s' end.

(** no exception is possible *)
Definition never : Waves → Prop := λ _, False.

(** [reads m]: whatever the outcome, [m] leaves the wave assignment as it
    found it. *)
Definition reads {A} (m : M A) : Prop :=
  ∀ s0, triple (λ s, s = s0) m (λ _ s, s = s0) (λ s, s = s0).

(** ** Issue lists *)

(** the sequencing issues come in pairs: a base application has a
    [nonprod_not_before_prod] issue exactly when it has a
    [nonprod_production_gap_too_small] issue *)
Definition paired (issues : list Issue) : Prop :=
  ∀ alg base,
    (∃ np p, nonprod_not_before_prod alg base np p ∈ issues) ↔
    (∃ gap, nonprod_production_gap_too_small alg base gap ∈ issues).

(** the issues of the two sequencing checks *)
Definition is_sequencing_issue (i : Issue) : bool :=
  match i with
  | nonprod_not_before_prod _ _ _ _ => true
  | nonprod_production_gap_too_small _ _ _ => true
  | _ => false
  end.

(** [yields m φ]: whenever [m] returns, the value it returns satisfies [φ] *)
Definition yields {A} (m : M A) (φ : A → Prop) : Prop :=
  triple (λ _, True) m (λ a _, φ a) (λ _, True).

(** ** The risk order of the equalizer *)

(** the score of the row of [a] in the application table *)
Definition bcp_of (apps : list AppRow) (a : string) : Q :=
  match filter (λ r, app_instance_id r = a) apps with
  | r :: _ => BCP_score r
  | [] => 0%Q
  end.

(** the ids of [l] with their sort keys *)
Definition with_scores (apps : list AppRow) (l : list string) : list (string * Q) :=
  map (λ a, (a, bcp_of apps a)) l.

(** [x] may stand in front of [y] in a list sorted by descending key *)
Definition key_ge (x y : string * Q) : Prop := (snd y <= snd x)%Q.

(** the same for ids, with the scores of the table *)
Definition bcp_ge (apps : list AppRow) (a b : string) : Prop :=
  (bcp_of apps b <= bcp_of apps a)%Q.

(** the elements of [l] whose score equals [q], in the order of [l] *)
Definition with_score (apps : list AppRow) (q : Q) (l : list string) : list string :=
  filter (λ a, Qeq_bool (bcp_of apps a) q) l.

(** [ceil(a / b)] *)
Definition ceil_div (a b : nat) : nat := (a + b - 1) / b.

(** the waves that the equalizer builds for one environment *)
Definition risk_order (apps : list AppRow) (env : Env) : list string :=
  map fst (sort_desc (with_scores apps (all_env_apps apps env))).

Definition balanced (apps : list AppRow) (target_waves : nat) (env : Env)
    : list (list string) :=
  let l := risk_order apps env in
  slice_waves (wave_sizes (length l / target_waves) (length l mod target_waves) target_waves)
    0 l.

Definition equalized (apps : list AppRow) (target_waves : nat) : Waves :=
  {| nonprod := balanced apps target_waves Nonprod;
     prod := balanced apps target_waves Prod |}.

(** ** Mission-critical applications *)

(** [apps_df.loc[a]['BCP_score'] >= 9] holds (the lookup finds one row and
    its score is at least 9) *)
Definition mission_critical (apps : list AppRow) (a : string) : bool :=
  match loc_bcp apps a with
  | OK (Scalar q) => Qle_bool 9 q
  | _ => false
  end.

(** [i == 0 or i == N-1] *)
Definition edge_wave (N i : nat) : bool := (i =? 0) || (Z.of_nat i =? Z.of_nat N - 1)%Z.

(** ** Shape of a wave assignment *)

(** every environment has exactly [tw] waves and every id in a wave
    satisfies [K] *)
Definition shaped (K : string → Prop) (tw : nat) (s : Waves) : Prop :=
  ∀ env, length (env_waves env s) = tw ∧ Forall (Forall K) (env_waves env s).

(** the entries of a wave-index map point into [tw] waves, at ids
    satisfying [K] *)
Definition idxmap_ok (K : string → Prop) (tw : nat) (idxmap : gmap string (Env * nat)) : Prop :=
  ∀ a env i, idxmap !! a = Some (env, i) → i < tw ∧ K a.

(** the ids of the application table *)
Definition known (apps : list AppRow) (a : string) : Prop := a ∈ app_ids apps.

(** ** The issues of the mission-critical check *)

(** [inspects m]: [m] returns without raising and leaves the wave
    assignment as it found it *)
Definition inspects {A} (m : M A) : Prop :=
  ∀ s0, triple (λ s, s = s0) m (λ _ s, s = s0) never.

(** the issue that the check emits for the id [a] of wave [i] *)
Definition mc_issue_of (apps : list AppRow) (alg : string) (env : Env) (N i : nat)
    (a : string) : list Issue :=
  if mission_critical apps a && edge_wave N i
  then [mission_critical_edge_wave alg env i a] else [].

Definition mc_issues_wave (apps : list AppRow) (alg : string) (env : Env) (N : nat)
    (iw : nat * list string) : list Issue :=
  concat (map (mc_issue_of apps alg env N (fst iw)) (snd iw)).

Definition mc_issues_env (apps : list AppRow) (alg : string) (s : Waves) (env : Env)
    : list Issue :=
  concat (map (mc_issues_wave apps alg env (length (env_waves env s)))
              (enumerate (env_waves env s))).

Definition mc_issues (apps : list AppRow) (alg : string) (s : Waves) : list Issue :=
  concat (map (mc_issues_env apps alg s) envs).

(** ** The distributor's input *)

(** the members of the communities that are application instances of the
    environment, flattened in the order of the partition *)
Definition env_members (apps : list AppRow) (clusters : list (string * list string))
    (env : Env) : list string :=
  concat (map (λ c, filter (λ m, m ∈ app_ids apps ∧ endswith m (env_suffix env)) (snd c))
              clusters).

(** ** The result of the structural rule *)

(** [tw] waves made of a longer list: the waves from index [tw] on are
    appended to wave [tw - 1], the last of them first *)
Definition merged (tw : nat) (ws : list (list string)) : list (list string) :=
  take (tw - 1) ws ++ [default [] (ws !! (tw - 1)) ++ concat (reverse (drop tw ws))].

(** ** The structural part of the validator's report *)

(** the issues of the first three checks (wave count, wave size, environment
    exclusivity) *)
Definition is_structural_issue (i : Issue) : bool :=
  match i with
  | wave_count_mismatch _ _ _ _ => true
  | wave_size_out_of_bounds _ _ _ _ _ => true
  | env_exclusivity_violation _ _ _ _ => true
  | _ => false
  end.

Definition count_issue_of (alg : string) (s : Waves) (env : Env) : list Issue :=
  if decide (length (env_waves env s) ≠ TARGET_WAVES_PER_ENV)
  then [wave_count_mismatch alg env TARGET_WAVES_PER_ENV (length (env_waves env s))]
  else [].

Definition count_issues (alg : string) (s : Waves) : list Issue :=
  concat (map (count_issue_of alg s) envs).

Definition size_issue_of (alg : string) (env : Env) (iw : nat * list string)
    : list Issue :=
  if (length (snd iw) <? MIN_WAVE) || (MAX_WAVE <? length (snd iw))
  then [wave_size_out_of_bounds alg env (fst iw) (length (snd iw)) (MIN_WAVE, MAX_WAVE)]
  else [].

Definition size_issues (alg : string) (s : Waves) : list Issue :=
  concat (map (λ env, concat (map (size_issue_of alg env) (enumerate (env_waves env s))))
              envs).

(** one row of the statistics per wave, nonprod first, in wave order *)
Definition stat_of (alg : string) (env : Env) (iw : nat * list string) : Stat :=
  {| stat_algorithm := alg; stat_env := env;
     stat_wave_index := fst iw; stat_num_apps := length (snd iw) |}.

Definition wave_stats (alg : string) (s : Waves) : list Stat :=
  concat (map (λ env, map (stat_of alg env) (enumerate (env_waves env s))) envs).

Definition excl_issue_of (alg : string) (env : Env) (i : nat) (a : string)
    : list Issue :=
  if negb (endswith a (env_suffix env))
  then [env_exclusivity_violation alg env i a] else [].

Definition excl_issues (alg : string) (s : Waves) : list Issue :=
  concat (map (λ env,
            concat (map (λ iw : nat * list string,
                      concat (map (excl_issue_of alg env (fst iw)) (snd iw)))
                    (enumerate (env_waves env s))))
              envs).

(** [l'] is [l] followed by issues that satisfy [P] *)
Definition appends (P : Issue → Prop) (l l' : list Issue) : Prop :=
  ∃ t, l' = l ++ t ∧ Forall P t.

(** ** The result of the sanitizer *)

(** the waves of one environment after the filter of the first loop, and
    the ids seen so far *)
Fixpoint sanitized (env : Env) (ws : list (list string)) (seen : gset string)
    : list (list string) * gset string :=
  match ws with
  | [] => ([], seen)
  | w :: r =>
      let '(newlist, seen') := sanitize_wave env w seen in
      let '(r', seen'') := sanitized env r seen' in
      (newlist :: r', seen'')
  end.

(** the missing ids dealt round-robin to the waves, from turn [j] *)
Fixpoint dealt (ws : list (list string)) (j : nat) (missing : list string)
    : list (list string) :=
  match missing with
  | [] => ws
  | a :: r =>
      match ws !! (j mod length ws) with
      | Some w => dealt (<[j mod length ws := w ++ [a]]> ws) (S j) r
      | None => ws
      end
  end.

(** the assignment the sanitizer leaves *)
Definition sanitized_waves (apps : list AppRow) (tw : nat) (s : Waves) : Waves :=
  let np0 := nonprod s ++ replicate (tw - length (nonprod s)) [] in
  let p0 := prod s ++ replicate (tw - length (prod s)) [] in
  let np1 := sanitized Nonprod np0 ∅ in
  let p1 := sanitized Prod p0 (snd np1) in
  let missing_np := filter (λ a, a ∉ snd p1) (all_env_apps apps Nonprod) in
  let missing_p :=
    filter (λ a, a ∉ snd p1 ∪ list_to_set missing_np) (all_env_apps apps Prod) in
  {| nonprod := dealt (fst np1) 0 missing_np; prod := dealt (fst p1) 0 missing_p |}.

(** ** The groups of the base applications and the later checks of the validator *)

(** the ids of the rows of a base application, in row order *)
Definition instances_of (apps : list AppRow) (base : string) : list string :=
  map app_instance_id (filter (λ r, base_app_id r = base) apps).

(** the groups are in strictly increasing order of their keys *)
Definition key_lt (x y : string * list string) : Prop :=
  String.compare (fst x) (fst y) = Lt.

(** the issues of the sequencing check for one group of [base_groups] *)
Definition base_issues (idxmap : gmap string (Env * nat)) (alg : string)
    (group : string * list string) : list Issue :=
  match filter (λ i, endswith i "-nonprod") (snd group),
        filter (λ i, endswith i "-prod") (snd group) with
  | n :: ns, p :: ps =>
      let np_idx := min_wave_index idxmap n ns in
      let p_idx := min_wave_index idxmap p ps in
      (if p_idx <=? np_idx
       then [nonprod_not_before_prod alg (fst group) np_idx p_idx] else [])
      ++ (if (Z.of_nat p_idx - Z.of_nat np_idx <? 1)%Z
          then [nonprod_production_gap_too_small alg (fst group)
                  (Z.of_nat p_idx - Z.of_nat np_idx)]
          else [])
  | _, _ => []
  end.

Definition sequencing_issues (apps : list AppRow) (idxmap : gmap string (Env * nat))
    (alg : string) : list Issue :=
  concat (map (base_issues idxmap alg) (base_groups apps)).

(** the issues of the dependency check for one row, the scores being those
    of the table *)
Definition dep_issues_of (apps : list AppRow) (idxmap : gmap string (Env * nat))
    (alg : string) (r : DepRow) : list Issue :=
  match idxmap !! source r, idxmap !! target r with
  | Some (s_env, s_idx), Some (t_env, t_idx) =>
      if decide (s_env ≠ t_env)
      then [cross_env_dependency alg (source r) (target r)]
      else
        (if Qle_bool 8 (bcp_of apps (source r)) && negb (s_idx =? t_idx)
         then [cross_wave_high_bcp alg (source r) (target r) s_idx t_idx] else [])
        ++ (if Qle_bool 7 (bcp_of apps (source r)) && negb (Qle_bool (weight r) 7)
               && negb ((t_idx =? s_idx) || (Z.of_nat t_idx =? Z.of_nat s_idx - 1)%Z)
            then [critical_not_co_migrate alg (source r) (target r) (weight r) s_idx t_idx]
            else [])
  | _, _ => []
  end.

Definition dependency_issues (apps : list AppRow) (deps : list DepRow)
    (idxmap : gmap string (Env * nat)) (alg : string) : list Issue :=
  concat (map (dep_issues_of apps idxmap alg) (app_deps deps)).

(** [n] is the least element of [l] *)
Definition least (n : nat) (l : list nat) : Prop := n ∈ l ∧ ∀ m, m ∈ l → n ≤ m.

(** the check that files an issue: 0 for the structural checks, 1 for the
    sequencing check, 2 for the dependency check, 3 for the mission-critical
    check *)
Definition issue_check (i : Issue) : nat :=
  match i with
  | wave_count_mismatch _ _ _ _ => 0
  | wave_size_out_of_bounds _ _ _ _ _ => 0
  | env_exclusivity_violation _ _ _ _ => 0
  | nonprod_not_before_prod _ _ _ _ => 1
  | nonprod_production_gap_too_small _ _ _ => 1
  | cross_env_dependency _ _ _ => 2
  | cross_wave_high_bcp _ _ _ _ _ => 2
  | critical_not_co_migrate _ _ _ _ _ _ => 2
  | mission_critical_edge_wave _ _ _ _ => 3
  end.

(* end of the specification vocabulary *)

(** * Properties *)

(** ** Rules of the Hoare logic of [M] *)

Lemma triple_ret {A} (P : Waves → Prop) (a : A) (Q : A → Waves → Prop) E :
  (∀ s, P s → Q a s) → triple P (mret a) Q E.
Proof. intros H s Hs. simpl. by apply H. Qed.

Lemma triple_bind {A B} (P : Waves → Prop) (m : M A) (f : A → M B)
    (R : A → Waves → Prop) (Q : B → Waves → Prop) E :
  triple P m R E → (∀ a, triple (R a) (f a) Q E) → triple P (m ≫= f) Q E.
Proof.
  intros Hm Hf s Hs. specialize (Hm s Hs).
  unfold mbind, M_bind. destruct (m s) as [[a|e] s']; [|done].
  by apply Hf.
Qed.

Lemma triple_conseq {A} (P P' : Waves → Prop) (m : M A) (Q Q' : A → Waves → Prop)
    (E E' : Waves → Prop) :
  triple P m Q E → (∀ s, P' s → P s) → (∀ a s, Q a s → Q' a s) → (∀ s, E s → E' s) →
  triple P' m Q' E'.
Proof.
  intros Hm HP HQ HE s Hs. specialize (Hm s (HP s Hs)).
  destruct (m s) as [[a|e] s']; auto.
Qed.

Lemma triple_pre {A} (P P' : Waves → Prop) (m : M A) Q E :
  triple P m Q E → (∀ s, P' s → P s) → triple P' m Q E.
Proof. intros Hm HP. eapply triple_conseq; eauto. Qed.

Lemma triple_post {A} (P : Waves → Prop) (m : M A) (Q Q' : A → Waves → Prop) E :
  triple P m Q E → (∀ a s, Q a s → Q' a s) → triple P m Q' E.
Proof. intros Hm HQ. eapply triple_conseq; eauto. Qed.

Lemma triple_gets {A} (P : Waves → Prop) (f : Waves → A) (Q : A → Waves → Prop) E :
  (∀ s, P s → Q (f s) s) → triple P (gets f) Q E.
Proof. intros H s Hs. by apply H. Qed.

Lemma triple_modify (P : Waves → Prop) (f : Waves → Waves) (Q : unit → Waves → Prop) E :
  (∀ s, P s → Q () (f s)) → triple P (modify f) Q E.
Proof. intros H s Hs. by apply H. Qed.

Lemma triple_raise {A} (P : Waves → Prop) e (Q : A → Waves → Prop) (E : Waves → Prop) :
  (∀ s, P s → E s) → triple P (raise e) Q E.
Proof. intros H s Hs. by apply H. Qed.

Lemma triple_lift {A} (P : Waves → Prop) (r : Res A) (Q : A → Waves → Prop)
    (E : Waves → Prop) :
  (∀ s, P s → match r with OK a => Q a s | Raise _ => E s end) → triple P (lift r) Q E.
Proof. intros H s Hs. specialize (H s Hs). unfold lift. by destruct r. Qed.

Lemma triple_try_or {A} (P : Waves → Prop) (body : M A) (dflt : A)
    (Q : A → Waves → Prop) E :
  triple P body Q (Q dflt) → triple P (try_or body dflt) Q E.
Proof.
  intros H s Hs. specialize (H s Hs). unfold try_or.
  by destruct (body s) as [[a|e] s'].
Qed.

Lemma triple_for_each {A S} (l : list A) (body : A → S → M S)
    (I : S → Waves → Prop) E (acc : S) :
  (∀ x acc, x ∈ l → triple (I acc) (body x acc) I E) →
  triple (I acc) (for_each l body acc) I E.
Proof.
  revert acc. induction l as [|x l IH]; intros acc Hbody; simpl.
  - by apply triple_ret.
  - eapply triple_bind.
    + apply Hbody. by left.
    + intros acc'. apply IH. intros y acc'' Hy. apply Hbody. by right.
Qed.

Lemma triple_repeat_m (k : nat) (body : M unit) (I : Waves → Prop) E :
  triple I body (λ _, I) E → triple I (repeat_m k body) (λ _, I) E.
Proof.
  intros Hb. induction k as [|k IH]; simpl.
  - by apply triple_ret.
  - eapply triple_bind; [exact Hb|]. intros ?. exact IH.
Qed.

(** a pure fact does not depend on the state *)
Lemma triple_assume {A} (φ : Prop) (P : Waves → Prop) (m : M A) Q E :
  (φ → triple P m Q E) → triple (λ s, φ ∧ P s) m Q E.
Proof. intros H s [Hφ Hs]. by apply H. Qed.

(** ** The validator only reads *)

Lemma reads_ret {A} (a : A) : reads (mret a : M A).
Proof. intros s0. by apply triple_ret. Qed.

Lemma reads_bind {A B} (m : M A) (f : A → M B) :
  reads m → (∀ a, reads (f a)) → reads (m ≫= f).
Proof. intros Hm Hf s0. eapply triple_bind; [apply Hm|]. intros a. apply Hf. Qed.

Lemma reads_gets {A} (f : Waves → A) : reads (gets f).
Proof. intros s0. by apply triple_gets. Qed.

Lemma reads_lift {A} (r : Res A) : reads (lift r).
Proof. intros s0. apply triple_lift. intros s Hs. by destruct r. Qed.

Lemma reads_for_each {A S} (l : list A) (body : A → S → M S) (acc : S) :
  (∀ x acc, reads (body x acc)) → reads (for_each l body acc).
Proof.
  intros Hb s0.
  apply (triple_for_each l body (λ _ s, s = s0)). intros x a _. apply Hb.
Qed.

Lemma reads_if {A} (b : bool) (m1 m2 : M A) : reads m1 → reads m2 → reads (if b then m1 else m2).
Proof. by destruct b. Qed.

Ltac reads_step :=
  first
    [ apply reads_ret | apply reads_gets | apply reads_lift
    | apply reads_for_each; intros
    | apply reads_bind; [|intros]
    | apply reads_if ].

Section Validator.
Context (apps : list AppRow) (deps : list DepRow).

Lemma reads_check_wave_counts alg issues : reads (check_wave_counts alg issues).
Proof.
  unfold check_wave_counts, len_env. repeat reads_step.
  case_decide; reads_step.
Qed.

Lemma reads_check_wave_sizes alg acc : reads (check_wave_sizes alg acc).
Proof.
  unfold check_wave_sizes, read_env. repeat reads_step.
  destruct x0 as [i w], acc1 as [issues stats]. repeat reads_step.
Qed.

Lemma reads_check_exclusivity alg issues : reads (check_exclusivity alg issues).
Proof.
  unfold check_exclusivity, read_env. repeat reads_step.
  destruct x0 as [i w]. repeat reads_step.
Qed.

Lemma reads_check_sequencing idxmap alg issues :
  reads (check_sequencing apps idxmap alg issues).
Proof. unfold check_sequencing. repeat reads_step. Qed.

Lemma reads_validate_dep idxmap alg r issues :
  reads (validate_dep apps idxmap alg r issues).
Proof.
  unfold validate_dep.
  destruct (idxmap !! source r) as [[s_env s_idx]|]; [|reads_step].
  destruct (idxmap !! target r) as [[t_env t_idx]|]; [|reads_step].
  reads_step; [reads_step|]. case_decide; repeat reads_step.
Qed.

Lemma reads_check_dependencies idxmap alg issues :
  reads (check_dependencies apps deps idxmap alg issues).
Proof. unfold check_dependencies. reads_step. apply reads_validate_dep. Qed.

Lemma reads_check_mission_critical alg issues :
  reads (check_mission_critical apps alg issues).
Proof.
  unfold check_mission_critical, len_env, read_env. repeat reads_step.
  destruct x0 as [i w]. repeat reads_step.
Qed.

Lemma reads_validate_waves alg : reads (validate_waves apps deps alg).
Proof.
  unfold validate_waves.
  apply reads_bind; [apply reads_gets|intros idxmap].
  apply reads_bind; [apply reads_check_wave_counts|intros issues].
  apply reads_bind; [apply reads_check_wave_sizes|intros [issues1 stats]].
  apply reads_bind; [apply reads_check_exclusivity|intros issues2].
  apply reads_bind; [apply reads_check_sequencing|intros issues3].
  apply reads_bind; [apply reads_check_dependencies|intros issues4].
  apply reads_bind; [apply reads_check_mission_critical|intros issues5].
  apply reads_ret.
Qed.

(** C6. The validator is a pure inspection: a call of [validate_waves]
    leaves the wave assignment exactly as it was (whether it returns or
    raises), and a second call on the assignment the first call left behind,
    with the same dependency and application tables, yields the same issue
    list and the same stats list (the same outcome altogether). *)
Theorem validate_waves_pure alg (waves : Waves) :
  let first_call := validate_waves apps deps alg waves in
  let second_call := validate_waves apps deps alg (snd first_call) in
  snd first_call = waves ∧ snd second_call = waves ∧ fst second_call = fst first_call.
Proof.
  assert (Hs : snd (validate_waves apps deps alg waves) = waves).
  { pose proof (reads_validate_waves alg waves waves eq_refl) as H.
    by destruct (validate_waves apps deps alg waves) as [[a|e] s']. }
  simpl. rewrite Hs. by rewrite Hs.
Qed.

End Validator.

(** ** The two sequencing checks fire together *)

Lemma paired_nil : paired [].
Proof.
  intros alg base. split; intros H; destruct H as [? H]; try destruct H as [? H];
    by apply elem_of_nil in H.
Qed.

Lemma paired_snoc_other issues i :
  is_sequencing_issue i = false → paired issues → paired (issues ++ [i]).
Proof.
  intros Hi Hp alg base. specialize (Hp alg base). split.
  - intros (np & p & Hin). apply elem_of_app in Hin as [Hin|Hin].
    + destruct (proj1 Hp) as [gap Hg]; [eauto|]. exists gap. apply elem_of_app. by left.
    + apply list_elem_of_singleton in Hin. subst i. discriminate.
  - intros (gap & Hin). apply elem_of_app in Hin as [Hin|Hin].
    + destruct (proj2 Hp) as (np & p & Hg); [eauto|]. exists np, p. apply elem_of_app. by left.
    + apply list_elem_of_singleton in Hin. subst i. discriminate.
Qed.

Lemma paired_snoc_both issues alg base np p gap :
  paired issues →
  paired ((issues ++ [nonprod_not_before_prod alg base np p])
            ++ [nonprod_production_gap_too_small alg base gap]).
Proof.
  intros Hp alg' base'. specialize (Hp alg' base'). split.
  - intros (np' & p' & Hin). rewrite !elem_of_app in Hin.
    destruct Hin as [[Hin|Hin]|Hin].
    + destruct (proj1 Hp) as [g Hg]; [eauto|]. exists g. rewrite !elem_of_app. auto.
    + apply list_elem_of_singleton in Hin. injection Hin as -> -> -> ->.
      exists gap. rewrite !elem_of_app. right. by apply list_elem_of_singleton.
    + apply list_elem_of_singleton in Hin. discriminate.
  - intros (g & Hin). rewrite !elem_of_app in Hin.
    destruct Hin as [[Hin|Hin]|Hin].
    + destruct (proj2 Hp) as (np' & p' & Hg); [eauto|]. exists np', p'.
      rewrite !elem_of_app. auto.
    + apply list_elem_of_singleton in Hin. discriminate.
    + apply list_elem_of_singleton in Hin. injection Hin as -> -> ->.
      exists np, p. rewrite !elem_of_app. left. right. by apply list_elem_of_singleton.
Qed.

(** over integer wave indices the two conditions of the source coincide *)
Lemma gap_condition (p_idx np_idx : nat) :
  (Z.of_nat p_idx - Z.of_nat np_idx <? 1)%Z = (p_idx <=? np_idx).
Proof.
  destruct (Nat.leb_spec p_idx np_idx); [apply Z.ltb_lt|apply Z.ltb_ge]; lia.
Qed.

Lemma paired_check_base idxmap alg group issues :
  paired issues → paired (check_base idxmap alg group issues).
Proof.
  intros Hp. unfold check_base. destruct group as [base instances].
  destruct (filter _ instances) as [|n ns]; [done|].
  destruct (filter _ instances) as [|p ps]; [done|].
  rewrite gap_condition.
  destruct (_ <=? _); [|done]. by apply paired_snoc_both.
Qed.

(** rules for [yields] *)

Lemma yields_ret {A} (a : A) (φ : A → Prop) : φ a → yields (mret a) φ.
Proof. intros H. by apply triple_ret. Qed.

Lemma yields_bind {A B} (m : M A) (f : A → M B) (ψ : A → Prop) (φ : B → Prop) :
  yields m ψ → (∀ a, ψ a → yields (f a) φ) → yields (m ≫= f) φ.
Proof.
  intros Hm Hf s _. specialize (Hm s I). unfold mbind, M_bind.
  destruct (m s) as [[a|e] s']; [|done]. by apply Hf.
Qed.

Lemma yields_bind_any {A B} (m : M A) (f : A → M B) (φ : B → Prop) :
  (∀ a, yields (f a) φ) → yields (m ≫= f) φ.
Proof.
  intros Hf. apply (yields_bind m f (λ _, True)); [|auto].
  intros s _. by destruct (m s) as [[a|e] s'].
Qed.

Lemma yields_for_each {A S} (l : list A) (body : A → S → M S) (φ : S → Prop) acc :
  (∀ x acc, φ acc → yields (body x acc) φ) → φ acc → yields (for_each l body acc) φ.
Proof.
  intros Hb. revert acc. induction l as [|x l IH]; intros acc Hacc; simpl.
  - by apply yields_ret.
  - eapply yields_bind; [by apply Hb|]. intros acc' Hacc'. by apply IH.
Qed.

Section Sequencing_checks.
Context (apps : list AppRow) (deps : list DepRow).

Ltac paired_ret :=
  apply yields_ret; first [assumption | by apply paired_snoc_other].

Lemma paired_check_wave_counts alg issues :
  paired issues → yields (check_wave_counts alg issues) paired.
Proof.
  intros Hp. apply yields_for_each; [|done]. intros env acc Hacc.
  apply yields_bind_any. intros n. case_decide; paired_ret.
Qed.

Lemma paired_check_wave_sizes alg issues stats :
  paired issues →
  yields (check_wave_sizes alg (issues, stats)) (λ acc, paired (fst acc)).
Proof.
  intros Hp. apply yields_for_each; [|done]. intros env acc Hacc.
  apply yields_bind_any. intros ws. apply yields_for_each; [|done].
  intros [i w] [iss sts] Hiss. simpl in Hiss.
  destruct (_ || _); apply yields_ret; simpl; [|done].
  by apply paired_snoc_other.
Qed.

Lemma paired_check_exclusivity alg issues :
  paired issues → yields (check_exclusivity alg issues) paired.
Proof.
  intros Hp. apply yields_for_each; [|done]. intros env acc Hacc.
  apply yields_bind_any. intros ws. apply yields_for_each; [|done].
  intros [i w] acc1 Hacc1. apply yields_for_each; [|done].
  intros a acc2 Hacc2. destruct (negb _); paired_ret.
Qed.

Lemma paired_check_sequencing idxmap alg issues :
  paired issues → yields (check_sequencing apps idxmap alg issues) paired.
Proof.
  intros Hp. apply yields_for_each; [|done]. intros g acc Hacc.
  apply yields_ret. by apply paired_check_base.
Qed.

Lemma paired_check_dependencies idxmap alg issues :
  paired issues → yields (check_dependencies apps deps idxmap alg issues) paired.
Proof.
  intros Hp. apply yields_for_each; [|done]. intros r acc Hacc.
  unfold validate_dep.
  destruct (idxmap !! source r) as [[s_env s_idx]|]; [|paired_ret].
  destruct (idxmap !! target r) as [[t_env t_idx]|]; [|paired_ret].
  apply yields_bind_any. intros bcp. case_decide; [paired_ret|].
  apply yields_bind_any. intros b8. apply yields_bind_any. intros b7.
  assert (paired (if b8 && negb (s_idx =? t_idx)
                  then acc ++ [cross_wave_high_bcp alg (source r) (target r) s_idx t_idx]
                  else acc)) by (destruct (_ && _); [by apply paired_snoc_other|done]).
  destruct (_ && _ && _); paired_ret.
Qed.

Lemma paired_check_mission_critical alg issues :
  paired issues → yields (check_mission_critical apps alg issues) paired.
Proof.
  intros Hp. apply yields_for_each; [|done]. intros env acc Hacc.
  apply yields_bind_any. intros N. apply yields_bind_any. intros ws.
  apply yields_for_each; [|done]. intros [i w] acc1 Hacc1.
  apply yields_for_each; [|done]. intros a acc2 Hacc2.
  apply yields_bind_any. intros bcp. apply yields_bind_any. intros b9.
  destruct (_ && _); paired_ret.
Qed.

Lemma paired_validate_waves alg :
  yields (validate_waves apps deps alg) (λ r, paired (fst r)).
Proof.
  unfold validate_waves. apply yields_bind_any. intros idxmap.
  eapply yields_bind; [apply paired_check_wave_counts, paired_nil|]. intros i1 H1.
  eapply yields_bind; [by apply paired_check_wave_sizes|]. intros [i2 stats] H2.
  eapply yields_bind; [by apply paired_check_exclusivity|]. intros i3 H3.
  eapply yields_bind; [by apply paired_check_sequencing|]. intros i4 H4.
  eapply yields_bind; [by apply paired_check_dependencies|]. intros i5 H5.
  eapply yields_bind; [by apply paired_check_mission_critical|]. intros i6 H6.
  by apply yields_ret.
Qed.

(** C10. In one run of [validate_waves] that returns its report, a base
    application has a [nonprod_not_before_prod] issue if and only if it has a
    [nonprod_production_gap_too_small] issue: over integer wave indices
    [p_idx <= np_idx] and [p_idx - np_idx < 1] are the same condition. *)
Theorem sequencing_issues_come_in_pairs alg (waves : Waves) issues stats s' :
  validate_waves apps deps alg waves = (OK (issues, stats), s') →
  ∀ base,
    (∃ np p, nonprod_not_before_prod alg base np p ∈ issues) ↔
    (∃ gap, nonprod_production_gap_too_small alg base gap ∈ issues).
Proof.
  intros Hrun base.
  pose proof (paired_validate_waves alg waves I) as Ht.
  rewrite Hrun in Ht. apply Ht.
Qed.

End Sequencing_checks.

(** ** Edges that leave the wave-index map *)

(** a row whose loop body does nothing can be dropped from the loop *)
Lemma for_each_skip {A S} (l1 l2 : list A) (x : A) (body : A → S → M S) acc s :
  (∀ acc s, body x acc s = (OK acc, s)) →
  for_each (l1 ++ x :: l2) body acc s = for_each (l1 ++ l2) body acc s.
Proof.
  intros Hx. revert acc s. induction l1 as [|y l1 IH]; intros acc s; simpl.
  - unfold mbind, M_bind. by rewrite Hx.
  - unfold mbind, M_bind. destruct (body y acc s) as [[acc'|e] s']; [|done]. apply IH.
Qed.

Lemma bind_ext {A B} (m : M A) (f g : A → M B) s :
  (∀ a s', f a s' = g a s') → (m ≫= f) s = (m ≫= g) s.
Proof.
  intros H. unfold mbind, M_bind. destruct (m s) as [[a|e] s']; [apply H|done].
Qed.

Section Absent_edges.
Context (apps : list AppRow).

Lemma validate_dep_absent idxmap alg r issues s :
  idxmap !! source r = None ∨ idxmap !! target r = None →
  validate_dep apps idxmap alg r issues s = (OK issues, s).
Proof.
  intros H. unfold validate_dep.
  destruct H as [-> | ->]; [done|]. by destruct (idxmap !! source r) as [[??]|].
Qed.

Lemma repair_dep_absent idxmap tw r changed s :
  idxmap !! source r = None ∨ idxmap !! target r = None →
  repair_dep apps idxmap tw r changed s = (OK changed, s).
Proof.
  intros H. unfold repair_dep.
  destruct H as [-> | ->]; [done|]. by destruct (idxmap !! source r) as [[??]|].
Qed.

Lemma app_deps_middle (d1 d2 : list DepRow) r :
  app_deps (d1 ++ r :: d2) =
    if decide (source_type r = "application")
    then app_deps d1 ++ r :: app_deps d2
    else app_deps d1 ++ app_deps d2.
Proof.
  unfold app_deps. rewrite filter_app, filter_cons. by case_decide.
Qed.

Lemma app_deps_app (d1 d2 : list DepRow) : app_deps (d1 ++ d2) = app_deps d1 ++ app_deps d2.
Proof. apply filter_app. Qed.

(** C7. A dependency edge whose source id or target id is absent from the
    wave-index map of the current assignment is skipped: the validator's
    loop body returns the issue list unchanged and the repair loop body
    leaves the assignment and the changed flag as they are, so that the
    whole validation and the whole repair pass run exactly as they do on the
    dependency table without that edge. *)
Theorem absent_edge_is_skipped (d1 d2 : list DepRow) (r : DepRow) (waves : Waves) :
  wave_index_map waves !! source r = None ∨ wave_index_map waves !! target r = None →
  (∀ alg issues s,
     validate_dep apps (wave_index_map waves) alg r issues s = (OK issues, s)) ∧
  (∀ tw changed s,
     repair_dep apps (wave_index_map waves) tw r changed s = (OK changed, s)) ∧
  (∀ alg, validate_waves apps (d1 ++ r :: d2) alg waves
          = validate_waves apps (d1 ++ d2) alg waves) ∧
  (∀ tw, repair_pass apps (d1 ++ r :: d2) tw waves = repair_pass apps (d1 ++ d2) tw waves).
Proof.
  intros Habs. split; [|split; [|split]].
  - intros. by apply validate_dep_absent.
  - intros. by apply repair_dep_absent.
  - intros alg. unfold validate_waves, gets. unfold mbind at 1 8, M_bind.
    apply bind_ext. intros i1 s1. apply bind_ext. intros [i2 stats] s2.
    apply bind_ext. intros i3 s3. apply bind_ext. intros i4 s4.
    unfold check_dependencies. rewrite app_deps_middle, app_deps_app.
    case_decide; [|done].
    unfold mbind, M_bind. rewrite for_each_skip; [done|].
    intros. by apply validate_dep_absent.
  - intros tw. unfold repair_pass, gets. unfold mbind at 1 6, M_bind.
    apply bind_ext. intros c1 s1.
    unfold dependency_rules. rewrite app_deps_middle, app_deps_app.
    case_decide; [|done].
    unfold mbind, M_bind. rewrite for_each_skip; [done|].
    intros. by apply repair_dep_absent.
Qed.

End Absent_edges.

(** ** The stable descending sort *)

Lemma insert_desc_perm x l : insert_desc x l ≡ₚ x :: l.
Proof.
  induction l as [|y r IH]; simpl; [done|].
  destruct (Qle_bool (snd y) (snd x)); [done|].
  rewrite IH. apply Permutation_swap.
Qed.

Lemma sort_desc_perm l : sort_desc l ≡ₚ l.
Proof.
  induction l as [|x l IH]; simpl; [done|].
  rewrite insert_desc_perm. by rewrite IH.
Qed.

Lemma sort_desc_length l : length (sort_desc l) = length l.
Proof. apply Permutation_length, sort_desc_perm. Qed.

Lemma Qle_bool_false x y : Qle_bool x y = false → (y <= x)%Q.
Proof.
  intros H. apply Qlt_le_weak, Qnot_le_lt. intros Hle.
  apply Qle_bool_iff in Hle. congruence.
Qed.

Lemma insert_desc_sorted x l :
  StronglySorted key_ge l → StronglySorted key_ge (insert_desc x l).
Proof.
  induction 1 as [|y r Hr IH Hy]; simpl.
  - repeat constructor.
  - destruct (Qle_bool (snd y) (snd x)) eqn:Hc.
    + apply Qle_bool_iff in Hc. constructor; [by constructor|].
      constructor; [done|].
      eapply Forall_impl; [exact Hy|]. intros z Hz. unfold key_ge in *.
      by eapply Qle_trans.
    + apply Qle_bool_false in Hc. constructor; [done|].
      rewrite insert_desc_perm. by constructor.
Qed.

Lemma sort_desc_sorted l : StronglySorted key_ge (sort_desc l).
Proof.
  induction l as [|x l IH]; simpl; [constructor|]. by apply insert_desc_sorted.
Qed.

(** stability: the elements of one key keep their order *)
Lemma insert_desc_stable q x l :
  filter (λ p, Qeq_bool (snd p) q) (insert_desc x l)
  = filter (λ p, Qeq_bool (snd p) q) (x :: l).
Proof.
  induction l as [|y r IH]; simpl; [done|].
  destruct (Qle_bool (snd y) (snd x)) eqn:Hc; [done|].
  rewrite (filter_cons _ y), IH, !filter_cons.
  destruct (decide (Qeq_bool (snd y) q)) as [Hy|Hy]; [|done].
  destruct (decide (Qeq_bool (snd x) q)) as [Hx|Hx]; [|done].
  apply Is_true_true, Qeq_bool_iff in Hx, Hy.
  assert (Qle_bool (snd y) (snd x) = true); [|congruence].
  apply Qle_bool_iff. rewrite Hx, Hy. apply Qle_refl.
Qed.

Lemma sort_desc_stable q l :
  filter (λ p, Qeq_bool (snd p) q) (sort_desc l) = filter (λ p, Qeq_bool (snd p) q) l.
Proof.
  induction l as [|x l IH]; simpl; [done|].
  by rewrite insert_desc_stable, !filter_cons, IH.
Qed.

Section Risk_order.
Context (apps : list AppRow).

Lemma keyed_fst l : map fst (with_scores apps l) = l.
Proof. unfold with_scores. rewrite map_map. simpl. apply map_id. Qed.

Lemma keyed_of_fst (L : list (string * Q)) :
  Forall (λ p, snd p = bcp_of apps (fst p)) L → with_scores apps (map fst L) = L.
Proof.
  unfold with_scores. induction 1 as [|[a q] L Hp _ IH]; simpl; [done|].
  simpl in Hp. subst q. by rewrite IH.
Qed.

Lemma keyed_inj l1 l2 : with_scores apps l1 = with_scores apps l2 → l1 = l2.
Proof. intros H. by rewrite <- (keyed_fst l1), <- (keyed_fst l2), H. Qed.

Lemma keyed_Forall l : Forall (λ p, snd p = bcp_of apps (fst p)) (with_scores apps l).
Proof.
  unfold with_scores. apply Forall_forall. intros p Hp.
  apply list_elem_of_In, in_map_iff in Hp as (a & <- & _). done.
Qed.

Lemma keyed_sorted l : StronglySorted key_ge (with_scores apps l) → StronglySorted (bcp_ge apps) l.
Proof.
  induction l as [|a l IH]; simpl; intros H; [constructor|].
  apply StronglySorted_inv in H as [Hl Ha]. constructor; [by apply IH|].
  unfold with_scores in Ha. rewrite Forall_map in Ha. exact Ha.
Qed.

Lemma keyed_filter q l :
  filter (λ p, Qeq_bool (snd p) q) (with_scores apps l) = with_scores apps (with_score apps q l).
Proof.
  unfold with_score, with_scores. induction l as [|a l IH]; simpl; [done|].
  rewrite !filter_cons. simpl. rewrite IH. by case_decide.
Qed.

Lemma risk_order_keyed env :
  with_scores apps (risk_order apps env) = sort_desc (with_scores apps (all_env_apps apps env)).
Proof.
  unfold risk_order. apply keyed_of_fst.
  rewrite sort_desc_perm. apply keyed_Forall.
Qed.

Lemma risk_order_perm env : risk_order apps env ≡ₚ all_env_apps apps env.
Proof.
  unfold risk_order. rewrite <- (keyed_fst (all_env_apps apps env)) at 2.
  apply Permutation_map, sort_desc_perm.
Qed.

Lemma risk_order_length env : length (risk_order apps env) = length (all_env_apps apps env).
Proof. apply Permutation_length, risk_order_perm. Qed.

Lemma risk_order_sorted env : StronglySorted (bcp_ge apps) (risk_order apps env).
Proof. apply keyed_sorted. rewrite risk_order_keyed. apply sort_desc_sorted. Qed.

Lemma risk_order_stable env q :
  with_score apps q (risk_order apps env) = with_score apps q (all_env_apps apps env).
Proof.
  apply keyed_inj. by rewrite <- !keyed_filter, risk_order_keyed, sort_desc_stable.
Qed.

End Risk_order.

(** ** Largest-remainder slicing *)

Lemma wave_sizes_length base rem tw : length (wave_sizes base rem tw) = tw.
Proof. unfold wave_sizes. by rewrite length_map, length_seq. Qed.

Lemma wave_sizes_lookup base rem tw i :
  i < tw → wave_sizes base rem tw !! i = Some (if i <? rem then base + 1 else base).
Proof.
  intros Hi. unfold wave_sizes.
  change (map ?f ?l) with (f <$> l). rewrite list_lookup_fmap.
  by rewrite (proj2 (lookup_seq 0 tw i i)).
Qed.

Lemma sum_sizes_from base rem start n :
  sum_list (map (λ i, if i <? rem then base + 1 else base) (seq start n))
  = base * n + (Nat.min (start + n) rem - Nat.min start rem).
Proof.
  revert start. induction n as [|n IH]; intros start; simpl; [lia|].
  rewrite IH. destruct (Nat.ltb_spec start rem); lia.
Qed.

Lemma wave_sizes_sum base rem tw : rem ≤ tw → sum_list (wave_sizes base rem tw) = base * tw + rem.
Proof. intros H. unfold wave_sizes. rewrite sum_sizes_from. lia. Qed.

Lemma slice_waves_length sizes idx l : length (slice_waves sizes idx l) = length sizes.
Proof. revert idx. induction sizes as [|s r IH]; intros idx; simpl; [done|]. by rewrite IH. Qed.

Lemma slice_waves_concat sizes idx l :
  concat (slice_waves sizes idx l) = take (sum_list sizes) (drop idx l).
Proof.
  revert idx. induction sizes as [|s r IH]; intros idx; simpl.
  - by rewrite take_0.
  - rewrite IH, <- take_take_drop, drop_drop. done.
Qed.

Lemma slice_waves_sizes sizes idx l :
  idx + sum_list sizes ≤ length l → map length (slice_waves sizes idx l) = sizes.
Proof.
  revert idx. induction sizes as [|s r IH]; intros idx H; simpl in *; [done|].
  rewrite IH by lia. rewrite length_take, length_drop. f_equal. lia.
Qed.

Lemma slice_waves_nil sizes idx : slice_waves sizes idx [] = replicate (length sizes) [].
Proof.
  revert idx. induction sizes as [|x r IH]; intros idx; simpl; [done|].
  by rewrite IH, drop_nil, take_nil.
Qed.

Lemma slices_of_nothing base rem tw :
  slice_waves (wave_sizes base rem tw) 0 [] = replicate tw [].
Proof. by rewrite slice_waves_nil, wave_sizes_length. Qed.

(** ** The equalizer *)

Section Equalizer.
Context (apps : list AppRow).
Hypothesis apps_distinct : NoDup (app_ids apps).

Lemma no_row_of (rows : list AppRow) a :
  a ∉ map app_instance_id rows → filter (λ r, app_instance_id r = a) rows = [].
Proof.
  induction rows as [|r0 rows IH]; simpl; intros Hin; [done|].
  apply not_elem_of_cons in Hin as [Hne Hin]. rewrite filter_cons.
  case_decide; [congruence|]. by apply IH.
Qed.

Lemma unique_row_of (rows : list AppRow) a :
  NoDup (map app_instance_id rows) → a ∈ map app_instance_id rows →
  ∃ r, filter (λ r, app_instance_id r = a) rows = [r].
Proof.
  induction rows as [|r0 rows IH]; simpl; intros Hnd Hin.
  - by apply elem_of_nil in Hin.
  - apply NoDup_cons in Hnd as [Hr0 Hnd]. rewrite filter_cons.
    case_decide as Heq.
    + exists r0. f_equal. subst a. by apply no_row_of.
    + apply elem_of_cons in Hin as [Hin|Hin]; [congruence|]. by apply IH.
Qed.

Lemma loc_bcp_known a :
  a ∈ app_ids apps → loc_bcp apps a = OK (Scalar (bcp_of apps a)).
Proof.
  intros Hin. unfold loc_bcp, bcp_of.
  destruct (unique_row_of apps a apps_distinct Hin) as [r ->]. done.
Qed.

Lemma with_keys_known l :
  Forall (λ a, a ∈ app_ids apps) l →
  with_keys apps l = OK (map (λ a, (a, Scalar (bcp_of apps a))) l).
Proof.
  induction 1 as [|a l Ha _ IH]; simpl; [done|].
  rewrite loc_bcp_known by done. simpl. rewrite IH. done.
Qed.

Lemma sorted_by_bcp_known l :
  Forall (λ a, a ∈ app_ids apps) l →
  sorted_by_bcp apps l = OK (map fst (sort_desc (with_scores apps l))).
Proof.
  intros Hl. unfold sorted_by_bcp. rewrite with_keys_known by done. simpl.
  replace (forallb _ _) with true.
  - rewrite andb_false_r. unfold with_scores. by rewrite map_map.
  - symmetry. apply forallb_forall. intros p Hp.
    apply in_map_iff in Hp as (a & <- & _). done.
Qed.

Lemma all_env_apps_known env : Forall (λ a, a ∈ app_ids apps) (all_env_apps apps env).
Proof.
  unfold all_env_apps. apply Forall_forall. intros a Ha.
  by apply list_elem_of_filter in Ha as [_ Ha].
Qed.

Lemma all_env_apps_suffix env :
  Forall (λ a, endswith a (env_suffix env) = true) (all_env_apps apps env).
Proof.
  unfold all_env_apps. apply Forall_forall. intros a Ha.
  apply list_elem_of_filter in Ha as [Ha _]. by apply Is_true_true.
Qed.

Lemma sorted_by_bcp_env env :
  sorted_by_bcp apps (all_env_apps apps env) = OK (risk_order apps env).
Proof. apply sorted_by_bcp_known, all_env_apps_known. Qed.

Lemma equalize_env_run tw env s :
  0 < tw →
  equalize_env apps tw env s = (OK (), set_env_waves env (balanced apps tw env) s).
Proof.
  intros Htw. unfold equalize_env. rewrite sorted_by_bcp_env.
  unfold mbind, M_bind, lift, balanced. simpl.
  destruct (Nat.eqb_spec (length (risk_order apps env)) 0) as [H0|H0].
  - apply nil_length_inv in H0. rewrite H0. simpl.
    by rewrite slices_of_nothing.
  - destruct (Nat.eqb_spec tw 0); [lia|]. done.
Qed.

Lemma equalize_waves_run tw s :
  0 < tw → equalize_waves apps tw s = (OK (), equalized apps tw).
Proof.
  intros Htw. unfold equalize_waves. simpl. unfold mbind, M_bind.
  rewrite !equalize_env_run by done. done.
Qed.

Lemma balanced_length tw env : length (balanced apps tw env) = tw.
Proof. unfold balanced. by rewrite slice_waves_length, wave_sizes_length. Qed.

Lemma balanced_concat tw env : 0 < tw → concat (balanced apps tw env) = risk_order apps env.
Proof.
  intros Htw. unfold balanced. rewrite slice_waves_concat, wave_sizes_sum, drop_0.
  - apply take_ge. pose proof (Nat.div_mod_eq (length (risk_order apps env)) tw). lia.
  - apply Nat.lt_le_incl, Nat.mod_upper_bound. lia.
Qed.

Lemma balanced_sizes tw env :
  0 < tw →
  map length (balanced apps tw env)
  = wave_sizes (length (all_env_apps apps env) / tw) (length (all_env_apps apps env) mod tw) tw.
Proof.
  intros Htw. unfold balanced. rewrite slice_waves_sizes; rewrite ?risk_order_length; [done|].
  rewrite wave_sizes_sum.
  - pose proof (Nat.div_mod_eq (length (all_env_apps apps env)) tw). lia.
  - apply Nat.lt_le_incl, Nat.mod_upper_bound. lia.
Qed.

Lemma ceil_div_rem total tw :
  0 < tw → 0 < total mod tw → ceil_div total tw = total / tw + 1.
Proof.
  intros Htw0 Hrem. unfold ceil_div.
  assert (Htw : tw ≠ 0) by lia.
  pose proof (Nat.div_mod_eq total tw) as Hdm.
  pose proof (Nat.mod_upper_bound total tw Htw) as Hub.
  symmetry. apply (Nat.div_unique _ _ _ (total mod tw - 1)); lia.
Qed.

End Equalizer.

Lemma wave_sizes_split base rem tw :
  rem ≤ tw → wave_sizes base rem tw = replicate rem (base + 1) ++ replicate (tw - rem) base.
Proof.
  intros Hrem. apply list_eq. intros i.
  destruct (decide (i < tw)) as [Hi|Hi].
  - rewrite wave_sizes_lookup by done. destruct (Nat.ltb_spec i rem).
    + rewrite lookup_app_l by (rewrite length_replicate; lia).
      by rewrite lookup_replicate_2.
    + rewrite lookup_app_r by (rewrite length_replicate; lia).
      rewrite length_replicate. rewrite lookup_replicate_2 by lia. done.
  - rewrite !lookup_ge_None_2; [done| |].
    + rewrite length_app, !length_replicate. lia.
    + rewrite wave_sizes_length. lia.
Qed.

(** C1. For every environment the equalizer returns [target_waves]
    contiguous slices of that environment's instances sorted by descending
    BCP score with ties in the original order (the concatenation of the
    waves is a permutation of the instances, sorted, and the instances of
    any one score keep the order of the application table); the first
    [total mod N] waves have size [ceil(total/N)] and the other waves have
    size [floor(total/N)]; 40 instances over 8 waves give eight waves of 5,
    and 42 instances give two waves of 6 followed by six waves of 5. *)
Theorem equalizer_sorts_and_slices (apps : list AppRow) (tw : nat) (s : Waves) :
  NoDup (app_ids apps) → 0 < tw →
  ∃ s', equalize_waves apps tw s = (OK (), s') ∧
    ∀ env,
      let ws := env_waves env s' in
      let ids := all_env_apps apps env in
      let total := length ids in
      concat ws ≡ₚ ids ∧
      StronglySorted (bcp_ge apps) (concat ws) ∧
      (∀ q, with_score apps q (concat ws) = with_score apps q ids) ∧
      length ws = tw ∧
      map length ws
        = replicate (total mod tw) (ceil_div total tw)
            ++ replicate (tw - total mod tw) (total / tw) ∧
      (∀ i w, ws !! i = Some w →
         length w = if decide (i < total mod tw) then ceil_div total tw else total / tw) ∧
      (tw = 8 → total = 40 → map length ws = [5; 5; 5; 5; 5; 5; 5; 5]) ∧
      (tw = 8 → total = 42 → map length ws = [6; 6; 5; 5; 5; 5; 5; 5]).
Proof.
  intros Hnd Htw. exists (equalized apps tw). split; [by apply equalize_waves_run|].
  intros env ws ids total.
  assert (Hws : ws = balanced apps tw env) by by destruct env.
  assert (Hrem : total mod tw < tw) by (apply Nat.mod_upper_bound; lia).
  assert (Hsizes : map length ws = wave_sizes (total / tw) (total mod tw) tw)
    by (rewrite Hws; by apply balanced_sizes).
  rewrite Hws, balanced_concat by done.
  split; [apply risk_order_perm|].
  split; [apply risk_order_sorted|].
  split; [intros q; apply risk_order_stable|].
  split; [apply balanced_length|].
  rewrite <- Hws. split; [|split; [|split]].
  - rewrite Hsizes, wave_sizes_split by lia.
    destruct (decide (total mod tw = 0)) as [->|Hpos]; [done|].
    rewrite ceil_div_rem by lia. done.
  - intros i w Hi.
    assert (Hlt : i < tw).
    { apply lookup_lt_Some in Hi. rewrite Hws, balanced_length in Hi. done. }
    assert (Hl : map length ws !! i = Some (length w)).
    { change (map length ws) with (length <$> ws). by rewrite list_lookup_fmap, Hi. }
    rewrite Hsizes, wave_sizes_lookup in Hl by done. injection Hl as <-.
    case_decide as Hc.
    + rewrite ceil_div_rem by lia. by rewrite (proj2 (Nat.ltb_lt _ _) Hc).
    + by rewrite (proj2 (Nat.ltb_ge _ _)) by lia.
  - intros -> Ht. rewrite Hsizes, Ht. reflexivity.
  - intros -> Ht. rewrite Hsizes, Ht. reflexivity.
Qed.

(** ** Runs of the primitives *)

Lemma env_waves_set env ws s : env_waves env (set_env_waves env ws s) = ws.
Proof. by destruct env. Qed.

Lemma env_waves_set_ne env env' ws s :
  env ≠ env' → env_waves env' (set_env_waves env ws s) = env_waves env' s.
Proof. by destruct env, env'. Qed.

Lemma set_env_waves_set env ws ws' s :
  set_env_waves env ws (set_env_waves env ws' s) = set_env_waves env ws s.
Proof. by destruct env. Qed.

Lemma set_env_waves_id env s : set_env_waves env (env_waves env s) s = s.
Proof. by destruct env, s. Qed.

Lemma read_wave_run env i w s :
  env_waves env s !! i = Some w → read_wave env i s = (OK w, s).
Proof. intros H. unfold read_wave. by rewrite H. Qed.

Lemma write_wave_run env i l s :
  i < length (env_waves env s) →
  write_wave env i l s = (OK (), set_env_waves env (<[i := l]> (env_waves env s)) s).
Proof. intros H. unfold write_wave. by case_decide. Qed.

Lemma wave_remove_run env i a w s :
  env_waves env s !! i = Some w → a ∈ w →
  wave_remove env i a s
  = (OK (), set_env_waves env (<[i := remove_first a w]> (env_waves env s)) s).
Proof.
  intros Hw Ha. unfold wave_remove, mbind, M_bind. rewrite (read_wave_run _ _ w) by done.
  rewrite bool_decide_eq_true_2 by done.
  apply write_wave_run. by eapply lookup_lt_Some.
Qed.

Lemma wave_append_run env i a w s :
  env_waves env s !! i = Some w →
  wave_append env i a s
  = (OK (), set_env_waves env (<[i := w ++ [a]]> (env_waves env s)) s).
Proof.
  intros Hw. unfold wave_append, mbind, M_bind. rewrite (read_wave_run _ _ w) by done.
  apply write_wave_run. by eapply lookup_lt_Some.
Qed.

Lemma remove_first_middle a pre rest :
  a ∉ pre → remove_first a (pre ++ a :: rest) = pre ++ rest.
Proof.
  induction pre as [|x pre IH]; simpl; intros Hin.
  - by case_decide.
  - apply not_elem_of_cons in Hin as [Hne Hin]. case_decide; [congruence|].
    by rewrite IH.
Qed.

Lemma remove_first_subseteq a l : remove_first a l ⊆ l.
Proof.
  induction l as [|x l IH]; simpl; [done|].
  intros y Hy. case_decide.
  - by right.
  - apply elem_of_cons in Hy as [->|Hy]; [by left|]. right. by apply IH.
Qed.

(** ** Rule 2: mission-critical applications leave the edge waves *)

Section Mission_critical.
Context (apps : list AppRow).

Lemma middle_wave_inside N : 2 < N → 0 < middle_wave N < N - 1.
Proof.
  intros HN. unfold middle_wave.
  pose proof (Nat.div_mod_eq N 4) as H1.
  pose proof (Nat.mod_upper_bound N 4) as H2.
  pose proof (Nat.div_mod_eq (3 * N + 3) 4) as H3.
  pose proof (Nat.mod_upper_bound (3 * N + 3) 4) as H4.
  pose proof (Nat.div_mod_eq (N / 4 + ((3 * N + 3) / 4 - 1)) 2) as H5.
  pose proof (Nat.mod_upper_bound (N / 4 + ((3 * N + 3) / 4 - 1)) 2) as H6.
  lia.
Qed.

Lemma mission_critical_step_skip env N middle i a changed s :
  mission_critical apps a && edge_wave N i = false →
  mission_critical_step apps env N middle i a changed s = (OK changed, s).
Proof.
  unfold mission_critical, mission_critical_step, try_or, mbind, M_bind, lift, edge_wave.
  intros H. destruct (loc_bcp apps a) as [[q|]|e]; simpl in *; try done.
  by rewrite H.
Qed.

Lemma mission_critical_step_move env N middle i a changed s w m :
  mission_critical apps a = true → edge_wave N i = true → i ≠ middle →
  env_waves env s !! i = Some w → a ∈ w →
  env_waves env s !! middle = Some m →
  mission_critical_step apps env N middle i a changed s
  = (OK true,
     set_env_waves env
       (<[middle := m ++ [a]]> (<[i := remove_first a w]> (env_waves env s))) s).
Proof.
  unfold mission_critical, mission_critical_step, try_or, mbind, M_bind, lift, edge_wave.
  intros Hmc Hedge Hne Hw Ha Hm.
  destruct (loc_bcp apps a) as [[q|]|e]; simpl in *; try done.
  rewrite Hmc, Hedge. simpl.
  rewrite (wave_remove_run _ _ _ w) by done.
  rewrite (wave_append_run _ _ _ m).
  - by rewrite env_waves_set, set_env_waves_set.
  - rewrite env_waves_set. by rewrite list_lookup_insert_ne.
Qed.

Lemma for_each_app {A S} (l1 l2 : list A) (body : A → S → M S) acc s :
  for_each (l1 ++ l2) body acc s
  = match for_each l1 body acc s with
    | (OK acc', s') => for_each l2 body acc' s'
    | (Raise e, s') => (Raise e, s')
    end.
Proof.
  revert acc s. induction l1 as [|x l1 IH]; intros acc s; simpl; [done|].
  unfold mbind, M_bind. destruct (body x acc s) as [[acc'|e] s']; [apply IH|done].
Qed.

Lemma for_each_noop {A S} (l : list A) (body : A → S → M S) acc s :
  (∀ x acc, x ∈ l → body x acc s = (OK acc, s)) → for_each l body acc s = (OK acc, s).
Proof.
  induction l as [|x l IH]; intros Hb; simpl; [done|].
  unfold mbind, M_bind. rewrite Hb by (by left). apply IH.
  intros y acc' Hy. apply Hb. by right.
Qed.

(** one edge wave: the critical ids go to the middle wave, in order *)
Lemma mission_critical_edge env N middle i rest :
  edge_wave N i = true → i ≠ middle →
  ∀ pre m changed s,
    Forall (λ a, mission_critical apps a = false) pre →
    env_waves env s !! i = Some (pre ++ rest) →
    env_waves env s !! middle = Some m →
    for_each rest (mission_critical_step apps env N middle i) changed s
    = (OK (changed || existsb (mission_critical apps) rest),
       set_env_waves env
         (<[middle := m ++ filter (λ a, mission_critical apps a) rest]>
            (<[i := pre ++ filter (λ a, ¬ mission_critical apps a) rest]>
               (env_waves env s))) s).
Proof.
  intros Hedge Hne. induction rest as [|a r IH]; intros pre m changed s Hpre Hi Hm.
  - simpl. rewrite orb_false_r, !app_nil_r.
    rewrite app_nil_r in Hi. rewrite (list_insert_id _ i) by done.
    rewrite list_insert_id by done. by rewrite set_env_waves_id.
  - simpl. unfold mbind, M_bind. rewrite !filter_cons.
    destruct (mission_critical apps a) eqn:Hmc.
    + rewrite (mission_critical_step_move _ _ _ _ _ _ _ (pre ++ a :: r) m); try done.
      2:{ apply elem_of_app. right. by left. }
      rewrite remove_first_middle.
      2:{ intros Hin. rewrite Forall_forall in Hpre. apply Hpre in Hin. congruence. }
      rewrite (IH pre (m ++ [a])); try done.
      * rewrite env_waves_set, set_env_waves_set, orb_true_r. simpl.
        rewrite (list_insert_insert_ne _ i middle) by done.
        rewrite !list_insert_insert_eq.
        by rewrite <- app_assoc.
      * rewrite env_waves_set. rewrite list_lookup_insert_ne by done.
        apply list_lookup_insert_eq. by eapply lookup_lt_Some.
      * rewrite env_waves_set. apply list_lookup_insert_eq.
        rewrite length_insert. by eapply lookup_lt_Some.
    + rewrite mission_critical_step_skip by (by rewrite Hmc).
      rewrite (IH (pre ++ [a]) m); try done.
      * simpl. by rewrite <- app_assoc.
      * apply Forall_app. split; [done|]. by constructor.
      * by rewrite <- app_assoc.
Qed.

(** the waves strictly between the first and the last are only read *)
Lemma mission_critical_inner env N middle start n changed s :
  0 < start → start + n < N → N ≤ length (env_waves env s) →
  for_each (seq start n) (λ i changed,
    snapshot ← read_wave env i;
    for_each snapshot (mission_critical_step apps env N middle i) changed) changed s
  = (OK changed, s).
Proof.
  intros H0 HN Hlen. apply for_each_noop. intros i acc Hi.
  apply elem_of_seq in Hi.
  destruct (lookup_lt_is_Some_2 (env_waves env s) i) as [w Hw]; [lia|].
  unfold mbind, M_bind. rewrite (read_wave_run _ _ w) by done.
  apply for_each_noop. intros a acc' _. apply mission_critical_step_skip.
  unfold edge_wave. replace (i =? 0) with false by (symmetry; apply Nat.eqb_neq; lia).
  replace (Z.of_nat i =? Z.of_nat N - 1)%Z with false by (symmetry; apply Z.eqb_neq; lia).
  apply andb_false_r.
Qed.

Lemma bind_run {A B} (m : M A) (f : A → M B) s a s' :
  m s = (OK a, s') → (m ≫= f) s = f a s'.
Proof. intros H. unfold mbind, M_bind. by rewrite H. Qed.

Lemma for_each_single {A S} (x : A) (body : A → S → M S) acc s :
  for_each [x] body acc s = body x acc s.
Proof. simpl. unfold mbind, M_bind. by destruct (body x acc s) as [[a|e] s']. Qed.

Lemma for_each_app_run {A S} (l1 l2 : list A) (body : A → S → M S) acc s acc' s' :
  for_each l1 body acc s = (OK acc', s') →
  for_each (l1 ++ l2) body acc s = for_each l2 body acc' s'.
Proof. intros H. by rewrite for_each_app, H. Qed.

(** the loop body of rule 2 on the first or the last wave *)
Lemma mission_critical_edge_wave_run env N i changed s w m :
  edge_wave N i = true → i ≠ middle_wave N →
  env_waves env s !! i = Some w →
  env_waves env s !! middle_wave N = Some m →
  (read_wave env i ≫= λ snapshot,
     for_each snapshot (mission_critical_step apps env N (middle_wave N) i) changed) s
  = (OK (changed || existsb (mission_critical apps) w),
     set_env_waves env
       (<[middle_wave N := m ++ filter (λ a, mission_critical apps a) w]>
          (<[i := filter (λ a, ¬ mission_critical apps a) w]> (env_waves env s))) s).
Proof.
  intros Hedge Hne Hw Hm.
  rewrite (bind_run _ _ s w s) by by apply read_wave_run.
  by apply (mission_critical_edge env N (middle_wave N) i w Hedge Hne []).
Qed.

(** the whole rule on a list of more than two waves *)
Lemma mission_critical_rule_run env changed s w0 wl m :
  let ws := env_waves env s in
  let N := length ws in
  2 < N →
  ws !! 0 = Some w0 → ws !! (N - 1) = Some wl → ws !! middle_wave N = Some m →
  mission_critical_rule apps env changed s
  = (OK (changed || existsb (mission_critical apps) w0
                 || existsb (mission_critical apps) wl),
     set_env_waves env
       (<[middle_wave N := m ++ filter (λ a, mission_critical apps a) w0
                             ++ filter (λ a, mission_critical apps a) wl]>
          (<[N - 1 := filter (λ a, ¬ mission_critical apps a) wl]>
             (<[0 := filter (λ a, ¬ mission_critical apps a) w0]> ws))) s).
Proof.
  intros ws N HN H0 Hl Hm.
  pose proof (middle_wave_inside N HN) as Hmid.
  unfold mission_critical_rule.
  rewrite (bind_run _ _ s N s) by done.
  destruct (Nat.leb_spec N 2); [lia|].
  replace (seq 0 N) with ([0] ++ seq 1 (N - 2) ++ [N - 1]).
  2:{ replace N with (1 + ((N - 2) + 1)) at 3 by lia. rewrite seq_app.
      simpl. f_equal. rewrite seq_app. simpl. do 2 f_equal. lia. }
  erewrite for_each_app_run.
  2:{ rewrite for_each_single.
      apply (mission_critical_edge_wave_run env N 0 changed s w0 m); [done|lia|done|done]. }
  erewrite for_each_app_run.
  2:{ apply mission_critical_inner; [lia|lia|].
      rewrite env_waves_set, !length_insert. done. }
  rewrite for_each_single.
  rewrite (mission_critical_edge_wave_run env N (N - 1) _ _ wl
             (m ++ filter (λ a, mission_critical apps a) w0)).
  - rewrite env_waves_set, set_env_waves_set. fold ws.
    rewrite (list_insert_insert_ne _ (N - 1) (middle_wave N)) by lia.
    rewrite list_insert_insert_eq.
    by rewrite <- app_assoc.
  - unfold edge_wave. replace (Z.of_nat (N - 1) =? Z.of_nat N - 1)%Z with true.
    + apply orb_true_r.
    + symmetry. apply Z.eqb_eq. lia.
  - lia.
  - rewrite env_waves_set. rewrite !list_lookup_insert_ne by lia. done.
  - rewrite env_waves_set. apply list_lookup_insert_eq. rewrite length_insert.
    fold ws N. lia.
Qed.

End Mission_critical.

Lemma middle_wave_formula N :
  0 < N → middle_wave N = (N / 4 + ceil_div (3 * N) 4 - 1) / 2.
Proof.
  intros HN. unfold middle_wave, ceil_div.
  replace (3 * N + 4 - 1) with (3 * N + 3) by lia.
  assert (1 ≤ (3 * N + 3) / 4) by (apply Nat.div_le_lower_bound; lia).
  by replace (N / 4 + (3 * N + 3) / 4 - 1) with (N / 4 + ((3 * N + 3) / 4 - 1)) by lia.
Qed.

(** C5. On an environment with more than two waves, rule 2 removes every
    application with BCP score at least 9 from the first and from the last
    wave and appends it to the middle wave, whose index is
    [(floor(0.25 N) + ceil(0.75 N) - 1) // 2]; nothing else changes.  For
    [N = 8] the middle wave is wave 3, and after the rule no such
    application is in the first or in the last wave. *)
Theorem mission_critical_rule_moves_to_middle (apps : list AppRow) (env : Env)
    (changed : bool) (s : Waves) :
  let ws := env_waves env s in
  let N := length ws in
  let first_wave := default [] (ws !! 0) in
  let last_wave := default [] (ws !! (N - 1)) in
  2 < N →
  ∃ changed' s',
    mission_critical_rule apps env changed s = (OK changed', s') ∧
    let ws' := env_waves env s' in
    length ws' = N ∧
    ws' !! 0 = Some (filter (λ a, ¬ mission_critical apps a) first_wave) ∧
    ws' !! (N - 1) = Some (filter (λ a, ¬ mission_critical apps a) last_wave) ∧
    ws' !! middle_wave N
      = (λ m, m ++ filter (λ a, mission_critical apps a) first_wave
                ++ filter (λ a, mission_critical apps a) last_wave)
          <$> ws !! middle_wave N ∧
    (∀ i, i ≠ 0 → i ≠ N - 1 → i ≠ middle_wave N → ws' !! i = ws !! i) ∧
    (∀ e, e ≠ env → env_waves e s' = env_waves e s) ∧
    middle_wave N = (N / 4 + ceil_div (3 * N) 4 - 1) / 2 ∧
    (N = 8 → middle_wave N = 3) ∧
    (∀ a w, mission_critical apps a →
            ws' !! 0 = Some w ∨ ws' !! (N - 1) = Some w → a ∉ w).
Proof.
  intros ws N first_wave last_wave HN.
  pose proof (middle_wave_inside N HN) as Hmid.
  destruct (lookup_lt_is_Some_2 ws 0) as [w0 H0]; [fold N; lia|].
  destruct (lookup_lt_is_Some_2 ws (N - 1)) as [wl Hl]; [fold N; lia|].
  destruct (lookup_lt_is_Some_2 ws (middle_wave N)) as [m Hm]; [fold N; lia|].
  eexists _, _. split; [by apply (mission_critical_rule_run apps env changed s w0 wl m)|].
  subst first_wave last_wave. rewrite H0, Hl, Hm. simpl.
  rewrite env_waves_set. fold ws N.
  assert (H0' : (<[middle_wave N := m ++ filter (λ a, mission_critical apps a) w0
                             ++ filter (λ a, mission_critical apps a) wl]>
          (<[N - 1 := filter (λ a, ¬ mission_critical apps a) wl]>
             (<[0 := filter (λ a, ¬ mission_critical apps a) w0]> ws))) !! 0
          = Some (filter (λ a, ¬ mission_critical apps a) w0)).
  { rewrite !list_lookup_insert_ne by lia. apply list_lookup_insert_eq. fold N. lia. }
  assert (Hl' : (<[middle_wave N := m ++ filter (λ a, mission_critical apps a) w0
                             ++ filter (λ a, mission_critical apps a) wl]>
          (<[N - 1 := filter (λ a, ¬ mission_critical apps a) wl]>
             (<[0 := filter (λ a, ¬ mission_critical apps a) w0]> ws))) !! (N - 1)
          = Some (filter (λ a, ¬ mission_critical apps a) wl)).
  { rewrite list_lookup_insert_ne by lia. apply list_lookup_insert_eq.
    rewrite length_insert. fold N. lia. }
  split; [by rewrite !length_insert|].
  split; [exact H0'|]. split; [exact Hl'|].
  split; [apply list_lookup_insert_eq; rewrite !length_insert; fold N; lia|].
  split; [intros i ???; by rewrite !list_lookup_insert_ne|].
  split; [intros e He; by apply env_waves_set_ne|].
  split; [exact (middle_wave_formula N ltac:(lia))|].
  split; [by intros ->|].
  intros a w Hmc [Hw|Hw].
  - rewrite H0' in Hw. injection Hw as <-. intros Hin.
    apply list_elem_of_filter in Hin as [Hn _]. by apply Hn.
  - rewrite Hl' in Hw. injection Hw as <-. intros Hin.
    apply list_elem_of_filter in Hin as [Hn _]. by apply Hn.
Qed.

(** ** The wave-index map points into the waves *)

Lemma index_wave_lookup env i w m a v :
  index_wave env i w m !! a = Some v → m !! a = Some v ∨ (v = (env, i) ∧ a ∈ w).
Proof.
  unfold index_wave. revert m. induction w as [|x w IH]; intros m H; simpl in *; [by left|].
  apply IH in H as [H|[-> H]].
  - apply lookup_insert_Some in H as [[-> <-]|[_ H]]; [|by left].
    right. split; [done|by left].
  - right. split; [done|by right].
Qed.

Lemma index_waves_lookup env i wl m a v :
  index_waves env i wl m !! a = Some v →
  m !! a = Some v ∨ ∃ j w, v = (env, i + j) ∧ wl !! j = Some w ∧ a ∈ w.
Proof.
  revert i m. induction wl as [|w wl IH]; intros i m H; simpl in *; [by left|].
  apply IH in H as [H|(j & w' & -> & Hj & Ha)].
  - apply index_wave_lookup in H as [H|[-> Ha]]; [by left|].
    right. exists 0, w. split; [f_equal; lia|done].
  - right. exists (S j), w'. split; [f_equal; lia|done].
Qed.

Lemma wave_index_map_lookup s a env i :
  wave_index_map s !! a = Some (env, i) →
  ∃ w, env_waves env s !! i = Some w ∧ a ∈ w.
Proof.
  unfold wave_index_map. intros H.
  apply index_waves_lookup in H as [H|(j & w & Hv & Hj & Ha)].
  - apply index_waves_lookup in H as [H|(j & w & Hv & Hj & Ha)]; [done|].
    injection Hv as -> ->. by exists w.
  - injection Hv as -> ->. by exists w.
Qed.

Lemma wave_index_map_ok K tw s : shaped K tw s → idxmap_ok K tw (wave_index_map s).
Proof.
  intros Hs a env i H. apply wave_index_map_lookup in H as (w & Hw & Ha).
  destruct (Hs env) as [Hlen Hall]. split.
  - rewrite <- Hlen. by eapply lookup_lt_Some.
  - rewrite Forall_forall in Hall. eapply Forall_forall; [apply Hall|done].
    by eapply list_elem_of_lookup_2.
Qed.

Lemma foldl_min_le (f : string → nat) l acc :
  foldl (λ acc a, Nat.min acc (f a)) acc l ≤ acc
  ∧ ∀ p, p ∈ l → foldl (λ acc a, Nat.min acc (f a)) acc l ≤ f p.
Proof.
  revert acc. induction l as [|y l IH]; intros acc; simpl.
  - split; [done|]. intros p Hp. by apply elem_of_nil in Hp.
  - destruct (IH (Nat.min acc (f y))) as [H1 H2]. split; [lia|].
    intros p Hp. apply elem_of_cons in Hp as [->|Hp]; [lia|by apply H2].
Qed.

Lemma min_wave_index_le idxmap x l p :
  p ∈ x :: l → min_wave_index idxmap x l ≤ idx_or_999 idxmap p.
Proof.
  unfold min_wave_index. intros Hp.
  destruct (foldl_min_le (idx_or_999 idxmap) l (idx_or_999 idxmap x)) as [H1 H2].
  apply elem_of_cons in Hp as [->|Hp]; [done|by apply H2].
Qed.

(** ** The primitives on a shaped assignment *)

Section Shape.
Context (K : string → Prop) (tw : nat).

Lemma shaped_set env ws s :
  shaped K tw s → length ws = tw → Forall (Forall K) ws →
  shaped K tw (set_env_waves env ws s).
Proof.
  intros Hs Hlen Hall env'. destruct (decide (env = env')) as [<-|Hne].
  - by rewrite env_waves_set.
  - rewrite env_waves_set_ne by done. apply Hs.
Qed.

Lemma shaped_insert env i l s :
  shaped K tw s → Forall K l →
  shaped K tw (set_env_waves env (<[i := l]> (env_waves env s)) s).
Proof.
  intros Hs Hl. destruct (Hs env) as [Hlen Hall]. apply shaped_set; [done| |].
  - by rewrite length_insert.
  - by apply Forall_insert.
Qed.

Lemma shaped_lookup env i w s :
  shaped K tw s → env_waves env s !! i = Some w → Forall K w.
Proof.
  intros Hs Hw. destruct (Hs env) as [_ Hall].
  rewrite Forall_forall in Hall. apply Hall. by eapply list_elem_of_lookup_2.
Qed.

Lemma triple_len_env env :
  triple (shaped K tw) (len_env env) (λ n s, n = tw ∧ shaped K tw s) never.
Proof. apply triple_gets. intros s Hs. split; [apply Hs|done]. Qed.

Lemma triple_read_env env :
  triple (shaped K tw) (read_env env)
    (λ ws s, (length ws = tw ∧ Forall (Forall K) ws) ∧ shaped K tw s) never.
Proof. apply triple_gets. intros s Hs. split; [apply Hs|done]. Qed.

Lemma triple_read_wave env i :
  i < tw →
  triple (shaped K tw) (read_wave env i) (λ w s, Forall K w ∧ shaped K tw s) never.
Proof.
  intros Hi s Hs. unfold read_wave.
  destruct (lookup_lt_is_Some_2 (env_waves env s) i) as [w Hw].
  { destruct (Hs env) as [-> _]. done. }
  rewrite Hw. split; [by eapply shaped_lookup|done].
Qed.

Lemma triple_write_wave env i l :
  i < tw → Forall K l →
  triple (shaped K tw) (write_wave env i l) (λ _, shaped K tw) never.
Proof.
  intros Hi Hl s Hs. unfold write_wave.
  destruct (Hs env) as [Hlen _]. rewrite decide_True by lia.
  by apply shaped_insert.
Qed.

Lemma Forall_remove_first a l : Forall K l → Forall K (remove_first a l).
Proof.
  intros H. rewrite Forall_forall in *. intros x Hx. apply H.
  by apply remove_first_subseteq in Hx.
Qed.

Lemma triple_wave_discard env i a :
  i < tw → triple (shaped K tw) (wave_discard env i a) (λ _, shaped K tw) never.
Proof.
  intros Hi. unfold wave_discard.
  eapply triple_bind; [by apply triple_read_wave|]. intros w.
  apply triple_assume. intros Hw.
  destruct (bool_decide _).
  - apply triple_write_wave; [done|]. by apply Forall_remove_first.
  - by apply triple_ret.
Qed.

Lemma triple_wave_append env i a :
  i < tw → K a → triple (shaped K tw) (wave_append env i a) (λ _, shaped K tw) never.
Proof.
  intros Hi Ha. unfold wave_append.
  eapply triple_bind; [by apply triple_read_wave|]. intros w.
  apply triple_assume. intros Hw.
  apply triple_write_wave; [done|]. apply Forall_app. split; [done|]. by constructor.
Qed.

Lemma triple_resolve_index env (i : nat) :
  i < tw →
  triple (shaped K tw) (resolve_index env (Z.of_nat i)) (λ j s, j = i ∧ shaped K tw s) never.
Proof.
  intros Hi. unfold resolve_index.
  eapply triple_bind; [apply triple_len_env|]. intros n.
  apply triple_assume. intros ->. apply triple_lift. intros s Hs.
  unfold py_index. rewrite decide_True by lia. split; [lia|done].
Qed.

(** the relocation loop, for a target index that is in range whenever an
    instance has an entry in the map *)
Lemma triple_move_instances idxmap env target_idx insts changed :
  idxmap_ok K tw idxmap →
  (∀ p e i, p ∈ insts → idxmap !! p = Some (e, i) → target_idx < tw) →
  Forall K insts →
  triple (shaped K tw) (move_instances idxmap env target_idx insts changed)
    (λ _, shaped K tw) never.
Proof.
  intros Hok Htarget Hinsts. unfold move_instances.
  apply (triple_for_each insts _ (λ _, shaped K tw)).
  intros p acc Hp. destruct (idxmap !! p) as [[e old]|] eqn:Hidx; [|by apply triple_ret].
  case_decide; [|by apply triple_ret].
  destruct (Hok _ _ _ Hidx) as [Hold _].
  eapply triple_bind; [by apply triple_wave_discard|]. intros ?.
  eapply (triple_bind _ _ _ (λ _, shaped K tw)); [|intros ?; by apply triple_ret].
  simpl. apply triple_wave_append; [by eapply Htarget|].
  rewrite Forall_forall in Hinsts. by apply Hinsts.
Qed.

(** the structural rule has nothing to do on [tw] waves *)
Lemma triple_structural_rule env :
  triple (shaped K tw) (structural_rule tw env) (λ _, shaped K tw) never.
Proof.
  unfold structural_rule, pad_waves, merge_extra_waves.
  apply (triple_bind _ _ _ (λ _, shaped K tw)).
  - eapply triple_bind; [apply triple_len_env|]. intros n.
    apply triple_assume. intros ->. rewrite Nat.sub_diag. simpl.
    by apply triple_ret.
  - intros ?. eapply triple_bind; [apply triple_len_env|]. intros n.
    apply triple_assume. intros ->. rewrite Nat.sub_diag. simpl. by apply triple_ret.
Qed.

End Shape.

(** ** The repair engine runs to completion *)

Lemma group_insert_members (P : string → Prop) base inst groups :
  Forall (λ g, Forall P (snd g)) groups → P inst →
  Forall (λ g, Forall P (snd g)) (group_insert base inst groups).
Proof.
  intros Hg Hi. induction Hg as [|[b l] groups Hl Hg IH]; simpl.
  - repeat constructor. done.
  - destruct (String.compare base b).
    + constructor; [|done]. simpl in *. apply Forall_app. split; [done|]. by constructor.
    + constructor; [|by constructor]. simpl. by constructor.
    + by constructor.
Qed.

Lemma base_groups_members (apps : list AppRow) :
  Forall (λ g, Forall (known apps) (snd g)) (base_groups apps).
Proof.
  unfold base_groups.
  assert (H : ∀ rows g,
    Forall (λ r, known apps (app_instance_id r)) rows →
    Forall (λ g, Forall (known apps) (snd g)) g →
    Forall (λ g, Forall (known apps) (snd g))
      (foldl (λ g r, group_insert (base_app_id r) (app_instance_id r) g) g rows)).
  { induction rows as [|r rows IH]; intros g Hrows Hg; simpl; [done|].
    apply Forall_cons in Hrows as [Hr Hrows]. apply IH; [done|].
    by apply group_insert_members. }
  apply H; [|constructor].
  apply Forall_forall. intros r Hr. unfold known, app_ids.
  apply list_elem_of_In, in_map, list_elem_of_In, Hr.
Qed.

Lemma Forall_filter_keep {A} (P : A → Prop) (Q : A → Prop) `{∀ x, Decision (Q x)} l :
  Forall P l → Forall P (filter Q l).
Proof.
  intros Hl. rewrite Forall_forall in *. intros x Hx.
  apply list_elem_of_filter in Hx as [_ Hx]. by apply Hl.
Qed.

Section Repair.
Context (apps : list AppRow) (deps : list DepRow) (tw : nat).
Hypothesis apps_distinct : NoDup (app_ids apps).

Local Abbreviation wf := (shaped (known apps) tw).

Lemma back_target_ok idxmap x l p e i :
  idxmap_ok (known apps) tw idxmap →
  p ∈ x :: l → idxmap !! p = Some (e, i) →
  Nat.max (min_wave_index idxmap x l - 1) 0 < tw.
Proof.
  intros Hok Hp Hidx. destruct (Hok _ _ _ Hidx) as [Hi _].
  pose proof (min_wave_index_le idxmap x l p Hp) as Hle.
  unfold idx_or_999 in Hle. rewrite Hidx in Hle. lia.
Qed.

Lemma triple_sequencing_rule idxmap changed :
  idxmap_ok (known apps) tw idxmap →
  triple wf (sequencing_rule apps idxmap tw changed) (λ _, wf) never.
Proof.
  intros Hok. unfold sequencing_rule.
  apply (triple_for_each (base_groups apps) _ (λ _, wf)).
  intros [base instances] acc Hg.
  assert (Hinst : Forall (known apps) instances).
  { pose proof (base_groups_members apps) as H. rewrite Forall_forall in H.
    apply (H _ Hg). }
  pose proof (Forall_filter_keep (known apps) (λ i, endswith i "nonprod") instances Hinst)
    as Hnp.
  pose proof (Forall_filter_keep (known apps) (λ i, endswith i "prod") instances Hinst)
    as Hp.
  destruct (filter (λ i, endswith i "nonprod") instances) as [|n ns]; [by apply triple_ret|].
  destruct (filter (λ i, endswith i "prod") instances) as [|p ps]; [by apply triple_ret|].
  destruct (_ <=? _); [|by apply triple_ret].
  destruct (Z.ltb_spec (Z.of_nat (min_wave_index idxmap n ns)) (Z.of_nat tw - 1)).
  - apply triple_move_instances; [done| |done]. intros. lia.
  - apply triple_move_instances; [done| |done]. intros q e i Hq Hidx.
    by eapply back_target_ok.
Qed.

Lemma triple_fix_order_pass :
  triple wf (fix_order_pass apps tw) (λ _, wf) never.
Proof.
  unfold fix_order_pass.
  eapply triple_bind.
  { apply (triple_gets _ _ (λ idxmap s, idxmap_ok (known apps) tw idxmap ∧ wf s)).
    intros s Hs. split; [by apply wave_index_map_ok|done]. }
  intros idxmap. apply triple_assume. intros Hok.
  apply (triple_for_each (base_groups apps) _ (λ _, wf)).
  intros [base instances] acc Hg.
  assert (Hinst : Forall (known apps) instances).
  { pose proof (base_groups_members apps) as H. rewrite Forall_forall in H.
    apply (H _ Hg). }
  pose proof (Forall_filter_keep (known apps) (λ i, endswith i "nonprod") instances Hinst)
    as Hnp.
  pose proof (Forall_filter_keep (known apps) (λ i, endswith i "prod") instances Hinst)
    as Hp.
  destruct (filter (λ i, endswith i "nonprod") instances) as [|n ns]; [by apply triple_ret|].
  destruct (filter (λ i, endswith i "prod") instances) as [|p ps]; [by apply triple_ret|].
  destruct (_ <=? _); [|by apply triple_ret].
  destruct (0 <? _).
  - apply triple_move_instances; [done| |done]. intros q e i Hq Hidx.
    by eapply back_target_ok.
  - destruct (Z.ltb_spec (Z.of_nat (min_wave_index idxmap p ps)) (Z.of_nat tw - 1));
      [|by apply triple_ret].
    apply triple_move_instances; [done| |done]. intros. lia.
Qed.

Lemma triple_fix_nonprod_prod_order fuel :
  triple wf (fix_nonprod_prod_order apps tw fuel) (λ _, wf) never.
Proof.
  induction fuel as [|fuel IH]; simpl; [by apply triple_ret|].
  eapply triple_bind; [apply triple_fix_order_pass|].
  intros [|]; [exact IH|by apply triple_ret].
Qed.

Lemma triple_lift_ok {A B} (P : Waves → Prop) (a : A) (f : A → M B) Q E :
  triple P (f a) Q E → triple P (lift (OK a) ≫= f) Q E.
Proof. intros H s Hs. exact (H s Hs). Qed.

Lemma triple_total_weaken {A} (P : Waves → Prop) (m : M A) Q E :
  triple P m Q never → triple P m Q E.
Proof. intros H. eapply triple_conseq; [exact H|done|done|]. by intros s []. Qed.

Lemma triple_repair_dep idxmap r changed :
  idxmap_ok (known apps) tw idxmap →
  triple wf (repair_dep apps idxmap tw r changed) (λ _, wf) never.
Proof.
  intros Hok. unfold repair_dep.
  destruct (idxmap !! source r) as [[src_env s_idx]|] eqn:Hs; [|by apply triple_ret].
  destruct (idxmap !! target r) as [[tgt_env t_idx]|] eqn:Ht; [|by apply triple_ret].
  destruct (Hok _ _ _ Hs) as [Hsi Hsk], (Hok _ _ _ Ht) as [Hti Htk].
  case_decide; [by apply triple_ret|].
  rewrite loc_bcp_known by done. apply triple_lift_ok. simpl. apply triple_lift_ok.
  apply (triple_bind _ _ _ (λ _, wf)).
  - destruct (_ && _); [|by apply triple_ret].
    apply triple_try_or, triple_total_weaken.
    apply (triple_bind _ _ _ (λ _, wf)); [by apply triple_wave_discard|]. intros ?.
    eapply triple_bind; [by apply triple_read_wave|]. intros w.
    apply triple_assume. intros Hw.
    destruct (bool_decide _); [by apply triple_ret|].
    apply (triple_bind _ _ _ (λ _, wf)); [by apply triple_wave_append|]. intros ?.
    by apply triple_ret.
  - intros changed'. apply triple_lift_ok.
    destruct (_ && _ && _); [|by apply triple_ret].
    destruct (Nat.leb_spec tw s_idx); [lia|].
    apply (triple_bind _ _ _ (λ _, wf)); [by apply triple_wave_discard|]. intros ?.
    eapply triple_bind; [by apply triple_resolve_index|]. intros j.
    apply triple_assume. intros ->.
    eapply triple_bind; [by apply triple_read_wave|]. intros w.
    apply triple_assume. intros Hw.
    destruct (bool_decide _); [by apply triple_ret|].
    apply (triple_bind _ _ _ (λ _, wf)); [by apply triple_wave_append|]. intros ?.
    by apply triple_ret.
Qed.

Lemma triple_mission_critical_rule env changed :
  triple wf (mission_critical_rule apps env changed) (λ _, wf) never.
Proof.
  intros s Hs. destruct (Hs env) as [Hlen Hall].
  destruct (decide (2 < tw)) as [Htw|Htw].
  - pose proof (middle_wave_inside tw Htw) as Hmid.
    destruct (lookup_lt_is_Some_2 (env_waves env s) 0) as [w0 H0]; [lia|].
    destruct (lookup_lt_is_Some_2 (env_waves env s) (tw - 1)) as [wl Hl]; [lia|].
    destruct (lookup_lt_is_Some_2 (env_waves env s) (middle_wave tw)) as [m Hm]; [lia|].
    rewrite (mission_critical_rule_run apps env changed s w0 wl m);
      rewrite ?Hlen; try done.
    apply shaped_set; [done|by rewrite !length_insert|].
    pose proof (shaped_lookup _ _ _ _ _ _ Hs H0) as K0.
    pose proof (shaped_lookup _ _ _ _ _ _ Hs Hl) as Kl.
    pose proof (shaped_lookup _ _ _ _ _ _ Hs Hm) as Km.
    repeat apply Forall_insert; try done; try (by apply Forall_filter_keep).
    rewrite !Forall_app. by repeat split; try apply Forall_filter_keep.
  - unfold mission_critical_rule. rewrite (bind_run _ _ s tw s) by (by rewrite <- Hlen).
    destruct (Nat.leb_spec tw 2); [done|lia].
Qed.

Lemma triple_repair_pass :
  triple wf (repair_pass apps deps tw) (λ _, wf) never.
Proof.
  unfold repair_pass.
  eapply triple_bind.
  { apply (triple_gets _ _ (λ idxmap s, idxmap_ok (known apps) tw idxmap ∧ wf s)).
    intros s Hs. split; [by apply wave_index_map_ok|done]. }
  intros idxmap. apply triple_assume. intros Hok.
  apply (triple_bind _ _ _ (λ _, wf)); [by apply triple_sequencing_rule|]. intros c1.
  apply (triple_bind _ _ _ (λ _, wf)).
  { apply (triple_for_each (app_deps deps) _ (λ _, wf)). intros r acc _.
    by apply triple_repair_dep. }
  intros c2.
  apply (triple_bind _ _ _ (λ _, wf)).
  { apply (triple_for_each envs _ (λ _, wf)). intros env acc _.
    apply triple_mission_critical_rule. }
  intros c3.
  apply (triple_bind _ _ _ (λ _, wf)).
  { apply (triple_for_each envs _ (λ _, wf)). intros env acc _.
    apply triple_structural_rule. }
  intros ?. by apply triple_ret.
Qed.

Lemma triple_repair_loop fuel :
  triple wf (repair_loop apps deps tw fuel) (λ _, wf) never.
Proof.
  induction fuel as [|fuel IH]; simpl; [by apply triple_ret|].
  eapply triple_bind; [apply triple_repair_pass|].
  intros [|]; [exact IH|by apply triple_ret].
Qed.

End Repair.

(** ** The sanitizer runs to completion *)

Lemma elem_of_enumerate {A} (l : list A) i x : (i, x) ∈ enumerate l → i < length l.
Proof.
  unfold enumerate. intros H. apply elem_of_zip_l in H.
  apply elem_of_seq in H. lia.
Qed.

Section Sanitizer.
Context (apps : list AppRow) (tw : nat).
Hypothesis tw_pos : 0 < tw.

Local Abbreviation sized := (shaped (λ _, True) tw).

Lemma Forall_any (l : list string) : Forall (λ _, True) l.
Proof. by apply Forall_forall. Qed.

Lemma triple_pad_waves env :
  triple sized (pad_waves tw env) (λ _, sized) never.
Proof.
  unfold pad_waves. eapply triple_bind; [apply triple_len_env|]. intros n.
  apply triple_assume. intros ->. rewrite Nat.sub_diag. by apply triple_ret.
Qed.

Lemma triple_sanitize_waves :
  triple sized (sanitize_waves apps tw) (λ _, sized) never.
Proof.
  unfold sanitize_waves.
  apply (triple_bind _ _ _ (λ _, sized)).
  { apply (triple_for_each envs _ (λ _, sized)). intros env seen _.
    apply (triple_bind _ _ _ (λ _, sized)); [apply triple_pad_waves|]. intros ?.
    eapply triple_bind; [apply triple_read_env|]. intros ws.
    apply triple_assume. intros [Hlen _].
    apply (triple_for_each (enumerate ws) _ (λ _, sized)). intros [i w] seen' Hiw.
    apply elem_of_enumerate in Hiw. destruct (sanitize_wave env w seen') as [newlist seen''].
    apply (triple_bind _ _ _ (λ _, sized)); [|intros ?; by apply triple_ret].
    apply triple_write_wave; [lia|apply Forall_any]. }
  intros seen.
  apply (triple_bind _ _ _ (λ _, sized)); [|intros ?; by apply triple_ret].
  apply (triple_for_each envs _ (λ _, sized)). intros env seen' _.
  eapply triple_bind; [apply triple_len_env|]. intros n.
  apply triple_assume. intros ->.
  destruct (Nat.eqb_spec tw 0); [lia|].
  apply (triple_bind _ _ _ (λ _, sized)); [by apply triple_ret|]. intros ?.
  apply (triple_bind _ _ _ (λ _, sized)); [|intros [j seen'']; by apply triple_ret].
  apply (triple_for_each _ _ (λ _, sized)). intros x [j seen''] _.
  eapply triple_bind; [apply triple_len_env|]. intros n'.
  apply triple_assume. intros ->.
  destruct (Nat.eqb_spec tw 0); [lia|].
  apply (triple_bind _ _ _ (λ _, sized)); [|intros ?; by apply triple_ret].
  apply triple_wave_append; [|done]. apply Nat.mod_upper_bound. lia.
Qed.

End Sanitizer.

Lemma shaped_weaken (K K' : string → Prop) tw s :
  (∀ a, K a → K' a) → shaped K tw s → shaped K' tw s.
Proof.
  intros HK Hs env. destruct (Hs env) as [Hlen Hall]. split; [done|].
  eapply Forall_impl; [exact Hall|]. intros w Hw.
  eapply Forall_impl; [exact Hw|]. done.
Qed.

(** ** The whole pipeline *)

Section Pipeline.
Context (apps : list AppRow) (deps : list DepRow) (tw : nat).
Hypothesis apps_distinct : NoDup (app_ids apps).
Hypothesis tw_pos : 0 < tw.

(** On an assignment of [tw] waves per environment over the ids of the
    table, [enforce_constraints] returns, and what it returns is what the
    equalizer builds from the application table. *)
Lemma enforce_constraints_run s :
  shaped (known apps) tw s →
  enforce_constraints apps deps tw s = (OK (), equalized apps tw).
Proof.
  intros Hs.
  assert (Ht : triple (shaped (known apps) tw) (enforce_constraints apps deps tw)
                 (λ _ s', s' = equalized apps tw) never).
  { unfold enforce_constraints.
    apply (triple_bind _ _ _ (λ _, shaped (known apps) tw));
      [by apply triple_repair_loop|]. intros ?.
    apply (triple_bind _ _ _ (λ _, shaped (known apps) tw));
      [by apply triple_fix_nonprod_prod_order|]. intros ?.
    apply (triple_bind _ _ _ (λ _, shaped (λ _, True) tw)).
    { eapply triple_pre; [by apply triple_sanitize_waves|].
      intros s'. by apply shaped_weaken. }
    intros ? s' _. by rewrite equalize_waves_run. }
  specialize (Ht s Hs).
  destruct (enforce_constraints apps deps tw s) as [[[]|e] s']; [by subst|done].
Qed.

Lemma equalized_shaped : shaped (known apps) tw (equalized apps tw).
Proof.
  intros env. replace (env_waves env (equalized apps tw)) with (balanced apps tw env)
    by by destruct env.
  split; [apply balanced_length|].
  apply Forall_forall. intros w Hw. apply Forall_forall. intros a Ha.
  assert (Hin : a ∈ concat (balanced apps tw env)).
  { apply list_elem_of_In, in_concat. exists w. by rewrite <- !list_elem_of_In. }
  rewrite balanced_concat, risk_order_perm in Hin by done.
  pose proof (all_env_apps_known apps env) as H. rewrite Forall_forall in H. by apply H.
Qed.

End Pipeline.

(** ** The distributor builds a shaped assignment *)

Lemma slice_waves_Forall (K : string → Prop) sizes idx l :
  Forall K l → Forall (Forall K) (slice_waves sizes idx l).
Proof.
  intros Hl. revert idx. induction sizes as [|x r IH]; intros idx; simpl; [constructor|].
  constructor; [|apply IH]. by apply Forall_take, Forall_drop.
Qed.

Lemma clusters_to_waves_shaped (apps : list AppRow) clusters env tw :
  0 < tw →
  ∃ ws, clusters_to_waves apps clusters env tw = OK ws
        ∧ length ws = tw ∧ Forall (Forall (known apps)) ws.
Proof.
  intros Htw. unfold clusters_to_waves.
  set (ordered := filter _ _). set (app_list := concat ordered).
  assert (Hknown : Forall (known apps) app_list).
  { apply Forall_forall. intros a Ha.
    apply list_elem_of_In, in_concat in Ha as (ms & Hms & Ha).
    apply list_elem_of_In, list_elem_of_filter in Hms as [_ Hms].
    apply list_elem_of_In, in_map_iff in Hms as ([c members] & <- & _).
    apply list_elem_of_In, list_elem_of_filter in Ha as [[Ha _] _]. exact Ha. }
  destruct (Nat.eqb_spec (length app_list) 0) as [H0|H0].
  - eexists. split; [done|]. rewrite length_replicate. split; [done|].
    apply Forall_replicate. constructor.
  - destruct (Nat.eqb_spec tw 0); [lia|].
    rewrite wave_sizes_sum by (apply Nat.lt_le_incl, Nat.mod_upper_bound; lia).
    pose proof (Nat.div_mod_eq (length app_list) tw) as Hdm.
    destruct (Nat.ltb_spec (length app_list / tw * tw + length app_list mod tw)
                (length app_list)); [lia|].
    eexists. split; [done|]. rewrite slice_waves_length, wave_sizes_length.
    split; [done|]. by apply slice_waves_Forall.
Qed.

Lemma build_waves_for_algo_shaped (apps : list AppRow) communities :
  ∃ waves, build_waves_for_algo apps communities = OK waves
           ∧ shaped (known apps) TARGET_WAVES_PER_ENV waves.
Proof.
  unfold build_waves_for_algo.
  destruct (clusters_to_waves_shaped apps communities Nonprod TARGET_WAVES_PER_ENV)
    as (np & -> & Hnp1 & Hnp2); [unfold TARGET_WAVES_PER_ENV; lia|].
  destruct (clusters_to_waves_shaped apps communities Prod TARGET_WAVES_PER_ENV)
    as (p & -> & Hp1 & Hp2); [unfold TARGET_WAVES_PER_ENV; lia|].
  eexists. split; [done|]. by intros [].
Qed.

(** ** Exactly-once assignment, fixed cardinality, independence *)

Lemma NoDup_concat_unique (ws : list (list string)) i j w w' a :
  NoDup (concat ws) → ws !! i = Some w → ws !! j = Some w' → a ∈ w → a ∈ w' → i = j.
Proof.
  revert i j. induction ws as [|w0 ws IH]; intros i j Hnd Hi Hj Ha Ha'; [done|].
  simpl in Hnd. apply NoDup_app in Hnd as (Hw0 & Hdisj & Hnd).
  assert (Hin : ∀ k v, ws !! k = Some v → a ∈ v → a ∈ concat ws).
  { intros k v Hk Hv. apply list_elem_of_In, in_concat. exists v.
    rewrite <- !list_elem_of_In. split; [by eapply list_elem_of_lookup_2|done]. }
  destruct i as [|i], j as [|j]; simpl in *.
  - done.
  - injection Hi as <-. exfalso. eapply Hdisj; [exact Ha|]. by eapply Hin.
  - injection Hj as <-. exfalso. eapply Hdisj; [exact Ha'|]. by eapply Hin.
  - f_equal. by eapply IH.
Qed.

(** C2. After the full pipeline, for every environment: the ids in the
    waves of the environment are exactly the application instances of the
    table that carry the environment's suffix, without duplicates (the ids of
    the table being distinct); each such instance is in exactly one wave; and
    no wave of the environment holds an id without the environment's
    suffix. *)
Theorem pipeline_assigns_exactly_once (apps : list AppRow) (deps : list DepRow)
    (tw : nat) (s : Waves) :
  NoDup (app_ids apps) → 0 < tw → shaped (known apps) tw s →
  ∃ final,
    enforce_constraints apps deps tw s = (OK (), final) ∧
    ∀ env,
      let ws := env_waves env final in
      concat ws ≡ₚ all_env_apps apps env ∧
      NoDup (concat ws) ∧
      (∀ a, a ∈ app_ids apps → endswith a (env_suffix env) = true →
         ∃ i w, ws !! i = Some w ∧ a ∈ w ∧
                ∀ j w', ws !! j = Some w' → a ∈ w' → j = i) ∧
      (∀ w a, w ∈ ws → a ∈ w → endswith a (env_suffix env) = true).
Proof.
  intros Hnd Htw Hs. exists (equalized apps tw).
  split; [by apply enforce_constraints_run|]. intros env ws.
  assert (Hws : ws = balanced apps tw env) by by destruct env.
  assert (Hperm : concat ws ≡ₚ all_env_apps apps env).
  { rewrite Hws, balanced_concat by done. apply risk_order_perm. }
  assert (Hnd' : NoDup (concat ws)).
  { rewrite Hperm. unfold all_env_apps. by apply NoDup_filter. }
  split; [done|]. split; [done|]. split.
  - intros a Ha Hsuf.
    assert (Hin : a ∈ concat ws).
    { rewrite Hperm. unfold all_env_apps. apply list_elem_of_filter.
      split; [by apply Is_true_true|done]. }
    apply list_elem_of_In, in_concat in Hin as (w & Hw & Haw).
    apply list_elem_of_In, list_elem_of_lookup in Hw as [i Hi].
    apply list_elem_of_In in Haw.
    exists i, w. split; [done|]. split; [done|].
    intros j w' Hj Haw'. by eapply (NoDup_concat_unique ws j i).
  - intros w a Hw Ha.
    assert (Hin : a ∈ concat ws).
    { apply list_elem_of_In, in_concat. exists w. by rewrite <- !list_elem_of_In. }
    rewrite Hperm in Hin.
    pose proof (all_env_apps_suffix apps env) as H. rewrite Forall_forall in H. by apply H.
Qed.

(** C3. After the full pipeline every environment has exactly
    [target_waves] waves, whatever the number of applications; an environment
    without applications gets [target_waves] empty waves. *)
Theorem pipeline_keeps_wave_count (apps : list AppRow) (deps : list DepRow)
    (tw : nat) (s : Waves) :
  NoDup (app_ids apps) → 0 < tw → shaped (known apps) tw s →
  ∃ final,
    enforce_constraints apps deps tw s = (OK (), final) ∧
    ∀ env,
      length (env_waves env final) = tw ∧
      (all_env_apps apps env = [] → env_waves env final = replicate tw []).
Proof.
  intros Hnd Htw Hs. exists (equalized apps tw).
  split; [by apply enforce_constraints_run|]. intros env.
  replace (env_waves env (equalized apps tw)) with (balanced apps tw env)
    by by destruct env.
  split; [apply balanced_length|]. intros Hnone. unfold balanced.
  assert (Hr : risk_order apps env = []).
  { apply Permutation_nil_r. rewrite <- Hnone. apply risk_order_perm. }
  rewrite Hr. apply slices_of_nothing.
Qed.

(** C8. The final assignment does not depend on the initial waves, nor on
    the dependency table that drives the repair moves: two runs of the
    pipeline over the same application table, from any two initial
    assignments of [target_waves] waves per environment, return the same
    assignment, the one the equalizer builds from the application table
    alone.  In particular the assignments planned from any two community
    partitions are the same. *)
Theorem final_assignment_ignores_initial_waves (apps : list AppRow)
    (deps1 deps2 : list DepRow) (tw : nat) (s1 s2 : Waves) :
  NoDup (app_ids apps) → 0 < tw →
  shaped (known apps) tw s1 → shaped (known apps) tw s2 →
  (∃ final,
     enforce_constraints apps deps1 tw s1 = (OK (), final) ∧
     enforce_constraints apps deps2 tw s2 = (OK (), final) ∧
     ∀ s, equalize_waves apps tw s = (OK (), final)) ∧
  (∀ communities1 communities2, ∃ waves1 waves2 final,
     build_waves_for_algo apps communities1 = OK waves1 ∧
     build_waves_for_algo apps communities2 = OK waves2 ∧
     enforce_constraints apps deps1 TARGET_WAVES_PER_ENV waves1 = (OK (), final) ∧
     enforce_constraints apps deps2 TARGET_WAVES_PER_ENV waves2 = (OK (), final)).
Proof.
  intros Hnd Htw Hs1 Hs2. split.
  - exists (equalized apps tw). repeat split.
    + by apply enforce_constraints_run.
    + by apply enforce_constraints_run.
    + intros s. by apply equalize_waves_run.
  - intros c1 c2.
    destruct (build_waves_for_algo_shaped apps c1) as (w1 & Hw1 & Hsh1).
    destruct (build_waves_for_algo_shaped apps c2) as (w2 & Hw2 & Hsh2).
    exists w1, w2, (equalized apps TARGET_WAVES_PER_ENV).
    repeat split; try done; apply enforce_constraints_run; try done;
      unfold TARGET_WAVES_PER_ENV; lia.
Qed.

(** ** The final report *)

Lemma inspects_ret {A} (a : A) : inspects (mret a : M A).
Proof. intros s0. by apply triple_ret. Qed.

Lemma inspects_bind {A B} (m : M A) (f : A → M B) :
  inspects m → (∀ a, inspects (f a)) → inspects (m ≫= f).
Proof. intros Hm Hf s0. eapply triple_bind; [apply Hm|]. intros a. apply Hf. Qed.

Lemma inspects_gets {A} (f : Waves → A) : inspects (gets f).
Proof. intros s0. by apply triple_gets. Qed.

Lemma inspects_for_each {A S} (l : list A) (body : A → S → M S) (acc : S) :
  (∀ x acc, x ∈ l → inspects (body x acc)) → inspects (for_each l body acc).
Proof.
  intros Hb s0.
  apply (triple_for_each l body (λ _ s, s = s0)). intros x a Hx. by apply Hb.
Qed.

Lemma inspects_run {A} (m : M A) s : inspects m → ∃ a, m s = (OK a, s).
Proof.
  intros H. specialize (H s s eq_refl).
  destruct (m s) as [[a|e] s']; [subst; by exists a|done].
Qed.

Ltac inspects_step :=
  first
    [ apply inspects_ret | apply inspects_gets
    | apply inspects_for_each; intros
    | apply inspects_bind; [|intros] ].

Lemma for_each_emit {A I} (l : list A) (body : A → list I → M (list I))
    (g : A → list I) acc s :
  (∀ x acc, x ∈ l → body x acc s = (OK (acc ++ g x), s)) →
  for_each l body acc s = (OK (acc ++ concat (map g l)), s).
Proof.
  revert acc. induction l as [|x l IH]; intros acc Hb; simpl.
  - by rewrite app_nil_r.
  - rewrite (bind_run _ _ s (acc ++ g x) s) by (apply Hb; by left).
    rewrite IH by (intros y acc' Hy; apply Hb; by right).
    by rewrite <- app_assoc.
Qed.

Lemma elem_of_enumerate_2 {A} (l : list A) i x : l !! i = Some x → (i, x) ∈ enumerate l.
Proof.
  intros H. unfold enumerate. apply list_elem_of_lookup. exists i.
  apply lookup_zip_Some. split; [|done].
  apply lookup_seq_lt. by eapply lookup_lt_Some.
Qed.

Lemma elem_of_enumerate_1 {A} (l : list A) i x : (i, x) ∈ enumerate l → l !! i = Some x.
Proof.
  unfold enumerate. intros H. apply list_elem_of_lookup in H as [j Hj].
  apply lookup_zip_Some in Hj as [Hj1 Hj2].
  apply lookup_seq in Hj1 as [-> _]. done.
Qed.

Section Final_report.
Context (apps : list AppRow) (deps : list DepRow) (tw : nat).
Hypothesis apps_distinct : NoDup (app_ids apps).

Lemma mission_critical_known a :
  known apps a → mission_critical apps a = Qle_bool 9 (bcp_of apps a).
Proof. intros Ha. unfold mission_critical. by rewrite loc_bcp_known. Qed.

Lemma inspects_check_wave_counts alg issues : inspects (check_wave_counts alg issues).
Proof.
  unfold check_wave_counts, len_env. repeat inspects_step.
  case_decide; inspects_step.
Qed.

Lemma inspects_check_wave_sizes alg acc : inspects (check_wave_sizes alg acc).
Proof.
  unfold check_wave_sizes, read_env. repeat inspects_step.
  destruct x0 as [i w], acc1 as [issues stats]. destruct (_ || _); inspects_step.
Qed.

Lemma inspects_check_exclusivity alg issues : inspects (check_exclusivity alg issues).
Proof.
  unfold check_exclusivity, read_env. repeat inspects_step.
  destruct x0 as [i w]. repeat inspects_step. destruct (negb _); inspects_step.
Qed.

Lemma inspects_check_sequencing idxmap alg issues :
  inspects (check_sequencing apps idxmap alg issues).
Proof. unfold check_sequencing. repeat inspects_step. Qed.

Lemma inspects_check_dependencies idxmap alg issues :
  idxmap_ok (known apps) tw idxmap →
  inspects (check_dependencies apps deps idxmap alg issues).
Proof.
  intros Hok. unfold check_dependencies. apply inspects_for_each. intros r acc _.
  unfold validate_dep.
  destruct (idxmap !! source r) as [[s_env s_idx]|] eqn:Hs; [|inspects_step].
  destruct (idxmap !! target r) as [[t_env t_idx]|] eqn:Ht; [|inspects_step].
  destruct (Hok _ _ _ Hs) as [_ Hk].
  rewrite loc_bcp_known by done.
  intros s0. apply triple_lift_ok. case_decide; [by apply triple_ret|].
  simpl. apply triple_lift_ok. apply triple_lift_ok.
  destruct (_ && _ && _); by apply triple_ret.
Qed.

Lemma check_mission_critical_run alg issues s :
  shaped (known apps) tw s →
  check_mission_critical apps alg issues s = (OK (issues ++ mc_issues apps alg s), s).
Proof.
  intros Hs. unfold check_mission_critical, mc_issues.
  apply for_each_emit. intros env acc _.
  rewrite (bind_run _ _ s (length (env_waves env s)) s) by done.
  rewrite (bind_run _ _ s (env_waves env s) s) by done.
  unfold mc_issues_env. apply for_each_emit. intros [i w] acc1 Hiw.
  unfold mc_issues_wave. simpl. apply for_each_emit. intros a acc2 Ha.
  assert (Hk : known apps a).
  { apply elem_of_enumerate_1 in Hiw.
    pose proof (shaped_lookup _ _ _ _ _ _ Hs Hiw) as Hw.
    rewrite Forall_forall in Hw. by apply Hw. }
  unfold mc_issue_of. rewrite mission_critical_known by done.
  rewrite loc_bcp_known by done. unfold mbind, M_bind, lift, edge_wave. simpl.
  destruct (_ && _); [done|]. by rewrite app_nil_r.
Qed.

Lemma mc_issues_elem alg s env i w a :
  env_waves env s !! i = Some w → a ∈ w →
  mission_critical apps a = true → edge_wave (length (env_waves env s)) i = true →
  mission_critical_edge_wave alg env i a ∈ mc_issues apps alg s.
Proof.
  intros Hw Ha Hmc Hedge. unfold mc_issues.
  apply list_elem_of_In, in_concat. exists (mc_issues_env apps alg s env). split.
  { apply in_map. destruct env; simpl; auto. }
  unfold mc_issues_env. apply in_concat.
  exists (mc_issues_wave apps alg env (length (env_waves env s)) (i, w)). split.
  { apply in_map, list_elem_of_In. by apply elem_of_enumerate_2. }
  unfold mc_issues_wave. simpl. apply in_concat.
  exists (mc_issue_of apps alg env (length (env_waves env s)) i a). split.
  { apply in_map. by apply list_elem_of_In. }
  unfold mc_issue_of. rewrite Hmc, Hedge. by left.
Qed.

Lemma validate_waves_run alg s :
  shaped (known apps) tw s →
  ∃ issues stats,
    validate_waves apps deps alg s = (OK (issues ++ mc_issues apps alg s, stats), s).
Proof.
  intros Hs. unfold validate_waves.
  rewrite (bind_run _ _ s (wave_index_map s) s) by done.
  destruct (inspects_run _ s (inspects_check_wave_counts alg [])) as [i1 H1].
  rewrite (bind_run _ _ _ _ _ H1).
  destruct (inspects_run _ s (inspects_check_wave_sizes alg (i1, []))) as [[i2 stats] H2].
  rewrite (bind_run _ _ _ _ _ H2).
  destruct (inspects_run _ s (inspects_check_exclusivity alg i2)) as [i3 H3].
  rewrite (bind_run _ _ _ _ _ H3).
  destruct (inspects_run _ s (inspects_check_sequencing (wave_index_map s) alg i3))
    as [i4 H4].
  rewrite (bind_run _ _ _ _ _ H4).
  destruct (inspects_run _ s
              (inspects_check_dependencies (wave_index_map s) alg i4
                 (wave_index_map_ok _ _ _ Hs))) as [i5 H5].
  rewrite (bind_run _ _ _ _ _ H5).
  rewrite (bind_run _ _ _ _ _ (check_mission_critical_run alg i5 s Hs)).
  by exists i5, stats.
Qed.

End Final_report.

Lemma slice_waves_first sizes l :
  slice_waves sizes 0 l !! 0 = (λ s0, take s0 l) <$> sizes !! 0.
Proof. destruct sizes as [|s0 r]; [done|]. simpl. by rewrite drop_0. Qed.

Lemma balanced_first_wave (apps : list AppRow) tw env b rest :
  0 < tw → risk_order apps env = b :: rest →
  ∃ w, balanced apps tw env !! 0 = Some w ∧ b ∈ w.
Proof.
  intros Htw Hl. unfold balanced. rewrite Hl.
  set (total := length (b :: rest)).
  assert (Htotal : 0 < total) by (unfold total; simpl; lia).
  pose proof (Nat.div_mod_eq total tw) as Hdm.
  rewrite slice_waves_first, wave_sizes_lookup by done.
  eexists. split; [done|].
  destruct (Nat.ltb_spec 0 (total mod tw)).
  - rewrite Nat.add_1_r. rewrite firstn_cons. by left.
  - destruct (total / tw) as [|base] eqn:Hbase; [lia|]. rewrite firstn_cons. by left.
Qed.

(** C9. When an environment has an application with BCP score at least 9,
    the report of the validation that follows the full pipeline has a
    [mission_critical_edge_wave] issue for that environment: the equalizer
    puts an application of the highest score, which is at least 9, into wave
    0, and the validator flags it there. *)
Theorem final_report_flags_mission_critical (apps : list AppRow) (deps : list DepRow)
    (tw : nat) (s : Waves) (alg : string) (env : Env) (a : string) :
  NoDup (app_ids apps) → 0 < tw → shaped (known apps) tw s →
  a ∈ app_ids apps → endswith a (env_suffix env) = true → (9 <= bcp_of apps a)%Q →
  ∃ final issues stats,
    (enforce_constraints apps deps tw;; validate_waves apps deps alg) s
      = (OK (issues, stats), final) ∧
    ∃ b w, env_waves env final !! 0 = Some w ∧ b ∈ w ∧ (9 <= bcp_of apps b)%Q ∧
           mission_critical_edge_wave alg env 0 b ∈ issues.
Proof.
  intros Hnd Htw Hs Ha Hsuf Hbcp.
  assert (Hin : a ∈ risk_order apps env).
  { rewrite risk_order_perm. unfold all_env_apps. apply list_elem_of_filter.
    split; [by apply Is_true_true|done]. }
  destruct (risk_order apps env) as [|b rest] eqn:Hl; [by apply elem_of_nil in Hin|].
  assert (Hb : (9 <= bcp_of apps b)%Q).
  { pose proof (risk_order_sorted apps env) as Hsorted. rewrite Hl in Hsorted.
    apply StronglySorted_inv in Hsorted as [_ Hall].
    apply elem_of_cons in Hin as [->|Hin]; [done|].
    rewrite Forall_forall in Hall. eapply Qle_trans; [exact Hbcp|]. by apply Hall. }
  destruct (balanced_first_wave apps tw env b rest Htw Hl) as (w & Hw & Hbw).
  assert (Hfinal : env_waves env (equalized apps tw) !! 0 = Some w) by by destruct env.
  pose proof (equalized_shaped apps tw Htw) as Hshaped.
  destruct (validate_waves_run apps deps tw Hnd alg _ Hshaped) as (issues & stats & Hv).
  exists (equalized apps tw), (issues ++ mc_issues apps alg (equalized apps tw)), stats.
  split.
  { rewrite (bind_run _ _ s () (equalized apps tw)); [done|].
    by apply enforce_constraints_run. }
  exists b, w. repeat split; try done.
  apply elem_of_app. right. eapply mc_issues_elem; try done.
  rewrite mission_critical_known; try done.
  - by apply Qle_bool_iff.
  - pose proof (shaped_lookup _ _ _ _ _ _ Hshaped Hfinal) as Hk.
    rewrite Forall_forall in Hk. by apply Hk.
Qed.

(** ** The run of the script for one algorithm *)

(** no community at all: the distributor returns empty waves *)
Lemma clusters_to_waves_empty (apps : list AppRow) env tw :
  clusters_to_waves apps [] env tw = OK (replicate tw []).
Proof. reflexivity. Qed.

(** X9. The run of the script for one algorithm: for every community
    partition and every dependency table, when the ids of the application
    table are distinct, the distributor, both calls of [enforce_constraints]
    and the validator return without an exception, and the assignment that is
    saved is the one the equalizer builds for 8 waves. *)
Lemma plan_algorithm_run (apps : list AppRow) (deps : list DepRow) communities alg :
  NoDup (app_ids apps) →
  ∃ issues stats,
    plan_algorithm apps deps communities alg
    = OK (OK (issues, stats), equalized apps TARGET_WAVES_PER_ENV).
Proof.
  intros Hnd. unfold plan_algorithm.
  destruct (build_waves_for_algo_shaped apps communities) as (w & -> & Hsh).
  assert (Htw : 0 < TARGET_WAVES_PER_ENV) by (unfold TARGET_WAVES_PER_ENV; lia).
  pose proof (equalized_shaped apps _ Htw) as Heq.
  destruct (validate_waves_run apps deps _ Hnd alg _ Heq) as (issues & stats & Hv).
  eexists _, _. simpl. do 2 f_equal.
  rewrite (bind_run _ _ _ () (equalized apps TARGET_WAVES_PER_ENV))
    by by apply enforce_constraints_run.
  rewrite (bind_run _ _ _ () (equalized apps TARGET_WAVES_PER_ENV))
    by by apply enforce_constraints_run.
  exact Hv.
Qed.

(** ** Rule 1 on the scenario of one base application *)

(** C4. The sequencing rule of the repair pass, run on one base application
    whose nonprod and prod instances are both in wave 0: the rule selects the
    prod instances with [endswith('prod')], which the nonprod id also
    satisfies, so it appends the nonprod instance to wave 1 of the prod
    waves together with the prod instance.  In the wave-index map of the
    result both instances have index 1 in 'prod', and the validator reports
    [nonprod_not_before_prod] and an [env_exclusivity_violation] on it: the
    rule does not move only the prod instances, and the prod instance's wave
    index does not exceed the nonprod instance's.  The 40 passes of the
    repair loop and the corrective pass repeat the move: at their end both
    instances have index 7 in 'prod'. *)
Theorem sequencing_rule_moves_nonprod_into_prod_wave :
  sequencing_rule scenario_apps (wave_index_map scenario_waves) 8 false scenario_waves
    = (OK true, scenario_after_rule1)
  ∧ repair_pass scenario_apps [] 8 scenario_waves = (OK true, scenario_after_rule1)
  ∧ wave_index_map scenario_after_rule1 !! "APP_001-nonprod" = Some (Prod, 1)
  ∧ wave_index_map scenario_after_rule1 !! "APP_001-prod" = Some (Prod, 1)
  ∧ (∃ issues stats,
       validate_waves scenario_apps [] "louvain" scenario_after_rule1
         = (OK (issues, stats), scenario_after_rule1)
       ∧ nonprod_not_before_prod "louvain" "APP_001" 1 1 ∈ issues
       ∧ env_exclusivity_violation "louvain" Prod 1 "APP_001-nonprod" ∈ issues)
  ∧ (let repaired :=
       snd ((repair_loop scenario_apps [] 8 40;;
             fix_nonprod_prod_order scenario_apps 8 40) scenario_waves) in
     wave_index_map repaired !! "APP_001-nonprod" = Some (Prod, 7)
     ∧ wave_index_map repaired !! "APP_001-prod" = Some (Prod, 7)).
Proof.
  split; [by vm_compute|]. split; [by vm_compute|].
  split; [by vm_compute|]. split; [by vm_compute|].
  split; [|by vm_compute].
  eexists _, _. split; [by vm_compute|].
  split; repeat first [apply list_elem_of_here | apply list_elem_of_further].
Qed.

(** ** The theorems on the example data *)

Lemma example_apps_distinct : NoDup (app_ids example_apps).
Proof. apply (bool_decide_unpack _). vm_compute. exact I. Defined.

Lemma example_waves_shaped : shaped (known example_apps) 8 example_waves.
Proof.
  intros []; (split; [reflexivity|]); unfold known;
    apply (bool_decide_unpack _); vm_compute; exact I.
Defined.

Lemma example_waves_alt_shaped : shaped (known example_apps) 8 example_waves_alt.
Proof.
  intros []; (split; [reflexivity|]); unfold known;
    apply (bool_decide_unpack _); vm_compute; exact I.
Defined.

Lemma equalizer_sorts_and_slices_witness :
  NoDup (app_ids example_apps) ∧ 0 < 8 ∧
  ∃ s', equalize_waves example_apps 8 example_waves = (OK (), s') ∧
    ∀ env,
      let ws := env_waves env s' in
      let ids := all_env_apps example_apps env in
      let total := length ids in
      concat ws ≡ₚ ids ∧
      StronglySorted (bcp_ge example_apps) (concat ws) ∧
      (∀ q, with_score example_apps q (concat ws) = with_score example_apps q ids) ∧
      length ws = 8 ∧
      map length ws
        = replicate (total mod 8) (ceil_div total 8)
            ++ replicate (8 - total mod 8) (total / 8) ∧
      (∀ i w, ws !! i = Some w →
         length w = if decide (i < total mod 8) then ceil_div total 8 else total / 8) ∧
      (8 = 8 → total = 40 → map length ws = [5; 5; 5; 5; 5; 5; 5; 5]) ∧
      (8 = 8 → total = 42 → map length ws = [6; 6; 5; 5; 5; 5; 5; 5]).
Proof.
  split; [exact example_apps_distinct|]. split; [lia|].
  apply (equalizer_sorts_and_slices example_apps 8 example_waves);
    [exact example_apps_distinct|lia].
Defined.

Lemma pipeline_assigns_exactly_once_witness :
  NoDup (app_ids example_apps) ∧ 0 < 8 ∧ shaped (known example_apps) 8 example_waves ∧
  ∃ final,
    enforce_constraints example_apps example_deps 8 example_waves = (OK (), final) ∧
    ∀ env,
      let ws := env_waves env final in
      concat ws ≡ₚ all_env_apps example_apps env ∧
      NoDup (concat ws) ∧
      (∀ a, a ∈ app_ids example_apps → endswith a (env_suffix env) = true →
         ∃ i w, ws !! i = Some w ∧ a ∈ w ∧
                ∀ j w', ws !! j = Some w' → a ∈ w' → j = i) ∧
      (∀ w a, w ∈ ws → a ∈ w → endswith a (env_suffix env) = true).
Proof.
  split; [exact example_apps_distinct|]. split; [lia|].
  split; [exact example_waves_shaped|].
  apply (pipeline_assigns_exactly_once example_apps example_deps 8 example_waves);
    [exact example_apps_distinct|lia|exact example_waves_shaped].
Defined.

Lemma pipeline_keeps_wave_count_witness :
  NoDup (app_ids example_apps) ∧ 0 < 8 ∧ shaped (known example_apps) 8 example_waves ∧
  ∃ final,
    enforce_constraints example_apps example_deps 8 example_waves = (OK (), final) ∧
    ∀ env,
      length (env_waves env final) = 8 ∧
      (all_env_apps example_apps env = [] → env_waves env final = replicate 8 []).
Proof.
  split; [exact example_apps_distinct|]. split; [lia|].
  split; [exact example_waves_shaped|].
  apply (pipeline_keeps_wave_count example_apps example_deps 8 example_waves);
    [exact example_apps_distinct|lia|exact example_waves_shaped].
Defined.

Lemma final_assignment_ignores_initial_waves_witness :
  NoDup (app_ids example_apps) ∧ 0 < 8 ∧
  shaped (known example_apps) 8 example_waves ∧
  shaped (known example_apps) 8 example_waves_alt ∧
  (∃ final,
     enforce_constraints example_apps example_deps 8 example_waves = (OK (), final) ∧
     enforce_constraints example_apps [] 8 example_waves_alt = (OK (), final) ∧
     ∀ s, equalize_waves example_apps 8 s = (OK (), final)) ∧
  (∀ communities1 communities2, ∃ waves1 waves2 final,
     build_waves_for_algo example_apps communities1 = OK waves1 ∧
     build_waves_for_algo example_apps communities2 = OK waves2 ∧
     enforce_constraints example_apps example_deps TARGET_WAVES_PER_ENV waves1
       = (OK (), final) ∧
     enforce_constraints example_apps [] TARGET_WAVES_PER_ENV waves2 = (OK (), final)).
Proof.
  split; [exact example_apps_distinct|]. split; [lia|].
  split; [exact example_waves_shaped|]. split; [exact example_waves_alt_shaped|].
  apply (final_assignment_ignores_initial_waves example_apps example_deps [] 8
           example_waves example_waves_alt);
    [exact example_apps_distinct|lia|exact example_waves_shaped
    |exact example_waves_alt_shaped].
Defined.

Lemma final_report_flags_mission_critical_witness :
  NoDup (app_ids example_apps) ∧ 0 < 8 ∧ shaped (known example_apps) 8 example_waves ∧
  "APP_001-prod" ∈ app_ids example_apps ∧
  endswith "APP_001-prod" (env_suffix Prod) = true ∧
  (9 <= bcp_of example_apps "APP_001-prod")%Q ∧
  ∃ final issues stats,
    (enforce_constraints example_apps example_deps 8;;
     validate_waves example_apps example_deps "louvain") example_waves
      = (OK (issues, stats), final) ∧
    ∃ b w, env_waves Prod final !! 0 = Some w ∧ b ∈ w ∧ (9 <= bcp_of example_apps b)%Q ∧
           mission_critical_edge_wave "louvain" Prod 0 b ∈ issues.
Proof.
  assert (Hin : "APP_001-prod" ∈ app_ids example_apps)
    by (apply (bool_decide_unpack _); vm_compute; exact I).
  assert (Hbcp : (9 <= bcp_of example_apps "APP_001-prod")%Q)
    by (apply Qle_bool_iff; vm_compute; reflexivity).
  split; [exact example_apps_distinct|]. split; [lia|].
  split; [exact example_waves_shaped|]. split; [exact Hin|].
  split; [reflexivity|]. split; [exact Hbcp|].
  apply (final_report_flags_mission_critical example_apps example_deps 8 example_waves
           "louvain" Prod "APP_001-prod");
    [exact example_apps_distinct|lia|exact example_waves_shaped|exact Hin
    |reflexivity|exact Hbcp].
Defined.

Lemma mission_critical_rule_moves_to_middle_witness :
  2 < length (env_waves Nonprod example_waves) ∧
  let ws := env_waves Nonprod example_waves in
  let N := length ws in
  let first_wave := default [] (ws !! 0) in
  let last_wave := default [] (ws !! (N - 1)) in
  ∃ changed' s',
    mission_critical_rule example_apps Nonprod false example_waves = (OK changed', s') ∧
    let ws' := env_waves Nonprod s' in
    length ws' = N ∧
    ws' !! 0 = Some (filter (λ a, ¬ mission_critical example_apps a) first_wave) ∧
    ws' !! (N - 1) = Some (filter (λ a, ¬ mission_critical example_apps a) last_wave) ∧
    ws' !! middle_wave N
      = (λ m, m ++ filter (λ a, mission_critical example_apps a) first_wave
                ++ filter (λ a, mission_critical example_apps a) last_wave)
          <$> ws !! middle_wave N ∧
    (∀ i, i ≠ 0 → i ≠ N - 1 → i ≠ middle_wave N → ws' !! i = ws !! i) ∧
    (∀ e, e ≠ Nonprod → env_waves e s' = env_waves e example_waves) ∧
    middle_wave N = (N / 4 + ceil_div (3 * N) 4 - 1) / 2 ∧
    (N = 8 → middle_wave N = 3) ∧
    (∀ a w, mission_critical example_apps a →
            ws' !! 0 = Some w ∨ ws' !! (N - 1) = Some w → a ∉ w).
Proof.
  assert (H : 2 < length (env_waves Nonprod example_waves)) by (vm_compute; lia).
  split; [exact H|].
  exact (mission_critical_rule_moves_to_middle example_apps Nonprod false example_waves H).
Defined.

Lemma absent_edge_is_skipped_witness :
  (wave_index_map example_waves !! source example_server_edge = None
   ∨ wave_index_map example_waves !! target example_server_edge = None) ∧
  (∀ alg issues s,
     validate_dep example_apps (wave_index_map example_waves) alg example_server_edge
       issues s = (OK issues, s)) ∧
  (∀ tw changed s,
     repair_dep example_apps (wave_index_map example_waves) tw example_server_edge
       changed s = (OK changed, s)) ∧
  (∀ alg, validate_waves example_apps ([] ++ example_server_edge :: example_other_edges)
            alg example_waves
          = validate_waves example_apps ([] ++ example_other_edges) alg example_waves) ∧
  (∀ tw, repair_pass example_apps ([] ++ example_server_edge :: example_other_edges) tw
           example_waves
         = repair_pass example_apps ([] ++ example_other_edges) tw example_waves).
Proof.
  assert (H : wave_index_map example_waves !! source example_server_edge = None
              ∨ wave_index_map example_waves !! target example_server_edge = None)
    by (right; vm_compute; reflexivity).
  split; [exact H|].
  exact (absent_edge_is_skipped example_apps [] example_other_edges example_server_edge
           example_waves H).
Defined.

Lemma sequencing_issues_come_in_pairs_witness :
  validate_waves scenario_apps [] "louvain" scenario_waves
    = (OK (fst scenario_report, snd scenario_report), scenario_waves) ∧
  ∀ base,
    (∃ np p, nonprod_not_before_prod "louvain" base np p ∈ fst scenario_report) ↔
    (∃ gap, nonprod_production_gap_too_small "louvain" base gap ∈ fst scenario_report).
Proof.
  assert (H : validate_waves scenario_apps [] "louvain" scenario_waves
              = (OK (fst scenario_report, snd scenario_report), scenario_waves))
    by (vm_compute; reflexivity).
  split; [exact H|].
  exact (sequencing_issues_come_in_pairs scenario_apps [] "louvain" scenario_waves
           (fst scenario_report) (snd scenario_report) scenario_waves H).
Defined.

(** * Further properties of the scripts *)

(** ** Suffix tests on instance ids *)

Lemma string_length_app (p s : string) :
  String.length (p +:+ s) = String.length p + String.length s.
Proof. induction p as [|c p IH]; simpl; [done|]. by rewrite IH. Qed.

Lemma substring_whole (s : string) : String.substring 0 (String.length s) s = s.
Proof. induction s as [|c s IH]; simpl; [done|]. by rewrite IH. Qed.

Lemma substring_skip (p s : string) m :
  String.substring (String.length p) m (p +:+ s) = String.substring 0 m s.
Proof. induction p as [|c p IH]; simpl; [done|]. exact IH. Qed.

Lemma substring_split (s : string) k :
  k ≤ String.length s →
  s = String.substring 0 k s +:+ String.substring k (String.length s - k) s.
Proof.
  revert k. induction s as [|c s IH]; intros k Hk; simpl in *.
  - by destruct k.
  - destruct k as [|k]; simpl.
    + by rewrite substring_whole.
    + change (String c s = String c (String.substring 0 k s
                +:+ String.substring k (String.length s - k) s)).
      f_equal. apply IH. lia.
Qed.

Lemma endswith_app (p suf : string) : endswith (p +:+ suf) suf = true.
Proof.
  unfold endswith. rewrite string_length_app.
  replace (String.length p + String.length suf - String.length suf)
    with (String.length p) by lia.
  rewrite substring_skip, substring_whole, String.eqb_refl.
  rewrite andb_true_r. apply Nat.leb_le. lia.
Qed.

Lemma endswith_inv (s suf : string) : endswith s suf = true → ∃ p, s = p +:+ suf.
Proof.
  unfold endswith. intros H. apply andb_true_iff in H as [Hlen Heq].
  apply Nat.leb_le in Hlen. apply String.eqb_eq in Heq.
  exists (String.substring 0 (String.length s - String.length suf) s).
  pose proof (substring_split s (String.length s - String.length suf)) as Hs.
  replace (String.length s - (String.length s - String.length suf))
    with (String.length suf) in Hs by lia.
  rewrite Heq in Hs. apply Hs. lia.
Qed.

Lemma string_app_assoc (a b c : string) : (a +:+ b) +:+ c = a +:+ (b +:+ c).
Proof.
  induction a as [|x a IH]; [done|].
  change (String x ((a +:+ b) +:+ c) = String x (a +:+ (b +:+ c))). by rewrite IH.
Qed.

Lemma string_app_suffix_inj (p q u v : string) :
  String.length u = String.length v → p +:+ u = q +:+ v → u = v.
Proof.
  revert q. induction p as [|c p IH]; intros q Hlen Heq; destruct q as [|d q].
  - exact Heq.
  - apply (f_equal String.length) in Heq.
    rewrite !string_length_app in Heq. simpl in Heq. lia.
  - apply (f_equal String.length) in Heq.
    rewrite !string_length_app in Heq. simpl in Heq. lia.
  - change (String c (p +:+ u) = String d (q +:+ v)) in Heq.
    injection Heq as _ Heq. by eapply IH.
Qed.

Lemma endswith_longer (s u v : string) :
  endswith s (u +:+ v) = true → endswith s v = true.
Proof.
  intros H. apply endswith_inv in H as [p ->].
  rewrite <- string_app_assoc. apply endswith_app.
Qed.

Lemma endswith_conflict (s u v : string) :
  String.length u = String.length v → u ≠ v →
  endswith s u = true → endswith s v = false.
Proof.
  intros Hlen Hne Hu. destruct (endswith s v) eqn:Hv; [|done].
  apply endswith_inv in Hu as [p ->]. apply endswith_inv in Hv as [q Hq].
  exfalso. apply Hne. by eapply string_app_suffix_inj.
Qed.

(** X1. The suffix tests of the two functions.  The validator selects the
    instances of a base application with ['-nonprod'] and ['-prod']: no id
    passes both tests, so the instance lists of the two environments are
    disjoint.  The repair rules select them with ['nonprod'] and ['prod']:
    every id that passes the validator's nonprod test, and every id selected
    as nonprod by the repair rule that carries the hyphen, passes the repair
    rule's prod test too, so the repair rule's prod list contains the
    nonprod instances. *)
Theorem env_suffix_tests (a : string) :
  (endswith a (env_suffix Nonprod) = true → endswith a (env_suffix Prod) = false) ∧
  (endswith a (env_suffix Prod) = true → endswith a (env_suffix Nonprod) = false) ∧
  (endswith a (env_suffix Nonprod) = true → endswith a "nonprod" = true) ∧
  (endswith a "nonprod" = true → endswith a "prod" = true) ∧
  (endswith a (env_suffix Prod) = true → endswith a "nonprod" = false) ∧
  ∀ base, endswith (base +:+ "-" +:+ env_name Nonprod) "prod" = true.
Proof.
  change (env_suffix Nonprod) with ("-no" +:+ "nprod").
  change (env_suffix Prod) with "-prod".
  split; [|split; [|split; [|split; [|split]]]].
  - intros H. apply endswith_longer in H.
    by apply (endswith_conflict a "nprod" "-prod").
  - intros H. destruct (endswith a ("-no" +:+ "nprod")) eqn:Hn; [|done].
    apply endswith_longer in Hn.
    by rewrite (endswith_conflict a "-prod" "nprod") in Hn.
  - apply (endswith_longer a "-" "nonprod").
  - apply (endswith_longer a "non" "prod").
  - intros H. destruct (endswith a "nonprod") eqn:Hn; [|done].
    apply (endswith_longer a "no" "nprod") in Hn.
    by rewrite (endswith_conflict a "-prod" "nprod") in Hn.
  - intros base. apply (endswith_longer _ "-non" "prod").
    rewrite ?string_app_assoc. exact (endswith_app base "-nonprod").
Qed.

(** ** The wave distributor *)

Lemma concat_filter_nonempty {A} (L : list (list A)) :
  concat (filter (λ l, l ≠ []) L) = concat L.
Proof.
  induction L as [|l L IH]; [done|]. rewrite filter_cons. case_decide as Hl; simpl.
  - by rewrite IH.
  - by rewrite IH, Hl.
Qed.

Lemma clusters_flattened (apps : list AppRow) clusters env :
  concat (filter (λ members_env, members_env ≠ [])
            (map (λ '(com_id, members),
                    filter (λ m, m ∈ app_ids apps ∧ endswith m (env_suffix env)) members)
                 clusters))
  = env_members apps clusters env.
Proof.
  rewrite concat_filter_nonempty. unfold env_members. f_equal.
  apply map_ext. by intros [c members].
Qed.

(** X2. For a positive wave count the distributor returns exactly
    [target_waves] waves whose concatenation is the list of the environment's
    application members in the order of the partition (so the members of one
    community stay adjacent); the first [total mod N] waves have
    [ceil(total/N)] ids and the others [floor(total/N)]. *)
Theorem distributor_slices_communities (apps : list AppRow)
    (clusters : list (string * list string)) (env : Env) (tw : nat) :
  0 < tw →
  ∃ ws,
    clusters_to_waves apps clusters env tw = OK ws ∧
    length ws = tw ∧
    concat ws = env_members apps clusters env ∧
    map length ws
      = replicate (length (env_members apps clusters env) mod tw)
          (ceil_div (length (env_members apps clusters env)) tw)
        ++ replicate (tw - length (env_members apps clusters env) mod tw)
             (length (env_members apps clusters env) / tw).
Proof.
  intros Htw. unfold clusters_to_waves. rewrite clusters_flattened.
  set (flat := env_members apps clusters env). set (total := length flat).
  assert (Hrem : total mod tw < tw) by (apply Nat.mod_upper_bound; lia).
  pose proof (Nat.div_mod_eq total tw) as Hdm.
  assert (Hsplit : wave_sizes (total / tw) (total mod tw) tw
                   = replicate (total mod tw) (ceil_div total tw)
                     ++ replicate (tw - total mod tw) (total / tw)).
  { rewrite wave_sizes_split by lia.
    destruct (decide (total mod tw = 0)) as [->|Hpos]; [done|].
    by rewrite ceil_div_rem by lia. }
  destruct (Nat.eqb_spec total 0) as [H0|H0].
  - eexists. split; [done|]. rewrite length_replicate. split; [done|].
    rewrite <- Hsplit, H0, Nat.Div0.div_0_l, Nat.Div0.mod_0_l.
    apply nil_length_inv in H0. rewrite H0.
    rewrite <- (slices_of_nothing 0 0 tw). split.
    + by rewrite slice_waves_concat, drop_0, take_nil.
    + rewrite slice_waves_sizes; [done|]. rewrite wave_sizes_sum by lia. simpl. lia.
  - destruct (Nat.eqb_spec tw 0); [lia|].
    rewrite wave_sizes_sum by lia.
    destruct (Nat.ltb_spec (total / tw * tw + total mod tw) total); [lia|].
    eexists. split; [done|]. rewrite slice_waves_length, wave_sizes_length.
    split; [done|]. split.
    + rewrite slice_waves_concat, wave_sizes_sum, drop_0 by lia.
      apply take_ge. fold total. lia.
    + rewrite slice_waves_sizes; [done|]. rewrite wave_sizes_sum by lia. fold total. lia.
Qed.

(** X3. With [target_waves = 0] the distributor returns the empty list of
    waves when the environment has no application member in the partition,
    and raises ZeroDivisionError as soon as it has one. *)
Theorem distributor_without_waves (apps : list AppRow)
    (clusters : list (string * list string)) (env : Env) :
  clusters_to_waves apps clusters env 0
  = if decide (env_members apps clusters env = []) then OK []
    else Raise ZeroDivisionError.
Proof.
  unfold clusters_to_waves. rewrite clusters_flattened.
  destruct (env_members apps clusters env) as [|a l]; done.
Qed.

(** ** The wave-index map *)

Lemma index_wave_in env i w m a :
  a ∈ w → index_wave env i w m !! a = Some (env, i).
Proof.
  unfold index_wave. revert m. induction w as [|x w IH]; intros m Ha; simpl.
  - by apply elem_of_nil in Ha.
  - destruct (decide (a ∈ w)) as [Hw|Hw]; [by apply IH|].
    apply elem_of_cons in Ha as [->|Ha]; [|done].
    clear IH. revert m. induction w as [|y w IH]; intros m; simpl.
    + apply lookup_insert_eq.
    + apply not_elem_of_cons in Hw as [Hne Hw].
      rewrite insert_insert_ne by done. by apply IH.
Qed.

Lemma index_wave_notin env i w m a :
  a ∉ w → index_wave env i w m !! a = m !! a.
Proof.
  unfold index_wave. revert m. induction w as [|x w IH]; intros m Ha; simpl; [done|].
  apply not_elem_of_cons in Ha as [Hne Ha]. rewrite IH by done.
  by apply lookup_insert_ne.
Qed.

Lemma index_waves_notin env i wl m a :
  (∀ j w, wl !! j = Some w → a ∉ w) → index_waves env i wl m !! a = m !! a.
Proof.
  revert i m. induction wl as [|w wl IH]; intros i m H; simpl; [done|].
  rewrite IH by (intros j w' Hj; apply (H (S j) w' Hj)).
  apply index_wave_notin. by apply (H 0 w).
Qed.

Lemma elem_of_concat_lookup (wl : list (list string)) a :
  a ∈ concat wl ↔ ∃ j w, wl !! j = Some w ∧ a ∈ w.
Proof.
  rewrite list_elem_of_In, in_concat. split.
  - intros (w & Hw & Ha). apply list_elem_of_In, list_elem_of_lookup in Hw as [j Hj].
    exists j, w. by rewrite list_elem_of_In.
  - intros (j & w & Hj & Ha). exists w. rewrite <- !list_elem_of_In.
    split; [by eapply list_elem_of_lookup_2|done].
Qed.

Lemma index_waves_in env i wl m a :
  (∃ j w, wl !! j = Some w ∧ a ∈ w) →
  ∃ j w, index_waves env i wl m !! a = Some (env, i + j) ∧ wl !! j = Some w ∧ a ∈ w.
Proof.
  revert i m. induction wl as [|w wl IH]; intros i m (j & w' & Hj & Ha); [done|].
  simpl. destruct (decide (a ∈ concat wl)) as [Hlater|Hnot];
    rewrite elem_of_concat_lookup in *.
  - destruct (IH (S i) (index_wave env i w m) Hlater) as (k & v & Hk & Hv & Hav).
    exists (S k), v. split; [|done]. rewrite Hk. f_equal. f_equal. lia.
  - assert (Hno : ∀ j w, wl !! j = Some w → a ∉ w).
    { intros k v Hk Hav. apply Hnot. by exists k, v. }
    destruct j as [|j]; [|by destruct (Hno j w' Hj)].
    injection Hj as ->. exists 0, w'. rewrite index_waves_notin by done.
    rewrite index_wave_in by done. split; [|done]. f_equal. f_equal. lia.
Qed.

Lemma wave_position (s : Waves) env i w :
  env_waves env s !! i = Some w →
  (nonprod s ++ prod s) !! (match env with Nonprod => i | Prod => length (nonprod s) + i end)
  = Some w.
Proof.
  destruct env; simpl; intros H.
  - rewrite lookup_app_l; [done|]. by eapply lookup_lt_Some.
  - rewrite lookup_app_r by lia. by replace (length (nonprod s) + i - length (nonprod s)) with i by lia.
Qed.

(** an id of a wave has an entry *)
Lemma wave_index_map_some (s : Waves) a env i w :
  env_waves env s !! i = Some w → a ∈ w →
  ∃ env' i', wave_index_map s !! a = Some (env', i').
Proof.
  intros Hw Ha. unfold wave_index_map.
  destruct (decide (a ∈ concat (prod s))) as [Hp|Hp].
  - apply elem_of_concat_lookup in Hp.
    destruct (index_waves_in Prod 0 (prod s) (index_waves Nonprod 0 (nonprod s) ∅) a Hp)
      as (j & v & Hj & _). eauto.
  - rewrite index_waves_notin.
    2:{ intros j v Hj Hv. apply Hp, elem_of_concat_lookup. eauto. }
    destruct env; simpl in Hw.
    + destruct (index_waves_in Nonprod 0 (nonprod s) ∅ a) as (j & v & Hj & _); eauto.
    + destruct Hp. apply elem_of_concat_lookup. eauto.
Qed.

(** when no id is twice in the waves, the entry of an id is its position *)
Lemma wave_index_map_position (s : Waves) a env i w :
  NoDup (concat (nonprod s) ++ concat (prod s)) →
  env_waves env s !! i = Some w → a ∈ w →
  wave_index_map s !! a = Some (env, i).
Proof.
  intros Hnd Hw Ha.
  destruct (wave_index_map_some s a env i w Hw Ha) as (env' & i' & H). rewrite H.
  apply wave_index_map_lookup in H as (w' & Hw' & Ha').
  rewrite <- concat_app in Hnd.
  pose proof (NoDup_concat_unique _ _ _ _ _ a Hnd
                (wave_position s env i w Hw) (wave_position s env' i' w' Hw') Ha Ha') as Heq.
  apply lookup_lt_Some in Hw, Hw'.
  destruct env, env'; simpl in *; first [by (do 2 f_equal; lia) | lia].
Qed.

(** X4. The wave-index map has an entry exactly for the ids that are in
    some wave; an entry (env, i) points at a wave that holds the id; an id
    that is in a prod wave gets a prod entry, even when it is in a nonprod
    wave as well (the prod waves are indexed last); and when every id occurs
    once in the whole assignment, the entry of an id is the environment and
    index of its wave. *)
Theorem wave_index_map_entries (s : Waves) (a : string) :
  (is_Some (wave_index_map s !! a) ↔
     ∃ env i w, env_waves env s !! i = Some w ∧ a ∈ w) ∧
  (∀ env i, wave_index_map s !! a = Some (env, i) →
     ∃ w, env_waves env s !! i = Some w ∧ a ∈ w) ∧
  (a ∈ concat (prod s) → ∃ i, wave_index_map s !! a = Some (Prod, i)) ∧
  (NoDup (concat (nonprod s) ++ concat (prod s)) →
     ∀ env i w, env_waves env s !! i = Some w → a ∈ w →
       wave_index_map s !! a = Some (env, i)).
Proof.
  split; [|split; [|split]].
  - split.
    + intros [[env i] H]. apply wave_index_map_lookup in H as (w & Hw & Ha). eauto.
    + intros (env & i & w & Hw & Ha).
      destruct (wave_index_map_some s a env i w Hw Ha) as (env' & i' & H). by rewrite H.
  - intros env i. apply wave_index_map_lookup.
  - intros Hp. apply elem_of_concat_lookup in Hp. unfold wave_index_map.
    destruct (index_waves_in Prod 0 (prod s) (index_waves Nonprod 0 (nonprod s) ∅) a Hp)
      as (j & v & Hj & _). eauto.
  - intros Hnd env i w. by apply wave_index_map_position.
Qed.

(** ** Rule 2 never loses an id *)

Lemma concat_insert_perm (ws : list (list string)) i w l' :
  ws !! i = Some w → concat (<[i := l']> ws) ++ w ≡ₚ concat ws ++ l'.
Proof.
  intros Hw. rewrite insert_take_drop by (by eapply lookup_lt_Some).
  rewrite <- (take_drop_middle ws i w Hw) at 3.
  rewrite !concat_app. simpl. solve_Permutation.
Qed.

(** X5. Rule 2 returns on every assignment, for every environment; it keeps
    the number of waves of the environment and the ids in them (as a
    multiset: nothing is lost and nothing is duplicated), leaves the other
    environment alone, and never resets the changed flag. *)
Theorem mission_critical_rule_keeps_ids (apps : list AppRow) (env : Env)
    (changed : bool) (s : Waves) :
  ∃ changed' s',
    mission_critical_rule apps env changed s = (OK changed', s') ∧
    length (env_waves env s') = length (env_waves env s) ∧
    concat (env_waves env s') ≡ₚ concat (env_waves env s) ∧
    (∀ e, e ≠ env → env_waves e s' = env_waves e s) ∧
    (changed = true → changed' = true) ∧
    (length (env_waves env s) ≤ 2 → s' = s ∧ changed' = changed).
Proof.
  destruct (decide (2 < length (env_waves env s))) as [HN|HN].
  - pose proof (middle_wave_inside _ HN) as Hmid.
    set (ws := env_waves env s) in *. set (N := length ws) in *.
    destruct (lookup_lt_is_Some_2 ws 0) as [w0 H0]; [fold N; lia|].
    destruct (lookup_lt_is_Some_2 ws (N - 1)) as [wl Hl]; [fold N; lia|].
    destruct (lookup_lt_is_Some_2 ws (middle_wave N)) as [m Hm]; [fold N; lia|].
    eexists _, _.
    split; [by apply (mission_critical_rule_run apps env changed s w0 wl m)|].
    rewrite env_waves_set. fold ws N.
    split; [by rewrite !length_insert|]. split; [|split; [|split]].
    + set (h0 := filter (λ a, mission_critical apps a) w0).
      set (hl := filter (λ a, mission_critical apps a) wl).
      set (l0 := filter (λ a, ¬ mission_critical apps a) w0).
      set (ll := filter (λ a, ¬ mission_critical apps a) wl).
      set (A1 := <[0 := l0]> ws). set (A2 := <[N - 1 := ll]> A1).
      assert (H1 : concat A1 ++ w0 ≡ₚ concat ws ++ l0) by by apply concat_insert_perm.
      assert (H2 : concat A2 ++ wl ≡ₚ concat A1 ++ ll).
      { apply concat_insert_perm. unfold A1. by rewrite list_lookup_insert_ne by lia. }
      assert (H3 : concat (<[middle_wave N := m ++ h0 ++ hl]> A2) ++ m
                   ≡ₚ concat A2 ++ (m ++ h0 ++ hl)).
      { apply concat_insert_perm. unfold A2, A1.
        by rewrite !list_lookup_insert_ne by lia. }
      assert (F0 : h0 ++ l0 ≡ₚ w0) by apply filter_app_complement.
      assert (Fl : hl ++ ll ≡ₚ wl) by apply filter_app_complement.
      apply (inj (.++ (m ++ wl ++ w0))).
      transitivity ((concat (<[middle_wave N := m ++ h0 ++ hl]> A2) ++ m) ++ wl ++ w0);
        [solve_Permutation|].
      rewrite H3.
      transitivity ((concat A2 ++ wl) ++ m ++ h0 ++ hl ++ w0); [solve_Permutation|].
      rewrite H2.
      transitivity ((concat A1 ++ w0) ++ ll ++ m ++ h0 ++ hl); [solve_Permutation|].
      rewrite H1. rewrite <- F0, <- Fl. solve_Permutation.
    + intros e He. by apply env_waves_set_ne.
    + by intros ->.
    + fold N. lia.
  - exists changed, s. unfold mission_critical_rule.
    rewrite (bind_run _ _ s (length (env_waves env s)) s) by done.
    destruct (Nat.leb_spec (length (env_waves env s)) 2); [|lia].
    split; [done|]. repeat split; done.
Qed.

(** ** The structural rule on any number of waves *)

Lemma pad_run env k s :
  repeat_m k (push_empty_wave env) s
  = (OK (), set_env_waves env (env_waves env s ++ replicate k []) s).
Proof.
  revert s. induction k as [|k IH]; intros s; simpl.
  - by rewrite app_nil_r, set_env_waves_id.
  - rewrite (bind_run _ _ s () (set_env_waves env (env_waves env s ++ [[]]) s)) by done.
    rewrite IH, env_waves_set, set_env_waves_set. by rewrite <- app_assoc.
Qed.

Lemma merge_step_run env tw ws0 extra w s :
  0 < tw → tw ≤ length ws0 →
  env_waves env s = ws0 ++ [extra] → ws0 !! (tw - 1) = Some w →
  (pop_wave env ≫= λ extra,
     resolve_index env (Z.of_nat tw - 1) ≫= λ i, wave_extend env i extra) s
  = (OK (), set_env_waves env (<[tw - 1 := w ++ extra]> ws0) s).
Proof.
  intros Htw Hlen Hs Hw.
  rewrite (bind_run _ _ s extra (set_env_waves env ws0 s)).
  2:{ unfold pop_wave. rewrite Hs, last_snoc, length_app. simpl.
      replace (length ws0 + 1 - 1) with (length ws0) by lia.
      by rewrite take_app_length. }
  rewrite (bind_run _ _ _ (tw - 1) (set_env_waves env ws0 s)).
  2:{ unfold resolve_index.
      rewrite (bind_run _ _ _ (length ws0) (set_env_waves env ws0 s))
        by (unfold len_env, gets; by rewrite env_waves_set).
      unfold lift, py_index. rewrite decide_True by lia. do 2 f_equal. lia. }
  unfold wave_extend.
  rewrite (bind_run _ _ _ w (set_env_waves env ws0 s))
    by (apply read_wave_run; by rewrite env_waves_set).
  rewrite write_wave_run by (rewrite env_waves_set; lia).
  by rewrite env_waves_set, set_env_waves_set.
Qed.

Lemma merged_exact tw ws : 0 < tw → length ws = tw → merged tw ws = ws.
Proof.
  intros Htw Hlen. unfold merged.
  destruct (lookup_lt_is_Some_2 ws (tw - 1)) as [w Hw]; [lia|].
  rewrite Hw, drop_ge by lia. simpl. rewrite app_nil_r.
  rewrite <- (take_drop_middle ws (tw - 1) w Hw) at 2.
  by rewrite drop_ge by lia.
Qed.

Lemma merged_snoc tw ws0 extra w :
  0 < tw → tw ≤ length ws0 → ws0 !! (tw - 1) = Some w →
  merged tw (ws0 ++ [extra]) = merged tw (<[tw - 1 := w ++ extra]> ws0).
Proof.
  intros Htw Hlen Hw. unfold merged.
  rewrite take_app_le by lia. rewrite take_insert_ge by lia.
  rewrite lookup_app_l by lia. rewrite Hw.
  rewrite list_lookup_insert_eq by lia.
  rewrite drop_app_le by lia. rewrite drop_insert_lt by lia.
  rewrite reverse_snoc. simpl. by rewrite <- app_assoc.
Qed.

Lemma merge_run env tw k : 0 < tw →
  ∀ s, length (env_waves env s) = tw + k →
  repeat_m k (pop_wave env ≫= λ extra,
                resolve_index env (Z.of_nat tw - 1) ≫= λ i, wave_extend env i extra) s
  = (OK (), set_env_waves env (merged tw (env_waves env s)) s).
Proof.
  intros Htw. induction k as [|k IH]; intros s Hlen; simpl.
  - rewrite merged_exact by lia. by rewrite set_env_waves_id.
  - destruct (env_waves env s) as [|x l] eqn:Hs using rev_ind; [simpl in Hlen; lia|].
    clear IHl. rewrite length_app in Hlen. simpl in Hlen.
    destruct (lookup_lt_is_Some_2 l (tw - 1)) as [w Hw]; [lia|].
    rewrite (bind_run _ _ s () (set_env_waves env (<[tw - 1 := w ++ x]> l) s)).
    2:{ apply merge_step_run; [done|lia|done|done]. }
    rewrite IH by (rewrite env_waves_set, length_insert; lia).
    rewrite env_waves_set, set_env_waves_set.
    by rewrite (merged_snoc tw l x w) by (done || lia).
Qed.

Lemma concat_merged tw (ws : list (list string)) :
  0 < tw → tw ≤ length ws → concat (merged tw ws) ≡ₚ concat ws.
Proof.
  intros Htw Hlen. unfold merged.
  destruct (lookup_lt_is_Some_2 ws (tw - 1)) as [w Hw]; [lia|]. rewrite Hw. simpl.
  rewrite <- (take_drop_middle ws (tw - 1) w Hw) at 3.
  replace (S (tw - 1)) with tw by lia.
  rewrite !concat_app. simpl. rewrite app_nil_r.
  assert (Hrev : concat (reverse (drop tw ws)) ≡ₚ concat (drop tw ws)).
  { generalize (drop tw ws). intros l. induction l as [|x l IH]; [done|].
    rewrite reverse_cons, concat_app. simpl. rewrite IH. solve_Permutation. }
  rewrite Hrev. done.
Qed.

(** X6. For a positive [target_waves] the structural rule returns on every
    assignment and leaves exactly [target_waves] waves in the environment: a
    shorter list is padded with empty waves; of a longer list the first
    [target_waves - 1] waves stay and the waves from index [target_waves] on
    are appended to wave [target_waves - 1], the last one first.  No id is
    lost or duplicated, and the other environment is not touched. *)
Theorem structural_rule_restores_count (tw : nat) (env : Env) (s : Waves) :
  0 < tw →
  ∃ s',
    structural_rule tw env s = (OK (), s') ∧
    env_waves env s'
      = (if decide (length (env_waves env s) ≤ tw)
         then env_waves env s ++ replicate (tw - length (env_waves env s)) []
         else merged tw (env_waves env s)) ∧
    length (env_waves env s') = tw ∧
    concat (env_waves env s') ≡ₚ concat (env_waves env s) ∧
    (∀ e, e ≠ env → env_waves e s' = env_waves e s).
Proof.
  intros Htw. set (ws := env_waves env s).
  unfold structural_rule, pad_waves, merge_extra_waves.
  case_decide as Hle.
  - exists (set_env_waves env (ws ++ replicate (tw - length ws) []) s).
    split.
    + rewrite (bind_run _ _ s () (set_env_waves env (ws ++ replicate (tw - length ws) []) s)).
      2:{ rewrite (bind_run _ _ s (length ws) s) by done. apply pad_run. }
      rewrite (bind_run _ _ _ tw (set_env_waves env (ws ++ replicate (tw - length ws) []) s)).
      2:{ unfold len_env, gets. rewrite env_waves_set, length_app, length_replicate.
          do 2 f_equal. lia. }
      by rewrite Nat.sub_diag.
    + rewrite env_waves_set. split; [done|]. split; [|split].
      * rewrite length_app, length_replicate. lia.
      * rewrite concat_app.
        replace (concat (replicate (tw - length ws) [])) with (@nil string).
        -- by rewrite app_nil_r.
        -- generalize (tw - length ws). intros n. induction n; [done|]. done.
      * intros e He. by apply env_waves_set_ne.
  - exists (set_env_waves env (merged tw ws) s). split.
    + rewrite (bind_run _ _ s () s).
      2:{ rewrite (bind_run _ _ s (length ws) s) by done.
          replace (tw - length ws) with 0 by lia. done. }
      rewrite (bind_run _ _ s (length ws) s) by done.
      apply merge_run; [done|]. fold ws. lia.
    + rewrite env_waves_set. split; [done|]. split; [|split].
      * unfold merged. rewrite length_app, length_take. simpl. lia.
      * apply concat_merged; lia.
      * intros e He. by apply env_waves_set_ne.
Qed.

(** ** The repair engine on a well-formed assignment *)

(** X7. On an assignment with [target_waves] waves per environment that
    holds ids of the application table only (the ids of the table being
    distinct), the bounded repair loop followed by the corrective pass
    returns without an exception, whatever the two iteration caps, and leaves
    an assignment that again has [target_waves] waves per environment and
    holds ids of the table only. *)
Theorem repair_engine_keeps_shape (apps : list AppRow) (deps : list DepRow)
    (tw fuel1 fuel2 : nat) (s : Waves) :
  NoDup (app_ids apps) → shaped (known apps) tw s →
  ∃ s',
    (repair_loop apps deps tw fuel1;; fix_nonprod_prod_order apps tw fuel2) s = (OK (), s') ∧
    shaped (known apps) tw s'.
Proof.
  intros Hnd Hs.
  assert (Ht : triple (shaped (known apps) tw)
                 (repair_loop apps deps tw fuel1;; fix_nonprod_prod_order apps tw fuel2)
                 (λ _, shaped (known apps) tw) never).
  { apply (triple_bind _ _ _ (λ _, shaped (known apps) tw));
      [by apply triple_repair_loop|]. intros ?.
    by apply triple_fix_nonprod_prod_order. }
  specialize (Ht s Hs).
  destruct ((repair_loop apps deps tw fuel1;; fix_nonprod_prod_order apps tw fuel2) s)
    as [[[]|e] s']; [by exists s'|done].
Qed.

(** X8. [enforce_constraints] is idempotent on well-formed assignments: the
    second call, which the script makes on the result of the first, returns
    the assignment it was given. *)
Theorem enforce_constraints_idempotent (apps : list AppRow) (deps : list DepRow)
    (tw : nat) (s : Waves) :
  NoDup (app_ids apps) → 0 < tw → shaped (known apps) tw s →
  ∃ final,
    enforce_constraints apps deps tw s = (OK (), final) ∧
    enforce_constraints apps deps tw final = (OK (), final) ∧
    (enforce_constraints apps deps tw;; enforce_constraints apps deps tw) s = (OK (), final).
Proof.
  intros Hnd Htw Hs. exists (equalized apps tw).
  assert (H1 : enforce_constraints apps deps tw s = (OK (), equalized apps tw))
    by by apply enforce_constraints_run.
  assert (H2 : enforce_constraints apps deps tw (equalized apps tw)
               = (OK (), equalized apps tw)).
  { apply enforce_constraints_run; [done|done|]. by apply equalized_shaped. }
  split; [done|]. split; [done|].
  by rewrite (bind_run _ _ _ _ _ H1).
Qed.

(** ** The further properties on the example data *)

Lemma distributor_slices_communities_witness :
  0 < 8 ∧
  ∃ ws,
    clusters_to_waves example_apps example_communities Nonprod 8 = OK ws ∧
    length ws = 8 ∧
    concat ws = env_members example_apps example_communities Nonprod ∧
    map length ws
      = replicate (length (env_members example_apps example_communities Nonprod) mod 8)
          (ceil_div (length (env_members example_apps example_communities Nonprod)) 8)
        ++ replicate (8 - length (env_members example_apps example_communities Nonprod) mod 8)
             (length (env_members example_apps example_communities Nonprod) / 8).
Proof.
  split; [lia|].
  apply (distributor_slices_communities example_apps example_communities Nonprod 8); lia.
Defined.

Lemma structural_rule_restores_count_witness :
  0 < 2 ∧
  ∃ s',
    structural_rule 2 Prod example_waves = (OK (), s') ∧
    env_waves Prod s'
      = (if decide (length (env_waves Prod example_waves) ≤ 2)
         then env_waves Prod example_waves
              ++ replicate (2 - length (env_waves Prod example_waves)) []
         else merged 2 (env_waves Prod example_waves)) ∧
    length (env_waves Prod s') = 2 ∧
    concat (env_waves Prod s') ≡ₚ concat (env_waves Prod example_waves) ∧
    (∀ e, e ≠ Prod → env_waves e s' = env_waves e example_waves).
Proof.
  split; [lia|].
  apply (structural_rule_restores_count 2 Prod example_waves); lia.
Defined.

Lemma repair_engine_keeps_shape_witness :
  NoDup (app_ids example_apps) ∧ shaped (known example_apps) 8 example_waves ∧
  ∃ s',
    (repair_loop example_apps example_deps 8 40;;
     fix_nonprod_prod_order example_apps 8 40) example_waves = (OK (), s') ∧
    shaped (known example_apps) 8 s'.
Proof.
  split; [exact example_apps_distinct|]. split; [exact example_waves_shaped|].
  apply (repair_engine_keeps_shape example_apps example_deps 8 40 40 example_waves);
    [exact example_apps_distinct|exact example_waves_shaped].
Defined.

Lemma enforce_constraints_idempotent_witness :
  NoDup (app_ids example_apps) ∧ 0 < 8 ∧ shaped (known example_apps) 8 example_waves ∧
  ∃ final,
    enforce_constraints example_apps example_deps 8 example_waves = (OK (), final) ∧
    enforce_constraints example_apps example_deps 8 final = (OK (), final) ∧
    (enforce_constraints example_apps example_deps 8;;
     enforce_constraints example_apps example_deps 8) example_waves = (OK (), final).
Proof.
  split; [exact example_apps_distinct|]. split; [lia|].
  split; [exact example_waves_shaped|].
  apply (enforce_constraints_idempotent example_apps example_deps 8 example_waves);
    [exact example_apps_distinct|lia|exact example_waves_shaped].
Defined.

Lemma plan_algorithm_run_witness :
  NoDup (app_ids example_apps) ∧
  ∃ issues stats,
    plan_algorithm example_apps example_deps example_communities "louvain"
    = OK (OK (issues, stats), equalized example_apps TARGET_WAVES_PER_ENV).
Proof.
  split; [exact example_apps_distinct|].
  apply (plan_algorithm_run example_apps example_deps example_communities "louvain").
  exact example_apps_distinct.
Defined.

(** ** The structural checks of the validator *)

Lemma elem_of_concat_map {A B} (f : A → list B) (l : list A) (x : B) :
  x ∈ concat (map f l) ↔ ∃ y, y ∈ l ∧ x ∈ f y.
Proof.
  induction l as [|y l IH]; simpl.
  - split; [by intros ?%elem_of_nil|by intros (? & ?%elem_of_nil & _)].
  - rewrite elem_of_app, IH. split.
    + intros [H|(z & Hz & H)]; [exists y|exists z]; split; try done;
        [by left|by right].
    + intros (z & Hz & H). apply elem_of_cons in Hz as [->|Hz]; [by left|].
      right. eauto.
Qed.

Lemma elem_of_envs (env : Env) : env ∈ envs.
Proof. destruct env; unfold envs; [by left|right; by left]. Qed.

(** a loop that appends to a list of issues and to a list of statistics *)
Lemma for_each_emit2 {A I S} (l : list A) (body : A → list I * list S → M (list I * list S))
    (g : A → list I) (h : A → list S) acc s :
  (∀ x acc, x ∈ l → body x acc s = (OK (fst acc ++ g x, snd acc ++ h x), s)) →
  for_each l body acc s
  = (OK (fst acc ++ concat (map g l), snd acc ++ concat (map h l)), s).
Proof.
  revert acc. induction l as [|x l IH]; intros acc Hb; simpl.
  - rewrite !app_nil_r. by destruct acc.
  - rewrite (bind_run _ _ s (fst acc ++ g x, snd acc ++ h x) s) by (apply Hb; by left).
    rewrite IH by (intros y acc' Hy; apply Hb; by right).
    simpl. by rewrite <- !app_assoc.
Qed.

Lemma concat_map_singleton {A B} (f : A → B) (l : list A) :
  concat (map (λ x, [f x]) l) = map f l.
Proof. induction l as [|x l IH]; simpl; [done|]. by rewrite IH. Qed.

Lemma check_wave_counts_run alg issues s :
  check_wave_counts alg issues s = (OK (issues ++ count_issues alg s), s).
Proof.
  unfold check_wave_counts, count_issues. apply for_each_emit. intros env acc _.
  rewrite (bind_run _ _ s (length (env_waves env s)) s) by done.
  unfold count_issue_of. case_decide; [done|]. by rewrite app_nil_r.
Qed.

Lemma check_wave_sizes_run alg issues stats s :
  check_wave_sizes alg (issues, stats) s
  = (OK (issues ++ size_issues alg s, stats ++ wave_stats alg s), s).
Proof.
  unfold check_wave_sizes, size_issues, wave_stats.
  apply (for_each_emit2 envs _
           (λ env, concat (map (size_issue_of alg env) (enumerate (env_waves env s))))
           (λ env, map (stat_of alg env) (enumerate (env_waves env s)))).
  intros env acc _.
  rewrite (bind_run _ _ s (env_waves env s) s) by done.
  rewrite <- (concat_map_singleton (stat_of alg env)).
  apply for_each_emit2. intros [i w] [iss sts] _. unfold size_issue_of, stat_of. simpl.
  destruct (_ || _); [done|]. by rewrite app_nil_r.
Qed.

Lemma check_exclusivity_run alg issues s :
  check_exclusivity alg issues s = (OK (issues ++ excl_issues alg s), s).
Proof.
  unfold check_exclusivity, excl_issues. apply for_each_emit. intros env acc _.
  rewrite (bind_run _ _ s (env_waves env s) s) by done.
  apply for_each_emit. intros [i w] acc1 _. simpl.
  apply for_each_emit. intros a acc2 _. unfold excl_issue_of.
  destruct (negb _); [done|]. by rewrite app_nil_r.
Qed.

Lemma elem_of_count_issues alg s i :
  i ∈ count_issues alg s ↔
  ∃ env, i = wave_count_mismatch alg env TARGET_WAVES_PER_ENV (length (env_waves env s))
         ∧ length (env_waves env s) ≠ TARGET_WAVES_PER_ENV.
Proof.
  unfold count_issues. rewrite elem_of_concat_map. unfold count_issue_of. split.
  - intros (env & _ & H). case_decide; [|by apply elem_of_nil in H].
    apply list_elem_of_singleton in H. eauto.
  - intros (env & -> & H). exists env. split; [apply elem_of_envs|].
    case_decide; [|done]. by apply list_elem_of_singleton.
Qed.

Lemma elem_of_size_issues alg s i :
  i ∈ size_issues alg s ↔
  ∃ env idx w, env_waves env s !! idx = Some w
    ∧ i = wave_size_out_of_bounds alg env idx (length w) (MIN_WAVE, MAX_WAVE)
    ∧ (length w < MIN_WAVE ∨ MAX_WAVE < length w).
Proof.
  unfold size_issues. rewrite elem_of_concat_map. split.
  - intros (env & _ & H). apply elem_of_concat_map in H as ([idx w] & Hiw & H).
    apply elem_of_enumerate_1 in Hiw. unfold size_issue_of in H. simpl in H.
    destruct (Nat.ltb_spec (length w) MIN_WAVE); simpl in H.
    { apply list_elem_of_singleton in H. exists env, idx, w. auto. }
    destruct (Nat.ltb_spec MAX_WAVE (length w)); simpl in H.
    { apply list_elem_of_singleton in H. exists env, idx, w. auto. }
    by apply elem_of_nil in H.
  - intros (env & idx & w & Hw & -> & Hb). exists env. split; [apply elem_of_envs|].
    apply elem_of_concat_map. exists (idx, w). split; [by apply elem_of_enumerate_2|].
    unfold size_issue_of. simpl.
    destruct (Nat.ltb_spec (length w) MIN_WAVE); simpl;
      [by apply list_elem_of_singleton|].
    destruct (Nat.ltb_spec MAX_WAVE (length w)); simpl;
      [by apply list_elem_of_singleton|lia].
Qed.

Lemma elem_of_excl_issues alg s i :
  i ∈ excl_issues alg s ↔
  ∃ env idx w a, env_waves env s !! idx = Some w ∧ a ∈ w
    ∧ i = env_exclusivity_violation alg env idx a
    ∧ endswith a (env_suffix env) = false.
Proof.
  unfold excl_issues. rewrite elem_of_concat_map. split.
  - intros (env & _ & H). apply elem_of_concat_map in H as ([idx w] & Hiw & H).
    apply elem_of_enumerate_1 in Hiw. simpl in H.
    apply elem_of_concat_map in H as (a & Ha & H). unfold excl_issue_of in H.
    destruct (endswith a (env_suffix env)) eqn:He; simpl in H;
      [by apply elem_of_nil in H|].
    apply list_elem_of_singleton in H. exists env, idx, w, a. auto.
  - intros (env & idx & w & a & Hw & Ha & -> & He). exists env.
    split; [apply elem_of_envs|].
    apply elem_of_concat_map. exists (idx, w). split; [by apply elem_of_enumerate_2|].
    simpl. apply elem_of_concat_map. exists a. split; [done|].
    unfold excl_issue_of. rewrite He. simpl. by apply list_elem_of_singleton.
Qed.

Lemma appends_refl P l : appends P l l.
Proof. exists []. by rewrite app_nil_r. Qed.

Lemma appends_snoc P l l' i : appends P l l' → P i → appends P l (l' ++ [i]).
Proof.
  intros (t & -> & Ht) Hi. exists (t ++ [i]). rewrite app_assoc. split; [done|].
  apply Forall_app. split; [done|]. by apply Forall_singleton.
Qed.

Lemma appends_trans P l1 l2 l3 : appends P l1 l2 → appends P l2 l3 → appends P l1 l3.
Proof.
  intros (t & -> & Ht) (u & -> & Hu). exists (t ++ u). rewrite app_assoc.
  split; [done|]. by apply Forall_app.
Qed.

Section Later_checks.
Context (apps : list AppRow) (deps : list DepRow).

Local Abbreviation later := (λ i : Issue, is_structural_issue i = false).

Ltac appends_ret :=
  apply yields_ret; first [assumption | by apply appends_snoc].

Lemma appends_check_sequencing idxmap alg issues :
  yields (check_sequencing apps idxmap alg issues) (appends later issues).
Proof.
  apply yields_for_each; [|apply appends_refl]. intros [base instances] acc Hacc.
  apply yields_ret. unfold check_base.
  destruct (filter _ instances) as [|n ns]; [done|].
  destruct (filter _ instances) as [|p ps]; [done|].
  destruct (_ <=? _); destruct (_ <? _)%Z; try done;
    repeat (apply appends_snoc; [|done]); done.
Qed.

Lemma appends_check_dependencies idxmap alg issues :
  yields (check_dependencies apps deps idxmap alg issues) (appends later issues).
Proof.
  apply yields_for_each; [|apply appends_refl]. intros r acc Hacc.
  unfold validate_dep.
  destruct (idxmap !! source r) as [[s_env s_idx]|]; [|appends_ret].
  destruct (idxmap !! target r) as [[t_env t_idx]|]; [|appends_ret].
  apply yields_bind_any. intros bcp. case_decide; [appends_ret|].
  apply yields_bind_any. intros b8. apply yields_bind_any. intros b7.
  assert (appends later issues
            (if b8 && negb (s_idx =? t_idx)
             then acc ++ [cross_wave_high_bcp alg (source r) (target r) s_idx t_idx]
             else acc)) by (destruct (_ && _); [by apply appends_snoc|done]).
  destruct (_ && _ && _); appends_ret.
Qed.

Lemma appends_check_mission_critical alg issues :
  yields (check_mission_critical apps alg issues) (appends later issues).
Proof.
  apply yields_for_each; [|apply appends_refl]. intros env acc Hacc.
  apply yields_bind_any. intros N. apply yields_bind_any. intros ws.
  apply yields_for_each; [|done]. intros [i w] acc1 Hacc1.
  apply yields_for_each; [|done]. intros a acc2 Hacc2.
  apply yields_bind_any. intros bcp. apply yields_bind_any. intros b9.
  destruct (_ && _); appends_ret.
Qed.

(** the report starts with the issues of the three structural checks, in the
    order of the checks; no later check adds an issue of these kinds *)
Lemma validate_waves_structure alg s issues stats s' :
  validate_waves apps deps alg s = (OK (issues, stats), s') →
  stats = wave_stats alg s ∧
  appends later (count_issues alg s ++ size_issues alg s ++ excl_issues alg s) issues.
Proof.
  unfold validate_waves. intros Hrun.
  rewrite (bind_run _ _ s (wave_index_map s) s) in Hrun by done.
  rewrite (bind_run _ _ _ _ _ (check_wave_counts_run alg [] s)) in Hrun.
  rewrite (bind_run _ _ _ _ _ (check_wave_sizes_run alg _ [] s)) in Hrun.
  rewrite (bind_run _ _ _ _ _ (check_exclusivity_run alg _ s)) in Hrun.
  simpl in Hrun. rewrite <- app_assoc in Hrun.
  set (front := count_issues alg s ++ size_issues alg s ++ excl_issues alg s) in *.
  assert (Hy : yields
            (check_sequencing apps (wave_index_map s) alg front ≫= λ issues,
             check_dependencies apps deps (wave_index_map s) alg issues ≫= λ issues,
             check_mission_critical apps alg issues ≫= λ issues,
             mret (issues, wave_stats alg s))
            (λ r, snd r = wave_stats alg s ∧ appends later front (fst r))).
  { eapply yields_bind; [apply appends_check_sequencing|]. intros i4 H4.
    eapply yields_bind; [apply appends_check_dependencies|]. intros i5 H5.
    eapply yields_bind; [apply appends_check_mission_critical|]. intros i6 H6.
    apply yields_ret. split; [done|].
    eapply appends_trans; [exact H4|]. eapply appends_trans; [exact H5|exact H6]. }
  specialize (Hy s I). rewrite Hrun in Hy. simpl in Hy. destruct Hy as [-> Hy]. done.
Qed.

(** the issues of the three structural checks in a report *)
Lemma report_structural_issues alg (s : Waves) issues stats s' :
  validate_waves apps deps alg s = (OK (issues, stats), s') →
  stats = wave_stats alg s ∧
  length stats = length (nonprod s) + length (prod s) ∧
  (∀ env expected actual,
     wave_count_mismatch alg env expected actual ∈ issues ↔
     expected = 8 ∧ actual = length (env_waves env s) ∧ actual ≠ 8) ∧
  (∀ env i n range,
     wave_size_out_of_bounds alg env i n range ∈ issues ↔
     range = (15, 25) ∧ (∃ w, env_waves env s !! i = Some w ∧ length w = n) ∧
     (n < 15 ∨ 25 < n)) ∧
  (∀ env i a,
     env_exclusivity_violation alg env i a ∈ issues ↔
     ∃ w, env_waves env s !! i = Some w ∧ a ∈ w ∧ endswith a (env_suffix env) = false).
Proof.
  intros Hrun. apply validate_waves_structure in Hrun as [-> (t & -> & Ht)].
  split; [done|]. split.
  { unfold wave_stats, envs, enumerate. simpl.
    rewrite app_nil_r, length_app, !length_map, !length_zip, !length_seq. lia. }
  assert (Hlater : ∀ i, is_structural_issue i = true → i ∉ t).
  { intros i Hi Hin. rewrite Forall_forall in Ht. specialize (Ht i Hin). congruence. }
  split; [|split].
  - intros env e a. rewrite !elem_of_app, elem_of_count_issues, elem_of_size_issues,
      elem_of_excl_issues. split.
    + intros [[(env' & [= -> -> ->] & H)|[(? & ? & ? & _ & ? & _)|(? & ? & ? & ? & _ & _ & ? & _)]]|H];
        [done|done|done|by apply Hlater in H].
    + intros (-> & -> & H). left. left. by exists env.
  - intros env i n r. rewrite !elem_of_app, elem_of_count_issues, elem_of_size_issues,
      elem_of_excl_issues. split.
    + intros [[(? & ? & _)|[(env' & idx & w & Hw & [= -> -> -> ->] & H)|(? & ? & ? & ? & _ & _ & ? & _)]]|H];
        [done| |done|by apply Hlater in H].
      split; [done|]. split; [by exists w|done].
    + intros (-> & (w & Hw & <-) & H). left. right. left. by exists env, i, w.
  - intros env i a. rewrite !elem_of_app, elem_of_count_issues, elem_of_size_issues,
      elem_of_excl_issues. split.
    + intros [[(? & ? & _)|[(? & ? & ? & _ & ? & _)|(env' & idx & w & a' & Hw & Ha & [= -> -> ->] & H)]]|H];
        [done|done| |by apply Hlater in H].
      by exists w.
    + intros (w & Hw & Ha & H). left. right. right. by exists env, i, w, a.
Qed.

(** X10. The structural part of a report of [validate_waves]: the statistics
    have one row per wave (the nonprod waves first, in wave order, with the
    number of ids of the wave); the report has a [wave_count_mismatch] for an
    environment exactly when its number of waves is not 8; a
    [wave_size_out_of_bounds] for a wave exactly when its number of ids is
    below 15 or above 25; an [env_exclusivity_violation] for an id of a wave
    exactly when the id does not end with the suffix of the wave's
    environment. *)
Theorem validator_structural_checks alg (s : Waves) issues stats s' :
  validate_waves apps deps alg s = (OK (issues, stats), s') →
  stats = wave_stats alg s ∧
  length stats = length (nonprod s) + length (prod s) ∧
  (∀ env expected actual,
     wave_count_mismatch alg env expected actual ∈ issues ↔
     expected = 8 ∧ actual = length (env_waves env s) ∧ actual ≠ 8) ∧
  (∀ env i n range,
     wave_size_out_of_bounds alg env i n range ∈ issues ↔
     range = (15, 25) ∧ (∃ w, env_waves env s !! i = Some w ∧ length w = n) ∧
     (n < 15 ∨ 25 < n)) ∧
  (∀ env i a,
     env_exclusivity_violation alg env i a ∈ issues ↔
     ∃ w, env_waves env s !! i = Some w ∧ a ∈ w ∧ endswith a (env_suffix env) = false).
Proof. apply report_structural_issues. Qed.

End Later_checks.

(** ** The structural part of the final report *)

(** the size of a wave of the equalizer's result *)
Lemma balanced_wave_size (apps : list AppRow) (tw : nat) (env : Env) i w :
  0 < tw → balanced apps tw env !! i = Some w →
  length w = if i <? length (all_env_apps apps env) mod tw
             then length (all_env_apps apps env) / tw + 1
             else length (all_env_apps apps env) / tw.
Proof.
  intros Htw Hi.
  assert (Hlt : i < tw) by (apply lookup_lt_Some in Hi; by rewrite balanced_length in Hi).
  assert (Hl : map length (balanced apps tw env) !! i = Some (length w)).
  { change (map length ?l) with (length <$> l). by rewrite list_lookup_fmap, Hi. }
  rewrite balanced_sizes, wave_sizes_lookup in Hl by done. by injection Hl as <-.
Qed.

Lemma env_waves_equalized (apps : list AppRow) (tw : nat) (env : Env) :
  env_waves env (equalized apps tw) = balanced apps tw env.
Proof. by destruct env. Qed.

(** X11. The structural part of the report that the script saves (the
    validator run after [enforce_constraints] with 8 waves, on a well-formed
    initial assignment): the run returns; the statistics have 16 rows; the
    report has no [wave_count_mismatch] and no [env_exclusivity_violation];
    and it has a [wave_size_out_of_bounds] issue for an environment exactly
    when the environment has fewer than 120 or more than 200 instances in the
    application table. *)
Theorem final_report_structure (apps : list AppRow) (deps : list DepRow)
    (alg : string) (s : Waves) :
  NoDup (app_ids apps) → shaped (known apps) 8 s →
  ∃ issues stats final,
    (enforce_constraints apps deps 8;; validate_waves apps deps alg) s
      = (OK (issues, stats), final) ∧
    length stats = 16 ∧
    (∀ env expected actual, wave_count_mismatch alg env expected actual ∉ issues) ∧
    (∀ env i a, env_exclusivity_violation alg env i a ∉ issues) ∧
    (∀ env,
       (∃ i n range, wave_size_out_of_bounds alg env i n range ∈ issues) ↔
       length (all_env_apps apps env) < 120 ∨ 200 < length (all_env_apps apps env)).
Proof.
  intros Hnd Hs.
  assert (Htw : 0 < 8) by lia.
  pose proof (equalized_shaped apps 8 Htw) as Heq.
  destruct (validate_waves_run apps deps 8 Hnd alg _ Heq) as (issues0 & stats & Hv).
  exists (issues0 ++ mc_issues apps alg (equalized apps 8)), stats, (equalized apps 8).
  split.
  { rewrite (bind_run _ _ _ () (equalized apps 8)) by by apply enforce_constraints_run.
    exact Hv. }
  apply report_structural_issues in Hv as (_ & Hlen & Hc & Hsz & Hex).
  split.
  { rewrite Hlen. change (length (balanced apps 8 Nonprod) + length (balanced apps 8 Prod) = 16).
    by rewrite !balanced_length. }
  split; [|split].
  - intros env e a Hin. apply Hc in Hin as (_ & -> & Hne).
    rewrite env_waves_equalized, balanced_length in Hne. done.
  - intros env i a Hin. apply Hex in Hin as (w & Hw & Ha & Hend).
    rewrite env_waves_equalized in Hw.
    assert (Hin : a ∈ all_env_apps apps env).
    { rewrite <- risk_order_perm, <- (balanced_concat apps 8 env Htw).
      apply list_elem_of_In, in_concat. exists w. rewrite <- !list_elem_of_In.
      split; [by eapply list_elem_of_lookup_2|done]. }
    pose proof (all_env_apps_suffix apps env) as Hsuf. rewrite Forall_forall in Hsuf.
    specialize (Hsuf a Hin). congruence.
  - intros env.
    pose proof (Nat.div_mod_eq (length (all_env_apps apps env)) 8) as Hdm.
    assert (Hub : length (all_env_apps apps env) mod 8 < 8)
      by (apply Nat.mod_upper_bound; lia).
    split.
    + intros (i & n & r & Hin). apply Hsz in Hin as (_ & (w & Hw & <-) & Hb).
      rewrite env_waves_equalized in Hw.
      rewrite (balanced_wave_size apps 8 env i w Htw Hw) in Hb.
      revert Hdm Hub Hb.
      generalize (length (all_env_apps apps env) / 8).
      generalize (length (all_env_apps apps env) mod 8).
      intros m d Hdm Hub Hb. destruct (Nat.ltb_spec i m); lia.
    + intros Hb.
      assert (Hex7 : ∃ w, balanced apps 8 env !! 7 = Some w).
      { apply lookup_lt_is_Some. rewrite balanced_length. lia. }
      assert (Hex0 : ∃ w, balanced apps 8 env !! 0 = Some w).
      { apply lookup_lt_is_Some. rewrite balanced_length. lia. }
      destruct Hex7 as [w7 H7], Hex0 as [w0 H0].
      pose proof (balanced_wave_size apps 8 env 7 w7 Htw H7) as L7.
      pose proof (balanced_wave_size apps 8 env 0 w0 Htw H0) as L0.
      revert Hdm Hub Hb L7 L0.
      generalize (length (all_env_apps apps env) / 8).
      generalize (length (all_env_apps apps env) mod 8).
      intros m d Hdm Hub Hb L7 L0.
      destruct (Nat.ltb_spec 7 m); [lia|]. destruct (Nat.ltb_spec 0 m).
      * destruct Hb as [Hb|Hb].
        -- exists 7, (length w7), (15, 25). apply Hsz.
           split; [done|]. split; [exists w7; by rewrite env_waves_equalized|lia].
        -- exists 0, (length w0), (15, 25). apply Hsz.
           split; [done|]. split; [exists w0; by rewrite env_waves_equalized|lia].
      * destruct Hb as [Hb|Hb].
        -- exists 7, (length w7), (15, 25). apply Hsz.
           split; [done|]. split; [exists w7; by rewrite env_waves_equalized|lia].
        -- exists 0, (length w0), (15, 25). apply Hsz.
           split; [done|]. split; [exists w0; by rewrite env_waves_equalized|lia].
Qed.

(** ** The validator and ids that are not in the application table *)

Lemma for_each_returns {A S} (l : list A) (body : A → S → M S) acc s :
  (∀ x acc, x ∈ l → ∃ acc', body x acc s = (OK acc', s)) →
  ∃ acc', for_each l body acc s = (OK acc', s).
Proof.
  revert acc. induction l as [|x l IH]; intros acc Hb; simpl; [by eexists|].
  destruct (Hb x acc) as [acc1 H1]; [by left|].
  rewrite (bind_run _ _ _ _ _ H1). apply IH. intros y acc' Hy. apply Hb. by right.
Qed.

Lemma for_each_returns_or_raises {A S} (e : exn) (l : list A) (body : A → S → M S) acc s :
  (∀ x acc, x ∈ l →
     (∃ acc', body x acc s = (OK acc', s)) ∨ body x acc s = (Raise e, s)) →
  (∃ acc', for_each l body acc s = (OK acc', s)) ∨ for_each l body acc s = (Raise e, s).
Proof.
  revert acc. induction l as [|x l IH]; intros acc Hb; simpl; [left; by eexists|].
  destruct (Hb x acc) as [[acc1 H1]|H1]; [by left| |].
  - rewrite (bind_run _ _ _ _ _ H1). apply IH. intros y acc' Hy. apply Hb. by right.
  - right. unfold mbind, M_bind. by rewrite H1.
Qed.

Lemma for_each_raises {A S} (e : exn) (l : list A) (body : A → S → M S) acc s x :
  (∀ y acc, y ∈ l →
     (∃ acc', body y acc s = (OK acc', s)) ∨ body y acc s = (Raise e, s)) →
  x ∈ l → (∀ acc, body x acc s = (Raise e, s)) →
  for_each l body acc s = (Raise e, s).
Proof.
  revert acc. induction l as [|y l IH]; intros acc Hb Hx Hr;
    [by apply elem_of_nil in Hx|].
  simpl. destruct (Hb y acc) as [[acc1 H1]|H1]; [by left| |].
  - rewrite (bind_run _ _ _ _ _ H1). apply elem_of_cons in Hx as [->|Hx].
    + rewrite Hr in H1. discriminate.
    + apply IH; [|done|done]. intros z acc' Hz. apply Hb. by right.
  - unfold mbind, M_bind. by rewrite H1.
Qed.

Section Unknown_ids.
Context (apps : list AppRow) (deps : list DepRow).
Hypothesis apps_distinct : NoDup (app_ids apps).

Lemma loc_bcp_unknown a : a ∉ app_ids apps → loc_bcp apps a = Raise KeyError.
Proof. intros Hun. unfold loc_bcp. by rewrite no_row_of. Qed.

(** the body of the mission-critical check on one id *)
Lemma mission_critical_check_outcome alg env (N i : nat) a (acc : list Issue) s :
  (a ∈ app_ids apps →
   ∃ acc',
     (bcp ← lift (loc_bcp apps a); b9 ← lift (cell_ge bcp 9);
      if b9 && ((i =? 0) || (Z.of_nat i =? Z.of_nat N - 1)%Z)
      then mret (acc ++ [mission_critical_edge_wave alg env i a])
      else mret acc) s = (OK acc', s)) ∧
  (a ∉ app_ids apps →
     (bcp ← lift (loc_bcp apps a); b9 ← lift (cell_ge bcp 9);
      if b9 && ((i =? 0) || (Z.of_nat i =? Z.of_nat N - 1)%Z)
      then mret (acc ++ [mission_critical_edge_wave alg env i a])
      else mret acc) s = (Raise KeyError, s)).
Proof.
  split; intros Ha.
  - rewrite loc_bcp_known by done. unfold mbind, M_bind, lift. simpl.
    destruct (_ && _); by eexists.
  - by rewrite loc_bcp_unknown.
Qed.

Lemma check_mission_critical_returns alg issues s :
  (∀ env w a, w ∈ env_waves env s → a ∈ w → a ∈ app_ids apps) →
  ∃ issues', check_mission_critical apps alg issues s = (OK issues', s).
Proof.
  intros Hk. unfold check_mission_critical. apply for_each_returns. intros env acc _.
  rewrite (bind_run _ _ s (length (env_waves env s)) s) by done.
  rewrite (bind_run _ _ s (env_waves env s) s) by done.
  apply for_each_returns. intros [i w] acc1 Hiw.
  apply for_each_returns. intros a acc2 Ha.
  apply mission_critical_check_outcome. apply (Hk env w a); [|done].
  apply elem_of_enumerate_1 in Hiw. by eapply list_elem_of_lookup_2.
Qed.

Lemma check_mission_critical_raises alg issues s env w a :
  w ∈ env_waves env s → a ∈ w → a ∉ app_ids apps →
  check_mission_critical apps alg issues s = (Raise KeyError, s).
Proof.
  intros Hw Ha Hun. unfold check_mission_critical.
  assert (Hid : ∀ env N i w acc,
            (∃ acc', for_each w (λ a issues,
               bcp ← lift (loc_bcp apps a); b9 ← lift (cell_ge bcp 9);
               if b9 && ((i =? 0) || (Z.of_nat i =? Z.of_nat N - 1)%Z)
               then mret (issues ++ [mission_critical_edge_wave alg env i a])
               else mret issues) acc s = (OK acc', s)) ∨
            for_each w (λ a issues,
               bcp ← lift (loc_bcp apps a); b9 ← lift (cell_ge bcp 9);
               if b9 && ((i =? 0) || (Z.of_nat i =? Z.of_nat N - 1)%Z)
               then mret (issues ++ [mission_critical_edge_wave alg env i a])
               else mret issues) acc s = (Raise KeyError, s)).
  { intros env' N i w' acc. apply for_each_returns_or_raises. intros a' acc2 _.
    destruct (decide (a' ∈ app_ids apps)) as [Hin|Hin];
      [left|right]; by apply mission_critical_check_outcome. }
  apply (for_each_raises KeyError envs _ issues s env).
  - intros env' acc _.
    rewrite (bind_run _ _ s (length (env_waves env' s)) s) by done.
    rewrite (bind_run _ _ s (env_waves env' s) s) by done.
    apply for_each_returns_or_raises. intros [i w'] acc1 _. apply Hid.
  - apply elem_of_envs.
  - intros acc.
    rewrite (bind_run _ _ s (length (env_waves env s)) s) by done.
    rewrite (bind_run _ _ s (env_waves env s) s) by done.
    apply list_elem_of_lookup in Hw as [i Hi].
    apply (for_each_raises KeyError _ _ acc s (i, w)).
    + intros [j w'] acc1 _. apply Hid.
    + by apply elem_of_enumerate_2.
    + intros acc1. apply (for_each_raises KeyError _ _ acc1 s a); [|done|].
      * intros a' acc2 _. destruct (decide (a' ∈ app_ids apps)) as [Hin|Hin];
          [left|right]; by apply mission_critical_check_outcome.
      * intros acc2. by apply mission_critical_check_outcome.
Qed.

Lemma validate_dep_outcome idxmap alg r issues s :
  (∃ issues', validate_dep apps idxmap alg r issues s = (OK issues', s)) ∨
  validate_dep apps idxmap alg r issues s = (Raise KeyError, s).
Proof.
  unfold validate_dep.
  destruct (idxmap !! source r) as [[s_env s_idx]|]; [|left; by eexists].
  destruct (idxmap !! target r) as [[t_env t_idx]|]; [|left; by eexists].
  destruct (decide (source r ∈ app_ids apps)) as [Hin|Hin].
  - left. rewrite loc_bcp_known by done. unfold mbind, M_bind, lift. simpl.
    case_decide; [by eexists|]. simpl. destruct (_ && _ && _); by eexists.
  - right. by rewrite loc_bcp_unknown.
Qed.

Lemma validate_dep_returns idxmap alg r issues s :
  (∀ a env i, idxmap !! a = Some (env, i) → a ∈ app_ids apps) →
  ∃ issues', validate_dep apps idxmap alg r issues s = (OK issues', s).
Proof.
  intros Hk. unfold validate_dep.
  destruct (idxmap !! source r) as [[s_env s_idx]|] eqn:Hs; [|by eexists].
  destruct (idxmap !! target r) as [[t_env t_idx]|]; [|by eexists].
  rewrite (loc_bcp_known apps apps_distinct (source r)) by by eapply Hk.
  unfold mbind, M_bind, lift. simpl.
  case_decide; [by eexists|]. simpl. destruct (_ && _ && _); by eexists.
Qed.

(** X12. The outcome of the validator, the ids of the application table
    being distinct: when every id in the waves is an id of the table,
    [validate_waves] returns its report; as soon as a wave holds an id that
    is not in the table it raises KeyError (the lookup
    [apps_df.loc[a]['BCP_score']] of the mission-critical check, or of the
    dependency check before it).  In both cases the waves are left as they
    were. *)
Theorem validator_needs_known_ids alg (s : Waves) :
  ((∀ env w a, w ∈ env_waves env s → a ∈ w → a ∈ app_ids apps) →
   ∃ report, validate_waves apps deps alg s = (OK report, s)) ∧
  (∀ env w a, w ∈ env_waves env s → a ∈ w → a ∉ app_ids apps →
   validate_waves apps deps alg s = (Raise KeyError, s)).
Proof.
  assert (Hfront : ∀ rest : list Issue → M (list Issue * list Stat),
            validate_waves apps deps alg s
            = (check_sequencing apps (wave_index_map s) alg
                 (count_issues alg s ++ size_issues alg s ++ excl_issues alg s) ≫= λ issues,
               check_dependencies apps deps (wave_index_map s) alg issues ≫= λ issues,
               check_mission_critical apps alg issues ≫= λ issues,
               mret (issues, wave_stats alg s)) s).
  { intros _. unfold validate_waves.
    rewrite (bind_run _ _ s (wave_index_map s) s) by done.
    rewrite (bind_run _ _ _ _ _ (check_wave_counts_run alg [] s)).
    rewrite (bind_run _ _ _ _ _ (check_wave_sizes_run alg _ [] s)).
    rewrite (bind_run _ _ _ _ _ (check_exclusivity_run alg _ s)).
    simpl. by rewrite <- app_assoc. }
  rewrite (Hfront (λ _, mret ([], []))). clear Hfront.
  destruct (inspects_run _ s (inspects_check_sequencing apps (wave_index_map s) alg
              (count_issues alg s ++ size_issues alg s ++ excl_issues alg s)))
    as [i4 H4].
  rewrite (bind_run _ _ _ _ _ H4). split.
  - intros Hk.
    assert (H5 : ∃ i5, check_dependencies apps deps (wave_index_map s) alg i4 s = (OK i5, s)).
    { unfold check_dependencies. apply for_each_returns. intros r acc _.
      apply validate_dep_returns. intros a env i Hi.
      apply wave_index_map_lookup in Hi as (w & Hw & Ha).
      apply (Hk env w a); [by eapply list_elem_of_lookup_2|done]. }
    destruct H5 as [i5 H5]. rewrite (bind_run _ _ _ _ _ H5).
    destruct (check_mission_critical_returns alg i5 s Hk) as [i6 H6].
    rewrite (bind_run _ _ _ _ _ H6). by eexists.
  - intros env w a Hw Ha Hun.
    assert (H5 : (∃ i5, check_dependencies apps deps (wave_index_map s) alg i4 s = (OK i5, s))
                 ∨ check_dependencies apps deps (wave_index_map s) alg i4 s
                   = (Raise KeyError, s)).
    { unfold check_dependencies. apply for_each_returns_or_raises. intros r acc _.
      apply validate_dep_outcome. }
    destruct H5 as [[i5 H5]|H5].
    + rewrite (bind_run _ _ _ _ _ H5).
      unfold mbind at 1, M_bind at 1.
      by rewrite (check_mission_critical_raises alg i5 s env w a).
    + unfold mbind at 1, M_bind at 1. by rewrite H5.
Qed.

End Unknown_ids.

(** ** The export of the waves *)

Lemma elem_of_waves_to_df (s : Waves) alg row :
  row ∈ waves_to_df s alg ↔
  row_algorithm row = alg ∧
  ∃ w, env_waves (row_env row) s !! row_wave_index row = Some w ∧ row_app_instance_id row ∈ w.
Proof.
  unfold waves_to_df. rewrite elem_of_concat_map. split.
  - intros (env & _ & H). apply elem_of_concat_map in H as ([i w] & Hiw & H).
    apply elem_of_enumerate_1 in Hiw.
    apply list_elem_of_In, in_map_iff in H as (a & <- & Ha). simpl.
    split; [done|]. exists w. by rewrite list_elem_of_In.
  - intros (Halg & w & Hw & Ha). exists (row_env row). split; [apply elem_of_envs|].
    apply elem_of_concat_map. exists (row_wave_index row, w).
    split; [by apply elem_of_enumerate_2|].
    apply list_elem_of_In, in_map_iff. exists (row_app_instance_id row).
    rewrite <- list_elem_of_In. split; [|done]. destruct row; simpl in *. by subst.
Qed.

Lemma waves_to_df_ids_env (alg : string) (env : Env) (i : nat) (ws : list (list string)) :
  map row_app_instance_id
    (concat (map (λ '(i, w),
       map (λ app, {| row_algorithm := alg; row_env := env;
                      row_wave_index := i; row_app_instance_id := app |}) w)
       (zip (seq i (length ws)) ws)))
  = concat ws.
Proof.
  revert i. induction ws as [|w ws IH]; intros i; simpl; [done|].
  rewrite map_app, IH, map_map, map_id. done.
Qed.

(** X13. The rows of [waves_to_df]: the column of ids is the concatenation
    of the nonprod waves followed by the prod waves; a row is in the frame
    exactly when its id is in the wave of its environment at its wave index;
    every entry of the wave-index map has its row, and when no id is twice in
    the waves the rows and the entries of the wave-index map are the same.
    For the assignment that the equalizer builds for 8 waves, the column of
    ids is the nonprod instances in the equalizer's order followed by the
    prod instances. *)
Theorem waves_to_df_rows (s : Waves) (alg : string) :
  map row_app_instance_id (waves_to_df s alg) = concat (nonprod s) ++ concat (prod s) ∧
  (∀ row, row ∈ waves_to_df s alg ↔
     row_algorithm row = alg ∧
     ∃ w, env_waves (row_env row) s !! row_wave_index row = Some w
          ∧ row_app_instance_id row ∈ w) ∧
  (∀ a env i, wave_index_map s !! a = Some (env, i) →
     {| row_algorithm := alg; row_env := env; row_wave_index := i;
        row_app_instance_id := a |} ∈ waves_to_df s alg) ∧
  (NoDup (concat (nonprod s) ++ concat (prod s)) →
   ∀ a env i,
     {| row_algorithm := alg; row_env := env; row_wave_index := i;
        row_app_instance_id := a |} ∈ waves_to_df s alg →
     wave_index_map s !! a = Some (env, i)) ∧
  (∀ apps,
     map row_app_instance_id (waves_to_df (equalized apps 8) alg)
     = risk_order apps Nonprod ++ risk_order apps Prod).
Proof.
  assert (Hids : ∀ s, map row_app_instance_id (waves_to_df s alg)
                      = concat (nonprod s) ++ concat (prod s)).
  { intros s0. unfold waves_to_df, envs, enumerate. simpl.
    rewrite app_nil_r, map_app, !waves_to_df_ids_env. done. }
  split; [apply Hids|]. split; [apply elem_of_waves_to_df|]. split; [|split].
  - intros a env i H. apply wave_index_map_lookup in H as (w & Hw & Ha).
    apply elem_of_waves_to_df. simpl. eauto.
  - intros Hnd a env i H. apply elem_of_waves_to_df in H as (_ & w & Hw & Ha).
    simpl in *. by eapply wave_index_map_position.
  - intros apps. rewrite Hids.
    change (concat (balanced apps 8 Nonprod) ++ concat (balanced apps 8 Prod)
            = risk_order apps Nonprod ++ risk_order apps Prod).
    by rewrite !balanced_concat by lia.
Qed.

(** ** Error behaviour of the equalizer *)

Lemma bind_raises {A B} (m : M A) (k : A → M B) s :
  (∀ a s1, ∃ e s', k a s1 = (Raise e, s')) → ∃ e s', (m ≫= k) s = (Raise e, s').
Proof.
  intros Hk. unfold mbind, M_bind. destruct (m s) as [[a|e] s1]; [apply Hk|eauto].
Qed.

Lemma twice_in_list (l : list string) :
  ¬ NoDup l → ∃ a, 2 ≤ length (filter (λ x, x = a) l).
Proof.
  induction l as [|x l IH]; intros Hnd; [destruct Hnd; constructor|].
  destruct (decide (x ∈ l)) as [Hin|Hin].
  - exists x. rewrite filter_cons. case_decide; [|done]. simpl.
    assert (Hx : x ∈ filter (λ y, y = x) l) by by apply list_elem_of_filter.
    destruct (filter _ l); [by apply elem_of_nil in Hx|simpl; lia].
  - destruct IH as [a Ha]. { intros Hl. apply Hnd. by apply NoDup_cons. }
    exists a. rewrite filter_cons. case_decide; simpl; lia.
Qed.

Lemma filter_filter_length (P : string → Prop) `{∀ x, Decision (P x)} a (l : list string) :
  length (filter (λ x, x = a) (filter P l)) ≤ length (filter (λ x, x = a) l).
Proof.
  induction l as [|x l IH]; [done|].
  rewrite !filter_cons. repeat (case_decide; rewrite ?filter_cons; simpl); lia.
Qed.

Section Equalizer_errors.
Context (apps : list AppRow).

Lemma rows_of_id a :
  length (filter (λ r, app_instance_id r = a) apps)
  = length (filter (λ x, x = a) (app_ids apps)).
Proof.
  unfold app_ids. induction apps as [|r rows IH]; [done|].
  simpl. rewrite !filter_cons. case_decide; simpl; by rewrite IH.
Qed.

Lemma loc_bcp_series a :
  2 ≤ length (filter (λ x, x = a) (app_ids apps)) → loc_bcp apps a = OK Series.
Proof.
  rewrite <- rows_of_id. unfold loc_bcp.
  destruct (filter _ apps) as [|r [|r' l]]; simpl; intros; first [lia|done].
Qed.

Lemma loc_bcp_present a : a ∈ app_ids apps → ∃ c, loc_bcp apps a = OK c.
Proof.
  intros Hin. unfold loc_bcp.
  assert (Hlen : 0 < length (filter (λ r, app_instance_id r = a) apps)).
  { rewrite rows_of_id.
    assert (Ha : a ∈ filter (λ x, x = a) (app_ids apps)) by by apply list_elem_of_filter.
    destruct (filter _ (app_ids apps)); [by apply elem_of_nil in Ha|simpl; lia]. }
  destruct (filter _ apps) as [|r [|r' l]]; simpl in Hlen; [lia|by eexists..].
Qed.

Lemma with_keys_present l :
  Forall (λ a, a ∈ app_ids apps) l →
  ∃ keyed, with_keys apps l = OK keyed ∧ length keyed = length l ∧
    ∀ a, a ∈ l → loc_bcp apps a = OK Series → (a, Series) ∈ keyed.
Proof.
  induction 1 as [|x l Hx _ (keyed & Hk & Hlen & Hser)]; simpl.
  - exists []. split; [done|]. split; [done|]. by intros a ?%elem_of_nil.
  - destruct (loc_bcp_present x Hx) as [c Hc]. rewrite Hc, Hk. simpl.
    exists ((x, c) :: keyed). split; [done|]. split; [simpl; by rewrite Hlen|].
    intros a Ha Hs. apply elem_of_cons in Ha as [->|Ha].
    + rewrite Hc in Hs. injection Hs as ->. by left.
    + right. by apply Hser.
Qed.

(** sorting the instances of an environment in which an id has two rows *)
Lemma sorted_by_bcp_duplicate env :
  ¬ NoDup (all_env_apps apps env) →
  sorted_by_bcp apps (all_env_apps apps env) = Raise ValueError.
Proof.
  intros Hnd. destruct (twice_in_list _ Hnd) as [a Ha].
  assert (Hin : a ∈ all_env_apps apps env).
  { destruct (filter (λ x, x = a) (all_env_apps apps env)) as [|x l] eqn:E;
      [simpl in Ha; lia|].
    assert (Hx : x ∈ filter (λ x, x = a) (all_env_apps apps env)) by (rewrite E; by left).
    apply list_elem_of_filter in Hx as [-> Hx]. done. }
  assert (Hlen : 2 ≤ length (all_env_apps apps env)).
  { etrans; [exact Ha|]. apply sublist_length, sublist_filter. }
  assert (Hser : loc_bcp apps a = OK Series).
  { apply loc_bcp_series. etrans; [exact Ha|]. apply filter_filter_length. }
  destruct (with_keys_present _ (all_env_apps_known apps env)) as (keyed & Hk & Hl & Hs).
  unfold sorted_by_bcp. rewrite Hk. simpl.
  replace (match length keyed with S (S _) => true | _ => false end) with true
    by (destruct keyed as [|k1 [|k2 keyed']]; simpl in Hl; first [lia|done]).
  destruct (forallb _ keyed) eqn:E; [|done].
  rewrite forallb_forall in E. specialize (E (a, Series)). simpl in E.
  rewrite <- list_elem_of_In in E. by specialize (E (Hs a Hin Hser)).
Qed.

Lemma equalize_env_duplicate tw env s :
  ¬ NoDup (all_env_apps apps env) → equalize_env apps tw env s = (Raise ValueError, s).
Proof. intros Hnd. unfold equalize_env. by rewrite sorted_by_bcp_duplicate. Qed.

Lemma equalize_env_zero env s :
  NoDup (app_ids apps) →
  equalize_env apps 0 env s
  = if decide (all_env_apps apps env = [])
    then (OK (), set_env_waves env [] s) else (Raise ZeroDivisionError, s).
Proof.
  intros Hnd. unfold equalize_env. rewrite sorted_by_bcp_env by done.
  unfold mbind, M_bind, lift.
  pose proof (risk_order_length apps env) as Hlen.
  destruct (Nat.eqb_spec (length (risk_order apps env)) 0) as [H0|H0]; case_decide as Hd.
  - done.
  - rewrite H0 in Hlen. symmetry in Hlen. by apply nil_length_inv in Hlen.
  - rewrite Hd in Hlen. simpl in Hlen. lia.
  - done.
Qed.

(** X14. The equalizer with [target_waves = 0], the ids of the table being
    distinct: it raises ZeroDivisionError at the first environment that has
    an instance (for prod after the nonprod waves were replaced by the empty
    list), and returns two empty wave lists when no environment has one. *)
Theorem equalizer_without_waves (s : Waves) :
  NoDup (app_ids apps) →
  equalize_waves apps 0 s
  = if decide (all_env_apps apps Nonprod = [])
    then if decide (all_env_apps apps Prod = [])
         then (OK (), {| nonprod := []; prod := [] |})
         else (Raise ZeroDivisionError, set_env_waves Nonprod [] s)
    else (Raise ZeroDivisionError, s).
Proof.
  intros Hnd. unfold equalize_waves. simpl. unfold mbind, M_bind.
  rewrite (equalize_env_zero Nonprod s Hnd). case_decide; [|done].
  rewrite (equalize_env_zero Prod _ Hnd). case_decide; done.
Qed.

(** X15. When two rows of the application table have the same id and the id
    has the suffix of an environment, the sort of the equalizer compares a
    Series and raises ValueError: [equalize_waves] raises it at once when the
    environment is nonprod, it never returns in either case, and so
    [enforce_constraints] never returns an assignment. *)
Theorem equalizer_rejects_duplicate_ids (deps : list DepRow) (tw : nat) (env : Env)
    (s : Waves) :
  ¬ NoDup (all_env_apps apps env) →
  (env = Nonprod → equalize_waves apps tw s = (Raise ValueError, s)) ∧
  (∃ e s', equalize_waves apps tw s = (Raise e, s')) ∧
  (∃ e s', enforce_constraints apps deps tw s = (Raise e, s')).
Proof.
  intros Hnd.
  assert (Heq : ∀ s0, ∃ e s', equalize_waves apps tw s0 = (Raise e, s')).
  { intros s0. unfold equalize_waves. simpl. unfold mbind, M_bind.
    destruct env.
    - rewrite equalize_env_duplicate by done. eauto.
    - destruct (equalize_env apps tw Nonprod s0) as [[[]|e] s1]; [|eauto].
      rewrite equalize_env_duplicate by done. eauto. }
  split; [|split].
  - intros ->. unfold equalize_waves. simpl. unfold mbind, M_bind.
    by rewrite equalize_env_duplicate.
  - apply Heq.
  - unfold enforce_constraints.
    apply bind_raises. intros _ s1. apply bind_raises. intros _ s2.
    apply bind_raises. intros _ s3. apply Heq.
Qed.

End Equalizer_errors.

(** ** The properties of the validator and of the equalizer on the example data *)

Lemma validator_structural_checks_witness :
  validate_waves scenario_apps [] "louvain" scenario_waves
    = (OK (fst scenario_report, snd scenario_report), scenario_waves) ∧
  snd scenario_report = wave_stats "louvain" scenario_waves ∧
  length (snd scenario_report) = length (nonprod scenario_waves) + length (prod scenario_waves) ∧
  (∀ env expected actual,
     wave_count_mismatch "louvain" env expected actual ∈ fst scenario_report ↔
     expected = 8 ∧ actual = length (env_waves env scenario_waves) ∧ actual ≠ 8) ∧
  (∀ env i n range,
     wave_size_out_of_bounds "louvain" env i n range ∈ fst scenario_report ↔
     range = (15, 25) ∧ (∃ w, env_waves env scenario_waves !! i = Some w ∧ length w = n) ∧
     (n < 15 ∨ 25 < n)) ∧
  (∀ env i a,
     env_exclusivity_violation "louvain" env i a ∈ fst scenario_report ↔
     ∃ w, env_waves env scenario_waves !! i = Some w ∧ a ∈ w
          ∧ endswith a (env_suffix env) = false).
Proof.
  assert (H : validate_waves scenario_apps [] "louvain" scenario_waves
              = (OK (fst scenario_report, snd scenario_report), scenario_waves))
    by (vm_compute; reflexivity).
  split; [exact H|].
  exact (validator_structural_checks scenario_apps [] "louvain" scenario_waves
           (fst scenario_report) (snd scenario_report) scenario_waves H).
Defined.

Lemma final_report_structure_witness :
  NoDup (app_ids example_apps) ∧ shaped (known example_apps) 8 example_waves ∧
  ∃ issues stats final,
    (enforce_constraints example_apps example_deps 8;;
     validate_waves example_apps example_deps "louvain") example_waves
      = (OK (issues, stats), final) ∧
    length stats = 16 ∧
    (∀ env expected actual, wave_count_mismatch "louvain" env expected actual ∉ issues) ∧
    (∀ env i a, env_exclusivity_violation "louvain" env i a ∉ issues) ∧
    (∀ env,
       (∃ i n range, wave_size_out_of_bounds "louvain" env i n range ∈ issues) ↔
       length (all_env_apps example_apps env) < 120
       ∨ 200 < length (all_env_apps example_apps env)).
Proof.
  split; [exact example_apps_distinct|]. split; [exact example_waves_shaped|].
  apply (final_report_structure example_apps example_deps "louvain" example_waves);
    [exact example_apps_distinct|exact example_waves_shaped].
Defined.

Lemma validator_needs_known_ids_witness :
  NoDup (app_ids example_apps) ∧
  ((∀ env w a, w ∈ env_waves env example_waves → a ∈ w → a ∈ app_ids example_apps) →
   ∃ report, validate_waves example_apps example_deps "louvain" example_waves
             = (OK report, example_waves)) ∧
  (∀ env w a, w ∈ env_waves env example_waves → a ∈ w → a ∉ app_ids example_apps →
   validate_waves example_apps example_deps "louvain" example_waves
   = (Raise KeyError, example_waves)).
Proof.
  split; [exact example_apps_distinct|].
  apply (validator_needs_known_ids example_apps example_deps example_apps_distinct
           "louvain" example_waves).
Defined.

Lemma equalizer_without_waves_witness :
  NoDup (app_ids example_apps) ∧
  equalize_waves example_apps 0 example_waves
  = if decide (all_env_apps example_apps Nonprod = [])
    then if decide (all_env_apps example_apps Prod = [])
         then (OK (), {| nonprod := []; prod := [] |})
         else (Raise ZeroDivisionError, set_env_waves Nonprod [] example_waves)
    else (Raise ZeroDivisionError, example_waves).
Proof.
  split; [exact example_apps_distinct|].
  apply (equalizer_without_waves example_apps example_waves).
  exact example_apps_distinct.
Defined.

Lemma duplicate_apps_prod : ¬ NoDup (all_env_apps duplicate_apps Prod).
Proof. apply (bool_decide_unpack _). vm_compute. exact I. Defined.

Lemma equalizer_rejects_duplicate_ids_witness :
  ¬ NoDup (all_env_apps duplicate_apps Prod) ∧
  (Prod = Nonprod → equalize_waves duplicate_apps 8 example_waves
                    = (Raise ValueError, example_waves)) ∧
  (∃ e s', equalize_waves duplicate_apps 8 example_waves = (Raise e, s')) ∧
  (∃ e s', enforce_constraints duplicate_apps [] 8 example_waves = (Raise e, s')).
Proof.
  split; [exact duplicate_apps_prod|].
  apply (equalizer_rejects_duplicate_ids duplicate_apps [] 8 Prod example_waves).
  exact duplicate_apps_prod.
Defined.

(** ** The sanitizer *)

#[local] Set Warnings "-clear-no-such-hyp".

(** what one wave of the filter keeps *)
Lemma sanitize_wave_fold env (w acc : list string) (seen : gset string) :
  ∃ added,
    (foldl (λ '(newlist, seen) a,
              if negb (endswith a (env_suffix env)) then (newlist, seen)
              else if bool_decide (a ∈ seen) then (newlist, seen)
              else (newlist ++ [a], seen ∪ {[a]}))
           (acc, seen) w
     = (acc ++ added, seen ∪ list_to_set added)) ∧
    NoDup added ∧
    (∀ a, a ∈ added → (a ∉ seen) ∧ a ∈ w ∧ endswith a (env_suffix env) = true) ∧
    (∀ a, a ∈ w → endswith a (env_suffix env) = true →
          a ∈ seen ∪ list_to_set added).
Proof.
  revert acc seen. induction w as [|x w IH]; intros acc seen; simpl.
  - exists []. rewrite app_nil_r. split; [f_equal; set_solver|].
    split; [constructor|]. split; [by intros a ?%elem_of_nil|by intros a ?%elem_of_nil].
  - destruct (endswith x (env_suffix env)) eqn:Hx; simpl.
    2:{ destruct (IH acc seen) as (added & Heq & Hnd & Hin & Hcov).
        exists added. split; [done|]. split; [done|]. split.
        - intros a Ha. destruct (Hin a Ha) as (? & ? & ?). split; [done|].
          split; [by right|done].
        - intros a Ha Hs. apply elem_of_cons in Ha as [->|Ha]; [congruence|].
          by apply Hcov. }
    case_bool_decide as Hseen.
    + destruct (IH acc seen) as (added & Heq & Hnd & Hin & Hcov).
      exists added. split; [done|]. split; [done|]. split.
      * intros a Ha. destruct (Hin a Ha) as (? & ? & ?). split; [done|].
        split; [by right|done].
      * intros a Ha Hs. apply elem_of_cons in Ha as [->|Ha]; [set_solver|].
        by apply Hcov.
    + destruct (IH (acc ++ [x]) (seen ∪ {[x]})) as (added & Heq & Hnd & Hin & Hcov).
      exists (x :: added). split.
      { rewrite Heq. f_equal; [by rewrite <- app_assoc|]. set_solver. }
      split.
      { apply NoDup_cons. split; [|done]. intros Hx'. apply Hin in Hx' as [Hx' _].
        set_solver. }
      split.
      * intros a Ha. apply elem_of_cons in Ha as [->|Ha].
        -- split; [done|]. split; [by left|done].
        -- destruct (Hin a Ha) as (Hs & ? & ?). split; [set_solver|].
           split; [by right|done].
      * intros a Ha Hs. apply elem_of_cons in Ha as [->|Ha]; [set_solver|].
        specialize (Hcov a Ha Hs). set_solver.
Qed.

Lemma sanitize_wave_spec env (w : list string) (seen : gset string) :
  ∃ newlist,
    sanitize_wave env w seen = (newlist, seen ∪ list_to_set newlist) ∧
    NoDup newlist ∧
    (∀ a, a ∈ newlist → (a ∉ seen) ∧ a ∈ w ∧ endswith a (env_suffix env) = true) ∧
    (∀ a, a ∈ w → endswith a (env_suffix env) = true →
          a ∈ seen ∪ list_to_set newlist).
Proof. apply (sanitize_wave_fold env w [] seen). Qed.

Lemma sanitized_spec env (ws : list (list string)) (seen : gset string) :
  ∃ ws',
    sanitized env ws seen = (ws', seen ∪ list_to_set (concat ws')) ∧
    length ws' = length ws ∧
    NoDup (concat ws') ∧
    (∀ a, a ∈ concat ws' → (a ∉ seen) ∧ a ∈ concat ws ∧ endswith a (env_suffix env) = true) ∧
    (∀ a, a ∈ concat ws → endswith a (env_suffix env) = true →
          a ∈ seen ∪ list_to_set (concat ws')).
Proof.
  revert seen. induction ws as [|w ws IH]; intros seen; simpl.
  - exists []. simpl. split; [f_equal; set_solver|]. split; [done|].
    split; [constructor|]. split; by intros a ?%elem_of_nil.
  - destruct (sanitize_wave_spec env w seen) as (nl & -> & Hnd & Hin & Hcov).
    destruct (IH (seen ∪ list_to_set nl)) as (ws' & -> & Hlen & Hnd' & Hin' & Hcov').
    exists (nl :: ws'). simpl. split; [f_equal; set_solver|].
    split; [by rewrite Hlen|]. split.
    { apply NoDup_app. split; [done|]. split; [|done].
      intros a Ha Ha'. apply Hin' in Ha' as [Hs _]. set_solver. }
    split.
    + intros a Ha. apply elem_of_app in Ha as [Ha|Ha].
      * destruct (Hin a Ha) as (? & ? & ?). split; [done|]. split; [|done].
        apply elem_of_app. by left.
      * destruct (Hin' a Ha) as (? & ? & ?). split; [set_solver|]. split; [|done].
        apply elem_of_app. by right.
    + intros a Ha Hs. apply elem_of_app in Ha as [Ha|Ha].
      * specialize (Hcov a Ha Hs). set_solver.
      * specialize (Hcov' a Ha Hs). set_solver.
Qed.

(** the first loop of the sanitizer on the waves from index [length pre] on *)
Lemma sanitize_loop_run env (pre r : list (list string)) (seen : gset string) s :
  env_waves env s = pre ++ r →
  for_each (zip (seq (length pre) (length r)) r)
    (λ '(i, w) seen,
       let '(newlist, seen') := sanitize_wave env w seen in
       write_wave env i newlist;; mret seen') seen s
  = (OK (snd (sanitized env r seen)),
     set_env_waves env (pre ++ fst (sanitized env r seen)) s).
Proof.
  revert pre seen s. induction r as [|w r IH]; intros pre seen s Hs.
  - simpl. rewrite app_nil_r in *. by rewrite <- Hs, set_env_waves_id.
  - cbn [length seq zip zip_with for_each sanitized].
    destruct (sanitize_wave env w seen) as [nl seen1] eqn:E1.
    destruct (sanitized env r seen1) as [r' seen2] eqn:E2.
    set (s1 := set_env_waves env ((pre ++ [nl]) ++ r) s).
    rewrite (bind_run _ _ s seen1 s1).
    2:{ unfold mbind, M_bind. rewrite write_wave_run.
        2:{ rewrite Hs, length_app. simpl. lia. }
        rewrite Hs, insert_app_r_alt, Nat.sub_diag by lia. simpl.
        unfold s1. by rewrite <- app_assoc. }
    specialize (IH (pre ++ [nl]) seen1 s1).
    rewrite length_app in IH. simpl in IH.
    replace (length pre + 1) with (S (length pre)) in IH by lia.
    rewrite IH by (unfold s1; by rewrite env_waves_set).
    rewrite E2. simpl. unfold s1. by rewrite set_env_waves_set, <- app_assoc.
Qed.

(** the second loop of the sanitizer: the missing ids dealt from turn [j] *)
Lemma deal_loop_run env (missing : list string) (j : nat) (seen : gset string) s :
  0 < length (env_waves env s) →
  for_each missing (λ a '(j, seen),
      n ← len_env env;
      if n =? 0 then raise ZeroDivisionError
      else wave_append env (j mod n) a;; mret (S j, seen ∪ {[a]})) (j, seen) s
  = (OK (j + length missing, seen ∪ list_to_set missing),
     set_env_waves env (dealt (env_waves env s) j missing) s).
Proof.
  revert j seen s. induction missing as [|a r IH]; intros j seen s Hlen.
  - simpl. rewrite set_env_waves_id, Nat.add_0_r. unfold mret, M_ret.
    by rewrite (right_id_L ∅ (∪)).
  - cbn [for_each dealt length].
    assert (Hi : j mod length (env_waves env s) < length (env_waves env s))
      by (apply Nat.mod_upper_bound; lia).
    destruct (lookup_lt_is_Some_2 _ _ Hi) as [w Hw]. rewrite Hw.
    set (s1 := set_env_waves env
                 (<[j mod length (env_waves env s) := w ++ [a]]> (env_waves env s)) s).
    rewrite (bind_run _ _ s (S j, seen ∪ {[a]}) s1).
    2:{ rewrite (bind_run _ _ s (length (env_waves env s)) s) by done.
        destruct (Nat.eqb_spec (length (env_waves env s)) 0); [lia|].
        unfold mbind, M_bind. by rewrite (wave_append_run _ _ _ w). }
    rewrite IH by (unfold s1; rewrite env_waves_set, length_insert; lia).
    unfold s1. rewrite env_waves_set, set_env_waves_set.
    f_equal. f_equal. f_equal; [lia|set_solver].
Qed.

Lemma dealt_spec (ws : list (list string)) j missing :
  0 < length ws →
  length (dealt ws j missing) = length ws ∧
  concat (dealt ws j missing) ≡ₚ concat ws ++ missing.
Proof.
  revert ws j. induction missing as [|a r IH]; intros ws j Hlen; simpl.
  - by rewrite app_nil_r.
  - assert (Hi : j mod length ws < length ws) by (apply Nat.mod_upper_bound; lia).
    destruct (lookup_lt_is_Some_2 _ _ Hi) as [w Hw]. rewrite Hw.
    destruct (IH (<[j mod length ws := w ++ [a]]> ws) (S j)) as [IH1 IH2];
      [rewrite length_insert; lia|].
    rewrite IH1, length_insert. split; [done|]. rewrite IH2.
    pose proof (concat_insert_perm ws _ w (w ++ [a]) Hw) as Hp.
    assert (Hq : concat (<[j mod length ws := w ++ [a]]> ws) ≡ₚ concat ws ++ [a]).
    { apply (Permutation_app_inv_r w). rewrite Hp. solve_Permutation. }
    rewrite Hq. by rewrite <- app_assoc.
Qed.

Section Sanitizer_run.
Context (apps : list AppRow) (tw : nat).

Lemma sanitize_env_run env (seen : gset string) s :
  (pad_waves tw env;;
   ws ← read_env env;
   for_each (enumerate ws) (λ '(i, w) seen,
     let '(newlist, seen') := sanitize_wave env w seen in
     write_wave env i newlist;; mret seen') seen) s
  = (OK (snd (sanitized env
                (env_waves env s ++ replicate (tw - length (env_waves env s)) []) seen)),
     set_env_waves env
       (fst (sanitized env
               (env_waves env s ++ replicate (tw - length (env_waves env s)) []) seen)) s).
Proof.
  set (ws0 := env_waves env s ++ replicate (tw - length (env_waves env s)) []).
  rewrite (bind_run _ _ s () (set_env_waves env ws0 s)).
  2:{ unfold pad_waves. rewrite (bind_run _ _ s (length (env_waves env s)) s) by done.
      apply pad_run. }
  rewrite (bind_run _ _ _ ws0 (set_env_waves env ws0 s))
    by (unfold read_env, gets; by rewrite env_waves_set).
  unfold enumerate.
  rewrite (sanitize_loop_run env [] ws0 seen) by by rewrite env_waves_set.
  simpl. by rewrite set_env_waves_set.
Qed.

Lemma deal_env_run env (seen : gset string) s :
  0 < length (env_waves env s) →
  (n ← len_env env;
   (if n =? 0 then write_env env (replicate tw []) else mret ());;
   '(_, seen') ← for_each (filter (λ a, a ∉ seen) (all_env_apps apps env)) (λ a '(j, seen),
     n ← len_env env;
     if n =? 0 then raise ZeroDivisionError
     else wave_append env (j mod n) a;; mret (S j, seen ∪ {[a]})) (0, seen);
   mret seen') s
  = (OK (seen ∪ list_to_set (filter (λ a, a ∉ seen) (all_env_apps apps env))),
     set_env_waves env
       (dealt (env_waves env s) 0 (filter (λ a, a ∉ seen) (all_env_apps apps env))) s).
Proof.
  intros Hlen.
  rewrite (bind_run _ _ s (length (env_waves env s)) s) by done.
  destruct (Nat.eqb_spec (length (env_waves env s)) 0); [lia|].
  rewrite (bind_run _ _ s () s) by done.
  rewrite (bind_run _ _ _ _ _ (deal_loop_run env _ 0 seen s Hlen)). done.
Qed.

Lemma sanitize_waves_run s :
  0 < tw → sanitize_waves apps tw s = (OK (), sanitized_waves apps tw s).
Proof.
  intros Htw. unfold sanitize_waves. cbn [for_each envs].
  set (np0 := nonprod s ++ replicate (tw - length (nonprod s)) []).
  set (p0 := prod s ++ replicate (tw - length (prod s)) []).
  destruct (sanitized_spec Nonprod np0 ∅) as (np1 & Enp & Lnp & _).
  destruct (sanitized_spec Prod p0 (∅ ∪ list_to_set (concat np1))) as (p1 & Ep & Lp & _).
  set (seen1 := (∅ ∪ list_to_set (concat np1) : gset string)) in *.
  set (seen2 := seen1 ∪ list_to_set (concat p1)) in *.
  set (s1 := set_env_waves Nonprod np1 s).
  set (s2 := set_env_waves Prod p1 s1).
  assert (Hlen0 : ∀ l : list (list string), tw ≤ length (l ++ replicate (tw - length l) [])).
  { intros l. rewrite length_app, length_replicate. lia. }
  assert (H1 : (for_each [Nonprod; Prod] (λ env seen,
                  pad_waves tw env;;
                  ws ← read_env env;
                  for_each (enumerate ws) (λ '(i, w) seen,
                    let '(newlist, seen') := sanitize_wave env w seen in
                    write_wave env i newlist;; mret seen') seen) (∅ : gset string)) s
               = (OK seen2, s2)).
  { cbn [for_each].
    rewrite (bind_run _ _ s seen1 s1).
    2:{ rewrite sanitize_env_run. simpl. fold np0. by rewrite Enp. }
    rewrite (bind_run _ _ s1 seen2 s2).
    2:{ rewrite sanitize_env_run. simpl. fold p0. by rewrite Ep. }
    done. }
  rewrite (bind_run _ _ _ _ _ H1).
  set (mnp := filter (λ a, a ∉ seen2) (all_env_apps apps Nonprod)).
  set (mp := filter (λ a, a ∉ seen2 ∪ list_to_set mnp) (all_env_apps apps Prod)).
  rewrite (bind_run _ _ s2 (seen2 ∪ list_to_set mnp ∪ list_to_set mp)
             (set_env_waves Prod (dealt p1 0 mp)
                (set_env_waves Nonprod (dealt np1 0 mnp) s2))).
  2:{ rewrite (bind_run _ _ s2 (seen2 ∪ list_to_set mnp)
                 (set_env_waves Nonprod (dealt np1 0 mnp) s2)).
      2:{ etrans; [apply deal_env_run|done]. simpl. rewrite Lnp.
          pose proof (Hlen0 (nonprod s)) as Hl. fold np0 in Hl. lia. }
      rewrite (bind_run _ _ _ (seen2 ∪ list_to_set mnp ∪ list_to_set mp)
                 (set_env_waves Prod (dealt p1 0 mp)
                    (set_env_waves Nonprod (dealt np1 0 mnp) s2))).
      2:{ etrans; [apply deal_env_run|done]. simpl. rewrite Lp.
          pose proof (Hlen0 (prod s)) as Hl. fold p0 in Hl. lia. }
      done. }
  unfold sanitized_waves. fold np0 p0. rewrite Enp. simpl. fold seen1. rewrite Ep. simpl.
  fold seen2 mnp mp. done.
Qed.

End Sanitizer_run.

Lemma concat_padded (l : list (list string)) k : concat (l ++ replicate k []) = concat l.
Proof.
  rewrite concat_app.
  replace (concat (replicate k [])) with (@nil string); [by rewrite app_nil_r|].
  induction k; [done|]. done.
Qed.

Lemma env_suffix_other a env env' :
  env ≠ env' → endswith a (env_suffix env) = true → endswith a (env_suffix env') = false.
Proof.
  intros Hne H. destruct env, env'; try done.
  - change (env_suffix Nonprod) with ("-no" +:+ "nprod") in H.
    apply endswith_longer in H. by apply (endswith_conflict a "nprod" "-prod").
  - change (env_suffix Nonprod) with ("-no" +:+ "nprod").
    destruct (endswith a ("-no" +:+ "nprod")) eqn:Hn; [|done].
    apply endswith_longer in Hn.
    by rewrite (endswith_conflict a "-prod" "nprod") in Hn.
Qed.

(** X16. The contract of the sanitizer, for a positive [target_waves] and
    any assignment: it returns; every environment ends with as many waves as
    it had, and at least [target_waves]; every id left in a wave carries the
    suffix of the wave's environment; every instance of the application
    table is in a wave of its environment; every id in a wave was in a wave
    of that environment before or is an instance of the table; and when the
    ids of the table are distinct no id is twice in the waves. *)
Theorem sanitizer_contract (apps : list AppRow) (tw : nat) (s : Waves) :
  0 < tw →
  ∃ s',
    sanitize_waves apps tw s = (OK (), s') ∧
    (∀ env, length (env_waves env s') = max (length (env_waves env s)) tw) ∧
    (∀ env a, a ∈ concat (env_waves env s') → endswith a (env_suffix env) = true) ∧
    (∀ env a, a ∈ all_env_apps apps env → a ∈ concat (env_waves env s')) ∧
    (∀ env a, a ∈ concat (env_waves env s') →
       a ∈ concat (env_waves env s) ∨ a ∈ all_env_apps apps env) ∧
    (NoDup (app_ids apps) → NoDup (concat (nonprod s') ++ concat (prod s'))).
Proof.
  intros Htw. exists (sanitized_waves apps tw s).
  split; [by apply sanitize_waves_run|].
  unfold sanitized_waves.
  set (np0 := nonprod s ++ replicate (tw - length (nonprod s)) []).
  set (p0 := prod s ++ replicate (tw - length (prod s)) []).
  destruct (sanitized_spec Nonprod np0 ∅) as (np1 & Enp & Lnp & NDnp & INnp & COVnp).
  rewrite Enp. cbn [fst snd].
  set (seen1 := (∅ ∪ list_to_set (concat np1) : gset string)) in *.
  destruct (sanitized_spec Prod p0 seen1) as (p1 & Ep & Lp & NDp & INp & COVp).
  rewrite Ep. cbn [fst snd].
  set (seen2 := seen1 ∪ list_to_set (concat p1)) in *.
  set (mnp := filter (λ a, a ∉ seen2) (all_env_apps apps Nonprod)).
  set (mp := filter (λ a, a ∉ seen2 ∪ list_to_set mnp) (all_env_apps apps Prod)).
  assert (Lnp0 : length np0 = max (length (nonprod s)) tw)
    by (unfold np0; rewrite length_app, length_replicate; lia).
  assert (Lp0 : length p0 = max (length (prod s)) tw)
    by (unfold p0; rewrite length_app, length_replicate; lia).
  destruct (dealt_spec np1 0 mnp) as [DLnp DPnp]; [lia|].
  destruct (dealt_spec p1 0 mp) as [DLp DPp]; [lia|].
  assert (Cnp0 : concat np0 = concat (nonprod s)) by apply concat_padded.
  assert (Cp0 : concat p0 = concat (prod s)) by apply concat_padded.
  assert (Smnp : ∀ a, a ∈ mnp ↔ (a ∉ seen2) ∧ a ∈ all_env_apps apps Nonprod)
    by (intros a; unfold mnp; by rewrite list_elem_of_filter).
  assert (Smp : ∀ a, a ∈ mp ↔ (a ∉ seen2 ∪ list_to_set mnp) ∧ a ∈ all_env_apps apps Prod)
    by (intros a; unfold mp; by rewrite list_elem_of_filter).
  assert (Ssuf : ∀ env a, a ∈ all_env_apps apps env → endswith a (env_suffix env) = true).
  { intros env a Ha. pose proof (all_env_apps_suffix apps env) as Hs.
    rewrite Forall_forall in Hs. by apply Hs. }
  assert (S1 : ∀ a, a ∈ seen1 ↔ a ∈ concat np1) by (intros a; unfold seen1; set_solver).
  assert (S2 : ∀ a, a ∈ seen2 ↔ a ∈ concat np1 ∨ a ∈ concat p1)
    by (intros a; unfold seen2; set_solver).
  split; [|split; [|split; [|split]]].
  - intros []; simpl; lia.
  - intros [] a; simpl; [rewrite DPnp|rewrite DPp]; rewrite elem_of_app; intros [Ha|Ha].
    + by apply INnp.
    + apply Ssuf. by apply Smnp.
    + by apply INp.
    + apply Ssuf. by apply Smp.
  - intros [] a Ha; simpl; [rewrite DPnp|rewrite DPp]; rewrite elem_of_app.
    + destruct (decide (a ∈ seen2)) as [Hs|Hs]; [|right; by apply Smnp].
      left. apply S2 in Hs as [Hs|Hs]; [done|].
      apply INp in Hs as (_ & _ & Hs). apply Ssuf in Ha.
      by rewrite (env_suffix_other a Nonprod Prod) in Hs.
    + destruct (decide (a ∈ seen2 ∪ list_to_set mnp)) as [Hs|Hs]; [|right; by apply Smp].
      left. apply Ssuf in Ha. apply elem_of_union in Hs as [Hs|Hs].
      * apply S2 in Hs as [Hs|Hs]; [|done].
        apply INnp in Hs as (_ & _ & Hs).
        by rewrite (env_suffix_other a Prod Nonprod) in Hs.
      * apply elem_of_list_to_set, Smnp in Hs as [_ Hs]. apply Ssuf in Hs.
        by rewrite (env_suffix_other a Prod Nonprod) in Hs.
  - intros [] a; simpl; [rewrite DPnp|rewrite DPp]; rewrite elem_of_app; intros [Ha|Ha].
    + left. rewrite <- Cnp0. by apply INnp.
    + right. by apply Smnp.
    + left. rewrite <- Cp0. by apply INp.
    + right. by apply Smp.
  - intros Hnd. simpl. rewrite DPnp, DPp.
    assert (NDall : ∀ env, NoDup (all_env_apps apps env)).
    { intros env. unfold all_env_apps. by apply NoDup_filter. }
    apply NoDup_app. split; [|split].
    + apply NoDup_app. split; [done|]. split; [|by apply NoDup_filter].
      intros a Ha Hm. apply Smnp in Hm as [Hm _]. apply Hm, S2. by left.
    + intros a Ha Hb. apply elem_of_app in Ha as [Ha|Ha];
        apply elem_of_app in Hb as [Hb|Hb].
      * apply INp in Hb as (Hb & _). apply Hb, S1. done.
      * apply Smp in Hb as [Hb _]. apply Hb, elem_of_union. left. apply S2. by left.
      * apply Smnp in Ha as [Ha _]. apply Ha, S2. by right.
      * apply Smp in Hb as [Hb _]. apply Hb, elem_of_union. right.
        by apply elem_of_list_to_set.
    + apply NoDup_app. split; [done|]. split; [|by apply NoDup_filter].
      intros a Ha Hm. apply Smp in Hm as [Hm _]. apply Hm, elem_of_union. left.
      apply S2. by right.
Qed.

Lemma sanitizer_contract_witness :
  0 < 8 ∧
  ∃ s',
    sanitize_waves example_apps 8 scenario_after_rule1 = (OK (), s') ∧
    (∀ env, length (env_waves env s') = max (length (env_waves env scenario_after_rule1)) 8) ∧
    (∀ env a, a ∈ concat (env_waves env s') → endswith a (env_suffix env) = true) ∧
    (∀ env a, a ∈ all_env_apps example_apps env → a ∈ concat (env_waves env s')) ∧
    (∀ env a, a ∈ concat (env_waves env s') →
       a ∈ concat (env_waves env scenario_after_rule1) ∨ a ∈ all_env_apps example_apps env) ∧
    (NoDup (app_ids example_apps) → NoDup (concat (nonprod s') ++ concat (prod s'))).
Proof.
  split; [lia|].
  apply (sanitizer_contract example_apps 8 scenario_after_rule1). lia.
Defined.

(** ** Rules 3 and 4: the dependency step of the repair pass *)

Lemma wave_discard_run_in env i a w s :
  env_waves env s !! i = Some w → a ∈ w →
  wave_discard env i a s
  = (OK (), set_env_waves env (<[i := remove_first a w]> (env_waves env s)) s).
Proof.
  intros Hw Ha. unfold wave_discard.
  rewrite (bind_run _ _ s w s) by by apply read_wave_run.
  rewrite bool_decide_eq_true_2 by done. apply write_wave_run. by eapply lookup_lt_Some.
Qed.

Lemma wave_discard_run_out env i a w s :
  env_waves env s !! i = Some w → a ∉ w → wave_discard env i a s = (OK (), s).
Proof.
  intros Hw Ha. unfold wave_discard.
  rewrite (bind_run _ _ s w s) by by apply read_wave_run.
  by rewrite bool_decide_eq_false_2.
Qed.

Lemma resolve_index_run env i s :
  i < length (env_waves env s) → resolve_index env (Z.of_nat i) s = (OK i, s).
Proof.
  intros Hi. unfold resolve_index.
  rewrite (bind_run _ _ s (length (env_waves env s)) s) by done.
  unfold lift, py_index. case_decide; [|lia]. by rewrite Nat2Z.id.
Qed.

Lemma remove_first_perm a (l : list string) : a ∈ l → remove_first a l ++ [a] ≡ₚ l.
Proof.
  induction l as [|x l IH]; intros Ha; [by apply elem_of_nil in Ha|].
  simpl. case_decide as Hx.
  - subst. by rewrite Permutation_app_comm.
  - apply elem_of_cons in Ha as [->|Ha]; [done|]. simpl. by rewrite IH.
Qed.

Lemma remove_first_NoDup a (l : list string) : NoDup l → a ∉ remove_first a l.
Proof.
  induction l as [|x l IH]; intros Hnd; simpl; [by apply not_elem_of_nil|].
  apply NoDup_cons in Hnd as [Hx Hnd]. case_decide as Hxa.
  - by subst.
  - apply not_elem_of_cons. split; [congruence|by apply IH].
Qed.

Lemma remove_first_other a b (l : list string) : b ≠ a → b ∈ remove_first a l ↔ b ∈ l.
Proof.
  intros Hne. induction l as [|x l IH]; simpl; [done|].
  case_decide as Hx.
  - subst. rewrite elem_of_cons. naive_solver.
  - by rewrite !elem_of_cons, IH.
Qed.

Lemma NoDup_concat_lookup (ws : list (list string)) i w :
  NoDup (concat ws) → ws !! i = Some w → NoDup w.
Proof.
  intros Hnd Hw. rewrite <- (take_drop_middle ws i w Hw), concat_app in Hnd.
  simpl in Hnd. apply NoDup_app in Hnd as (_ & _ & Hnd).
  by apply NoDup_app in Hnd as (Hnd & _).
Qed.

Lemma NoDup_env_waves (s : Waves) env :
  NoDup (concat (nonprod s) ++ concat (prod s)) → NoDup (concat (env_waves env s)).
Proof. intros Hnd. apply NoDup_app in Hnd as (H1 & _ & H2). by destruct env. Qed.

(** a wave assignment in which the id [a] went from wave [ti] to the end of
    wave [si] of the environment *)
Lemma moved_waves_perm (ws : list (list string)) si ti wsi wti a :
  si ≠ ti → ws !! si = Some wsi → ws !! ti = Some wti → a ∈ wti →
  concat (<[si := wsi ++ [a]]> (<[ti := remove_first a wti]> ws)) ≡ₚ concat ws.
Proof.
  intros Hne Hsi Hti Ha.
  assert (H1 : <[ti := remove_first a wti]> ws !! si = Some wsi)
    by by rewrite list_lookup_insert_ne.
  pose proof (concat_insert_perm _ si wsi (wsi ++ [a]) H1) as P1.
  pose proof (concat_insert_perm ws ti wti (remove_first a wti) Hti) as P2.
  pose proof (remove_first_perm a wti Ha) as R.
  apply (Permutation_app_inv_r (wsi ++ wti)).
  transitivity ((concat (<[ti := remove_first a wti]> ws) ++ wti) ++ wsi ++ [a]).
  - rewrite app_assoc, P1. solve_Permutation.
  - rewrite P2. rewrite <- R at 2. solve_Permutation.
Qed.

(** the ids other than [a] stay in their waves *)
Lemma moved_waves_other (ws : list (list string)) si ti wsi wti a b j :
  si ≠ ti → ws !! si = Some wsi → ws !! ti = Some wti → b ≠ a →
  (∃ w, <[si := wsi ++ [a]]> (<[ti := remove_first a wti]> ws) !! j = Some w ∧ b ∈ w) ↔
  (∃ w, ws !! j = Some w ∧ b ∈ w).
Proof.
  intros Hne Hsi Hti Hb.
  assert (Hlsi : si < length ws) by by eapply lookup_lt_Some.
  assert (Hlti : ti < length ws) by by eapply lookup_lt_Some.
  destruct (decide (j = si)) as [->|Hjs].
  - rewrite list_lookup_insert_eq by (rewrite length_insert; lia). split.
    + intros (w & [= <-] & Hw). exists wsi. split; [done|].
      apply elem_of_app in Hw as [Hw|Hw]; [done|].
      apply list_elem_of_singleton in Hw. done.
    + intros (w & Hw & Hin). rewrite Hsi in Hw. injection Hw as <-.
      eexists. split; [done|]. apply elem_of_app. by left.
  - rewrite list_lookup_insert_ne by done.
    destruct (decide (j = ti)) as [->|Hjt].
    + rewrite list_lookup_insert_eq by done. split.
      * intros (w & [= <-] & Hw). exists wti. split; [done|].
        by apply remove_first_other in Hw.
      * intros (w & Hw & Hin). rewrite Hti in Hw. injection Hw as <-.
        eexists. split; [done|]. by apply remove_first_other.
    + by rewrite list_lookup_insert_ne.
Qed.

(** X17. Rules 3 and 4 of the repair pass on one dependency row, with the
    wave-index map of the current assignment: when no id is twice in the
    waves, source and target are in different waves of the same environment,
    the source's wave index is below [target_waves], and either the source's
    BCP score is at least 8, or it is at least 7, the weight is above 7 and
    the target is not in the wave before the source's, the step returns with
    the changed flag set; it takes the target out of its wave and appends it
    to the wave of the source, so that the wave-index map of the result puts
    the target in the source's wave; every other id keeps its entry, and
    still no id is twice in the waves.  (When rule 3 has moved the target,
    rule 4 finds it in the preferred wave and leaves it there.) *)
Theorem dependency_rules_move_target (apps : list AppRow) (tw : nat) (r : DepRow)
    (changed : bool) (s : Waves) (env : Env) (si ti : nat) (q : Q) :
  NoDup (concat (nonprod s) ++ concat (prod s)) →
  wave_index_map s !! source r = Some (env, si) →
  wave_index_map s !! target r = Some (env, ti) →
  si ≠ ti → si < tw →
  loc_bcp apps (source r) = OK (Scalar q) →
  Qle_bool 8 q = true
  ∨ (Qle_bool 7 q = true ∧ Qle_bool (weight r) 7 = false ∧ S ti ≠ si) →
  ∃ s',
    repair_dep apps (wave_index_map s) tw r changed s = (OK true, s') ∧
    wave_index_map s' !! target r = Some (env, si) ∧
    wave_index_map s' !! source r = Some (env, si) ∧
    (∀ a, a ≠ target r → wave_index_map s' !! a = wave_index_map s !! a) ∧
    NoDup (concat (nonprod s') ++ concat (prod s')).
Proof.
  intros Hnd Hsrc Htgt Hne Hlt Hloc Hq.
  destruct (wave_index_map_lookup s _ _ _ Hsrc) as (wsi & Hsi & Hsrc_in).
  destruct (wave_index_map_lookup s _ _ _ Htgt) as (wti & Hti & Htgt_in).
  pose proof (NoDup_env_waves s env Hnd) as NDws.
  assert (Hnot : target r ∉ wsi).
  { intros Hin. apply Hne.
    by apply (NoDup_concat_unique (env_waves env s) si ti wsi wti (target r)). }
  assert (Hlsi : si < length (env_waves env s)) by by eapply lookup_lt_Some.
  assert (Hlti : ti < length (env_waves env s)) by by eapply lookup_lt_Some.
  set (ws1 := <[ti := remove_first (target r) wti]> (env_waves env s)).
  set (ws2 := <[si := wsi ++ [target r]]> ws1).
  set (s1 := set_env_waves env ws1 s).
  set (s2 := set_env_waves env ws2 s).
  assert (H1si : ws1 !! si = Some wsi) by (unfold ws1; by rewrite list_lookup_insert_ne).
  assert (H2si : ws2 !! si = Some (wsi ++ [target r])).
  { unfold ws2. apply list_lookup_insert_eq. unfold ws1. by rewrite length_insert. }
  assert (H2ti : ws2 !! ti = Some (remove_first (target r) wti)).
  { unfold ws2. rewrite list_lookup_insert_ne by done. unfold ws1.
    by apply list_lookup_insert_eq. }
  assert (H7 : Qle_bool 7 q = true).
  { destruct Hq as [Hq|[Hq _]]; [|done].
    apply Qle_bool_iff. apply Qle_bool_iff in Hq.
    eapply Qle_trans; [|exact Hq]. by apply Qle_bool_iff. }
  assert (Hperm : concat (env_waves env s2) ≡ₚ concat (env_waves env s)).
  { unfold s2. rewrite env_waves_set. by apply moved_waves_perm. }
  assert (Hnd2 : NoDup (concat (nonprod s2) ++ concat (prod s2))).
  { destruct env; simpl in *; by rewrite Hperm. }
  assert (Hmove : ∀ flag, (wave_discard env ti (target r);;
                           w ← read_wave env si;
                           if bool_decide (target r ∈ w) then mret flag
                           else wave_append env si (target r);; mret true) s
                          = (OK true, s2)).
  { intros flag.
    rewrite (bind_run _ _ s () s1) by by apply wave_discard_run_in.
    rewrite (bind_run _ _ s1 wsi s1)
      by (apply read_wave_run; unfold s1; by rewrite env_waves_set).
    rewrite bool_decide_eq_false_2 by done.
    rewrite (bind_run _ _ s1 () s2); [done|].
    rewrite (wave_append_run _ _ _ wsi) by (unfold s1; by rewrite env_waves_set).
    unfold s1, s2. by rewrite env_waves_set, set_env_waves_set. }
  exists s2. split; [|split; [|split; [|split]]].
  - unfold repair_dep. cbv zeta. rewrite Hsrc, Htgt.
    case_decide; [done|].
    rewrite (bind_run _ _ s (Scalar q) s) by (unfold lift; by rewrite Hloc).
    rewrite (bind_run _ _ s (Qle_bool 8 q) s) by done.
    rewrite (proj2 (Nat.eqb_neq si ti)) by done.
    rewrite (proj2 (Nat.leb_gt tw si)) by lia.
    destruct (Qle_bool 8 q) eqn:E8; cbn [negb andb].
    + rewrite (bind_run _ _ s true s2) by (unfold try_or; by rewrite Hmove).
      rewrite (bind_run _ _ s2 true s2) by (unfold lift; simpl; by rewrite H7).
      destruct (true && negb (Qle_bool (weight r) 7)
                && negb ((ti =? si) || (Z.of_nat ti =? Z.of_nat si - 1)%Z)); [|done].
      rewrite (bind_run _ _ s2 () s2).
      2:{ apply (wave_discard_run_out _ _ _ (remove_first (target r) wti)).
          - unfold s2. by rewrite env_waves_set.
          - apply remove_first_NoDup. by eapply NoDup_concat_lookup. }
      rewrite (bind_run _ _ s2 si s2).
      2:{ apply resolve_index_run. unfold s2. rewrite env_waves_set.
          unfold ws2, ws1. by rewrite !length_insert. }
      rewrite (bind_run _ _ s2 (wsi ++ [target r]) s2)
        by (apply read_wave_run; unfold s2; by rewrite env_waves_set).
      rewrite bool_decide_eq_true_2; [done|].
      apply elem_of_app. right. by left.
    + destruct Hq as [?|(_ & Hw & Hadj)]; [done|].
      rewrite (bind_run _ _ s changed s) by done.
      rewrite (bind_run _ _ s true s) by (unfold lift; simpl; by rewrite H7).
      rewrite Hw. rewrite (proj2 (Nat.eqb_neq ti si)) by done.
      rewrite (proj2 (Z.eqb_neq (Z.of_nat ti) (Z.of_nat si - 1))) by lia.
      cbn [negb andb orb].
      rewrite (bind_run _ _ s () s1) by by apply wave_discard_run_in.
      rewrite (bind_run _ _ s1 si s1).
      2:{ apply resolve_index_run. unfold s1. rewrite env_waves_set.
          unfold ws1. by rewrite length_insert. }
      rewrite (bind_run _ _ s1 wsi s1)
        by (apply read_wave_run; unfold s1; by rewrite env_waves_set).
      rewrite bool_decide_eq_false_2 by done.
      rewrite (bind_run _ _ s1 () s2); [done|].
      rewrite (wave_append_run _ _ _ wsi) by (unfold s1; by rewrite env_waves_set).
      unfold s1, s2. by rewrite env_waves_set, set_env_waves_set.
  - apply (wave_index_map_position s2 _ env si (wsi ++ [target r]) Hnd2).
    + unfold s2. by rewrite env_waves_set.
    + apply elem_of_app. right. by left.
  - apply (wave_index_map_position s2 _ env si (wsi ++ [target r]) Hnd2).
    + unfold s2. by rewrite env_waves_set.
    + apply elem_of_app. by left.
  - intros a Ha.
    assert (Hiff : ∀ e j, (∃ w, env_waves e s2 !! j = Some w ∧ a ∈ w) ↔
                          (∃ w, env_waves e s !! j = Some w ∧ a ∈ w)).
    { intros e j. destruct (decide (e = env)) as [->|He].
      - unfold s2. rewrite env_waves_set. by apply moved_waves_other.
      - unfold s2. by rewrite env_waves_set_ne. }
    destruct (wave_index_map s !! a) as [[e j]|] eqn:E.
    + apply wave_index_map_lookup in E. apply Hiff in E as (w & Hw & Hin).
      by apply (wave_index_map_position s2 a e j w).
    + destruct (wave_index_map s2 !! a) as [[e j]|] eqn:E2; [|done].
      apply wave_index_map_lookup in E2. apply Hiff in E2 as (w & Hw & Hin).
      destruct (wave_index_map_some s a e j w Hw Hin) as (e' & j' & E'). congruence.
  - done.
Qed.

(** X22. The dependency step of the repair pass does nothing, whatever
    wave-index map it is given (the map of the start of the pass may be
    stale): for an edge whose ends the map puts in different environments,
    and for an edge inside one environment whose source has one row in the
    table, when neither rule applies, that is when the source's BCP score is
    below 8 or both ends have the same wave index, and the score is below 7,
    or the weight at most 7, or the target's wave index is the source's or
    the one before it.  The step then returns the changed flag it was given
    and leaves the waves as they were. *)
Theorem dependency_rules_idle (apps : list AppRow)
    (idxmap : gmap string (Env * nat)) (tw : nat) (r : DepRow) (changed : bool)
    (s : Waves) (s_env t_env : Env) (si ti : nat) :
  idxmap !! source r = Some (s_env, si) →
  idxmap !! target r = Some (t_env, ti) →
  s_env ≠ t_env
  ∨ (∃ q, loc_bcp apps (source r) = OK (Scalar q) ∧
          (Qle_bool 8 q = false ∨ si = ti) ∧
          (Qle_bool 7 q = false ∨ Qle_bool (weight r) 7 = true ∨ ti = si ∨ S ti = si)) →
  repair_dep apps idxmap tw r changed s = (OK changed, s).
Proof.
  intros Hs Ht Hc. unfold repair_dep. cbv zeta. rewrite Hs, Ht.
  case_decide as Henv; [done|].
  destruct Hc as [Hc|(q & Hq & H3 & H4)]; [done|].
  rewrite (bind_run _ _ s (Scalar q) s) by (unfold lift; by rewrite Hq).
  rewrite (bind_run _ _ s (Qle_bool 8 q) s) by done.
  rewrite (bind_run _ _ s changed s).
  2:{ destruct H3 as [-> | ->]; [done|]. rewrite Nat.eqb_refl.
      by destruct (Qle_bool 8 q). }
  rewrite (bind_run _ _ s (Qle_bool 7 q) s) by done.
  destruct H4 as [-> |[-> |[-> | <-]]].
  - done.
  - by destruct (Qle_bool 7 q).
  - rewrite Nat.eqb_refl. simpl. by rewrite !andb_false_r.
  - replace (Z.of_nat ti =? Z.of_nat (S ti) - 1)%Z with true
      by (symmetry; apply Z.eqb_eq; lia).
    rewrite orb_true_r. simpl. by rewrite !andb_false_r.
Qed.

Lemma dependency_rules_move_target_witness :
  NoDup (concat (nonprod example_waves) ++ concat (prod example_waves)) ∧
  wave_index_map example_waves !! "APP_001-prod" = Some (Prod, 0) ∧
  wave_index_map example_waves !! "APP_002-prod" = Some (Prod, 1) ∧
  0 ≠ 1 ∧ 0 < 8 ∧
  loc_bcp example_apps "APP_001-prod" = OK (Scalar (46 # 5)) ∧
  (Qle_bool 8 (46 # 5) = true
   ∨ (Qle_bool 7 (46 # 5) = true ∧ Qle_bool (15 # 2) 7 = false ∧ 2 ≠ 0)) ∧
  ∃ s',
    repair_dep example_apps (wave_index_map example_waves) 8
      {| source := "APP_001-prod"; target := "APP_002-prod";
         source_type := "application"; weight := 15 # 2 |} false example_waves
      = (OK true, s') ∧
    wave_index_map s' !! "APP_002-prod" = Some (Prod, 0) ∧
    wave_index_map s' !! "APP_001-prod" = Some (Prod, 0) ∧
    (∀ a, a ≠ "APP_002-prod" →
          wave_index_map s' !! a = wave_index_map example_waves !! a) ∧
    NoDup (concat (nonprod s') ++ concat (prod s')).
Proof.
  assert (Hnd : NoDup (concat (nonprod example_waves) ++ concat (prod example_waves)))
    by (apply (bool_decide_unpack _); vm_compute; exact I).
  assert (Hs : wave_index_map example_waves !! "APP_001-prod" = Some (Prod, 0))
    by (vm_compute; reflexivity).
  assert (Ht : wave_index_map example_waves !! "APP_002-prod" = Some (Prod, 1))
    by (vm_compute; reflexivity).
  assert (Hl : loc_bcp example_apps "APP_001-prod" = OK (Scalar (46 # 5)))
    by (vm_compute; reflexivity).
  assert (Hq : Qle_bool 8 (46 # 5) = true
               ∨ (Qle_bool 7 (46 # 5) = true ∧ Qle_bool (15 # 2) 7 = false ∧ 2 ≠ 0))
    by (left; reflexivity).
  split; [exact Hnd|]. split; [exact Hs|]. split; [exact Ht|].
  split; [lia|]. split; [lia|]. split; [exact Hl|]. split; [exact Hq|].
  exact (dependency_rules_move_target example_apps 8
           {| source := "APP_001-prod"; target := "APP_002-prod";
              source_type := "application"; weight := 15 # 2 |}
           false example_waves Prod 0 1 (46 # 5) Hnd Hs Ht
           ltac:(lia) ltac:(lia) Hl Hq).
Defined.

Lemma dependency_rules_idle_witness :
  wave_index_map example_waves !! "APP_001-prod" = Some (Prod, 0) ∧
  wave_index_map example_waves !! "APP_001-nonprod" = Some (Nonprod, 0) ∧
  (Prod ≠ Nonprod
   ∨ (∃ q, loc_bcp example_apps "APP_001-prod" = OK (Scalar q) ∧
           (Qle_bool 8 q = false ∨ 0 = 0) ∧
           (Qle_bool 7 q = false ∨ Qle_bool (15 # 2) 7 = true ∨ 0 = 0 ∨ 1 = 0))) ∧
  repair_dep example_apps (wave_index_map example_waves) 8
    {| source := "APP_001-prod"; target := "APP_001-nonprod";
       source_type := "application"; weight := 15 # 2 |} false example_waves
  = (OK false, example_waves).
Proof.
  assert (Hs : wave_index_map example_waves !! "APP_001-prod" = Some (Prod, 0))
    by (vm_compute; reflexivity).
  assert (Ht : wave_index_map example_waves !! "APP_001-nonprod" = Some (Nonprod, 0))
    by (vm_compute; reflexivity).
  assert (Hc : Prod ≠ Nonprod
               ∨ (∃ q, loc_bcp example_apps "APP_001-prod" = OK (Scalar q) ∧
                       (Qle_bool 8 q = false ∨ 0 = 0) ∧
                       (Qle_bool 7 q = false ∨ Qle_bool (15 # 2) 7 = true ∨ 0 = 0 ∨ 1 = 0)))
    by (left; discriminate).
  split; [exact Hs|]. split; [exact Ht|]. split; [exact Hc|].
  exact (dependency_rules_idle example_apps (wave_index_map example_waves) 8
           {| source := "APP_001-prod"; target := "APP_001-nonprod";
              source_type := "application"; weight := 15 # 2 |}
           false example_waves Prod Nonprod 0 0 Hs Ht Hc).
Defined.

(** ** The initial waves of a partition *)

Lemma env_members_filter (apps : list AppRow) (clusters : list (string * list string)) env :
  env_members apps clusters env
  = filter (λ m, m ∈ app_ids apps ∧ endswith m (env_suffix env))
      (concat (map snd clusters)).
Proof.
  unfold env_members. induction clusters as [|c clusters IH]; simpl; [done|].
  by rewrite filter_app, IH.
Qed.

Lemma elem_of_env_members (apps : list AppRow) (clusters : list (string * list string))
    env a :
  a ∈ env_members apps clusters env ↔
  a ∈ app_ids apps ∧ endswith a (env_suffix env) = true ∧ a ∈ concat (map snd clusters).
Proof.
  rewrite env_members_filter, list_elem_of_filter. split.
  - intros [[Ha Hs] Hin]. split; [done|]. split; [by apply Is_true_true|done].
  - intros (Ha & Hs & Hin). split; [|done]. split; [done|by apply Is_true_true].
Qed.

Lemma clusters_to_waves_concat (apps : list AppRow) (clusters : list (string * list string))
    (env : Env) (tw : nat) :
  0 < tw →
  ∃ ws, clusters_to_waves apps clusters env tw = OK ws ∧
        concat ws = env_members apps clusters env.
Proof.
  intros Htw. unfold clusters_to_waves. rewrite clusters_flattened.
  set (flat := env_members apps clusters env). set (total := length flat).
  assert (Hrem : total mod tw < tw) by (apply Nat.mod_upper_bound; lia).
  pose proof (Nat.div_mod_eq total tw) as Hdm.
  destruct (Nat.eqb_spec total 0) as [H0|H0].
  - eexists. split; [done|]. apply nil_length_inv in H0. rewrite H0.
    clear. induction tw; [done|]. done.
  - destruct (Nat.eqb_spec tw 0); [lia|].
    rewrite wave_sizes_sum by lia.
    destruct (Nat.ltb_spec (total / tw * tw + total mod tw) total); [lia|].
    eexists. split; [done|].
    rewrite slice_waves_concat, wave_sizes_sum, drop_0 by lia.
    apply take_ge. fold total. lia.
Qed.

(** X18. The initial assignment of [build_waves_for_algo], for every
    partition: the function returns 8 waves per environment; the waves of an
    environment, concatenated, are the members of the communities that are
    instances of the application table with the environment's suffix, in the
    order of the partition; so every id in a wave is in the table and
    carries the suffix of its environment; when no member is in two
    communities (or twice in one) no id is twice in the waves; and every
    instance of the table that is a member of a community is in a wave of
    its environment. *)
Theorem initial_waves_of_partition (apps : list AppRow)
    (communities : list (string * list string)) :
  ∃ w,
    build_waves_for_algo apps communities = OK w ∧
    shaped (known apps) 8 w ∧
    (∀ env, concat (env_waves env w) = env_members apps communities env) ∧
    (∀ env a, a ∈ concat (env_waves env w) →
       a ∈ app_ids apps ∧ endswith a (env_suffix env) = true) ∧
    (NoDup (concat (map snd communities)) →
       NoDup (concat (nonprod w) ++ concat (prod w))) ∧
    (∀ env a, a ∈ all_env_apps apps env → a ∈ concat (map snd communities) →
       a ∈ concat (env_waves env w)).
Proof.
  destruct (build_waves_for_algo_shaped apps communities) as (w & Hw & Hsh).
  exists w. split; [done|]. split; [done|].
  assert (Hc : ∀ env, concat (env_waves env w) = env_members apps communities env).
  { unfold build_waves_for_algo in Hw. change TARGET_WAVES_PER_ENV with 8 in Hw.
    destruct (clusters_to_waves_concat apps communities Nonprod 8) as (np & Enp & Cnp);
      [lia|].
    destruct (clusters_to_waves_concat apps communities Prod 8) as (p & Ep & Cp); [lia|].
    rewrite Enp, Ep in Hw. simpl in Hw. injection Hw as <-. by intros []. }
  split; [done|]. split; [|split].
  - intros env a. rewrite Hc, elem_of_env_members. tauto.
  - intros Hnd. change (NoDup (concat (env_waves Nonprod w) ++ concat (env_waves Prod w))).
    rewrite !Hc. apply NoDup_app. split; [|split].
    + rewrite env_members_filter. by apply NoDup_filter.
    + intros a Ha Hb. apply elem_of_env_members in Ha as (_ & Ha & _).
      apply elem_of_env_members in Hb as (_ & Hb & _).
      by rewrite (env_suffix_other a Nonprod Prod) in Hb.
    + rewrite env_members_filter. by apply NoDup_filter.
  - intros env a Ha Hm. rewrite Hc. apply elem_of_env_members.
    unfold all_env_apps in Ha. apply list_elem_of_filter in Ha as [Hs Ha].
    split; [done|]. split; [by apply Is_true_true|done].
Qed.

(** ** The groups of the base applications *)

Lemma compare_lt_trans a b c :
  String.compare a b = Lt → String.compare b c = Lt → String.compare a c = Lt.
Proof.
  exact (@RelationClasses.StrictOrder_Transitive _ _
           OrdersEx.String_as_OT.lt_strorder a b c).
Qed.

Lemma compare_refl a : String.compare a a = Eq.
Proof.
  pose proof (String.compare_antisym a a) as H.
  destruct (String.compare a a); simpl in H; congruence.
Qed.

Lemma compare_lt_ne a b : String.compare a b = Lt → a ≠ b.
Proof. intros H ->. by rewrite compare_refl in H. Qed.

Lemma compare_gt_lt a b : String.compare a b = Gt → String.compare b a = Lt.
Proof. intros H. rewrite String.compare_antisym, H. done. Qed.

(** one more row in a sorted list of groups *)
Lemma group_insert_spec base inst (g : list (string * list string)) :
  StronglySorted key_lt g →
  StronglySorted key_lt (group_insert base inst g) ∧
  ∀ b l, (b, l) ∈ group_insert base inst g ↔
    (b ≠ base ∧ (b, l) ∈ g) ∨
    (b = base ∧ ((∃ l0, (base, l0) ∈ g ∧ l = l0 ++ [inst])
                 ∨ ((∀ l0, (base, l0) ∉ g) ∧ l = [inst]))).
Proof.
  induction g as [|[b0 l0] g IH]; intros Hs.
  - simpl. split; [repeat constructor|].
    intros b l. rewrite list_elem_of_singleton. split.
    + intros [= -> ->]. right. split; [done|]. right. split; [|done].
      intros l0 H. by apply elem_of_nil in H.
    + intros [[_ H]|[-> [(l1 & H & _)|[_ ->]]]]; [by apply elem_of_nil in H
                                                 |by apply elem_of_nil in H|done].
  - apply StronglySorted_inv in Hs as [Hs Hall]. rewrite Forall_forall in Hall.
    destruct (IH Hs) as [IHs IHm]. simpl.
    destruct (String.compare base b0) eqn:Ec.
    + apply String.compare_eq_iff in Ec as ->. split.
      { constructor; [done|]. by apply Forall_forall. }
      intros b l. rewrite (elem_of_cons _ (b, l) (b0, l0 ++ [inst])). split.
      * intros [[= -> ->]|H].
        -- right. split; [done|]. left. exists l0. split; [by left|done].
        -- left. split; [|by right]. apply Hall in H. unfold key_lt in H. simpl in H.
           apply compare_lt_ne in H. done.
      * intros [[Hne H]|[-> [(l1 & H & ->)|[Hno _]]]].
        -- apply elem_of_cons in H as [[= ? ?]|H]; [done|by right].
        -- apply elem_of_cons in H as [[= <-]|H]; [by left|].
           apply Hall in H. unfold key_lt in H. simpl in H.
           by rewrite compare_refl in H.
        -- destruct (Hno l0). by left.
    + split.
      { constructor; [by constructor; [|apply Forall_forall]|].
        constructor; [done|]. apply Forall_forall. intros [b1 l1] H.
        unfold key_lt. simpl. eapply compare_lt_trans; [exact Ec|].
        by apply Hall in H. }
      assert (Hno : ∀ l1, (base, l1) ∉ (b0, l0) :: g).
      { intros l1 H. apply elem_of_cons in H as [[= -> ->]|H].
        - by rewrite compare_refl in Ec.
        - apply Hall in H. unfold key_lt in H. simpl in H.
          pose proof (compare_lt_trans _ _ _ Ec H) as Hbb. by rewrite compare_refl in Hbb. }
      intros b l. rewrite (elem_of_cons _ (b, l) (base, [inst])). split.
      * intros [[= -> ->]|H].
        -- right. split; [done|]. right. done.
        -- left. split; [|done]. intros ->. by apply Hno in H.
      * intros [[Hne H]|[-> [(l1 & H & _)|[_ ->]]]].
        -- by right.
        -- by apply Hno in H.
        -- by left.
    + apply compare_gt_lt in Ec. split.
      { constructor; [done|]. apply Forall_forall. intros [b1 l1] H.
        apply IHm in H as [[_ H]|[-> _]].
        - by apply Hall in H.
        - done. }
      intros b l. rewrite (elem_of_cons _ (b, l) (b0, l0)), IHm. split.
      * intros [[= -> ->]|[[Hne H]|[-> [(l1 & H & ->)|[Hno ->]]]]].
        -- left. split; [by apply compare_lt_ne|by left].
        -- left. split; [done|by right].
        -- right. split; [done|]. left. exists l1. split; [by right|done].
        -- right. split; [done|]. right. split; [|done].
           intros l1 H. apply elem_of_cons in H as [[= -> ->]|H].
           ++ by rewrite compare_refl in Ec.
           ++ by apply Hno in H.
      * intros [[Hne H]|[-> [(l1 & H & ->)|[Hno ->]]]].
        -- apply elem_of_cons in H as [[= -> ->]|H]; [by left|]. right. left. done.
        -- apply elem_of_cons in H as [[= -> ->]|H].
           ++ by rewrite compare_refl in Ec.
           ++ right. right. split; [done|]. left. by exists l1.
        -- right. right. split; [done|]. right. split; [|done].
           intros l1 H. apply (Hno l1). by right.
Qed.

(** [groupby]: the groups are sorted by key, and the group of a base
    application is the list of the ids of its rows, in row order *)
Lemma base_groups_spec (apps : list AppRow) :
  StronglySorted key_lt (base_groups apps) ∧
  ∀ base l, (base, l) ∈ base_groups apps ↔ l ≠ [] ∧ l = instances_of apps base.
Proof.
  unfold base_groups. induction apps as [|r rows IH] using rev_ind.
  - simpl. split; [constructor|]. intros base l. split.
    + by intros H%elem_of_nil.
    + intros [H ->]. done.
  - rewrite foldl_app. simpl. destruct IH as [IHs IHm].
    destruct (group_insert_spec (base_app_id r) (app_instance_id r) _ IHs) as [Hs Hm].
    split; [done|]. intros base l. rewrite Hm.
    unfold instances_of. rewrite filter_app, map_app, filter_cons, filter_nil.
    fold (instances_of rows base).
    split.
    + intros [[Hne H]|[-> [(l0 & H & ->)|[Hno ->]]]].
      * apply IHm in H as [Hl ->]. case_decide; [congruence|].
        simpl. rewrite app_nil_r. done.
      * apply IHm in H as [Hl ->]. case_decide; [|done]. split; [|done].
        by destruct (instances_of rows (base_app_id r)).
      * case_decide; [|done]. simpl.
        destruct (instances_of rows (base_app_id r)) as [|x l0] eqn:E; [done|].
        destruct (Hno (x :: l0)). apply IHm. by rewrite E.
    + intros [Hl ->]. case_decide as Hb.
      * right. split; [done|]. subst base. simpl.
        destruct (instances_of rows (base_app_id r)) as [|x l0] eqn:E.
        -- right. split; [|done].
           intros l0 H. apply IHm in H as [H1 H2]. congruence.
        -- left. exists (x :: l0). split; [|done]. apply IHm. by rewrite E.
      * left. split; [done|]. simpl in *. rewrite app_nil_r in *. by apply IHm.
Qed.

(** ** The sequencing, dependency and mission-critical checks in the report *)


Lemma check_base_emit idxmap alg group issues :
  check_base idxmap alg group issues = issues ++ base_issues idxmap alg group.
Proof.
  unfold check_base, base_issues. destruct group as [base instances]. simpl.
  destruct (filter _ instances) as [|n ns]; [by rewrite app_nil_r|].
  destruct (filter _ instances) as [|p ps]; [by rewrite app_nil_r|].
  destruct (_ <=? _); destruct (_ <? _)%Z; simpl;
    by rewrite ?app_nil_r, <- ?app_assoc.
Qed.

Lemma check_sequencing_run (apps : list AppRow) idxmap alg issues s :
  check_sequencing apps idxmap alg issues s
  = (OK (issues ++ sequencing_issues apps idxmap alg), s).
Proof.
  unfold check_sequencing, sequencing_issues. apply for_each_emit.
  intros g acc _. by rewrite check_base_emit.
Qed.

Lemma foldl_min_attained (f : string → nat) l acc :
  foldl (λ acc a, Nat.min acc (f a)) acc l = acc
  ∨ ∃ p, p ∈ l ∧ foldl (λ acc a, Nat.min acc (f a)) acc l = f p.
Proof.
  revert acc. induction l as [|y l IH]; intros acc; simpl; [by left|].
  destruct (IH (Nat.min acc (f y))) as [H|(p & Hp & H)].
  - rewrite H. destruct (Nat.min_spec acc (f y)) as [[_ ->]|[_ ->]]; [by left|].
    right. exists y. split; [by left|done].
  - right. exists p. split; [by right|done].
Qed.

Lemma min_wave_index_least idxmap x l :
  least (min_wave_index idxmap x l) (map (idx_or_999 idxmap) (x :: l)).
Proof.
  split.
  - unfold min_wave_index.
    destruct (foldl_min_attained (idx_or_999 idxmap) l (idx_or_999 idxmap x))
      as [->|(p & Hp & ->)].
    + by left.
    + right. apply list_elem_of_In, in_map, list_elem_of_In. done.
  - intros m Hm. apply list_elem_of_In, in_map_iff in Hm as (p & <- & Hp).
    apply min_wave_index_le. by apply list_elem_of_In.
Qed.

Lemma least_unique n m l : least n l → least m l → n = m.
Proof. intros [H1 H2] [H3 H4]. apply H2 in H3. apply H4 in H1. lia. Qed.

Lemma elem_of_sequencing_issues (apps : list AppRow) idxmap alg i :
  i ∈ sequencing_issues apps idxmap alg ↔
  ∃ base instances np p,
    (base, instances) ∈ base_groups apps ∧
    filter (λ i, endswith i "-nonprod") instances ≠ [] ∧
    filter (λ i, endswith i "-prod") instances ≠ [] ∧
    least np (map (idx_or_999 idxmap) (filter (λ i, endswith i "-nonprod") instances)) ∧
    least p (map (idx_or_999 idxmap) (filter (λ i, endswith i "-prod") instances)) ∧
    p ≤ np ∧
    (i = nonprod_not_before_prod alg base np p ∨
     i = nonprod_production_gap_too_small alg base (Z.of_nat p - Z.of_nat np)).
Proof.
  unfold sequencing_issues. rewrite elem_of_concat_map. split.
  - intros ([base instances] & Hg & Hi). unfold base_issues in Hi. simpl in Hi.
    destruct (filter _ instances) as [|n ns] eqn:En; [by apply elem_of_nil in Hi|].
    destruct (filter (λ i, endswith i "-prod") instances) as [|p ps] eqn:Ep;
      [by apply elem_of_nil in Hi|].
    exists base, instances, (min_wave_index idxmap n ns), (min_wave_index idxmap p ps).
    rewrite En, Ep. split; [done|]. split; [done|]. split; [done|].
    split; [apply min_wave_index_least|]. split; [apply min_wave_index_least|].
    rewrite gap_condition in Hi.
    destruct (Nat.leb_spec (min_wave_index idxmap p ps) (min_wave_index idxmap n ns));
      simpl in Hi; [|by apply elem_of_nil in Hi].
    split; [done|]. apply elem_of_cons in Hi as [->|Hi]; [by left|].
    apply list_elem_of_singleton in Hi. by right.
  - intros (base & instances & np & p & Hg & Hn & Hp & Lnp & Lp & Hle & Hi).
    exists (base, instances). split; [done|]. unfold base_issues. simpl.
    destruct (filter _ instances) as [|n ns] eqn:En; [done|].
    destruct (filter (λ i, endswith i "-prod") instances) as [|p0 ps] eqn:Ep; [done|].
    rewrite (least_unique _ _ _ (min_wave_index_least idxmap n ns) Lnp).
    rewrite (least_unique _ _ _ (min_wave_index_least idxmap p0 ps) Lp).
    rewrite gap_condition. rewrite (proj2 (Nat.leb_le p np)) by done. simpl.
    destruct Hi as [-> | ->]; [by left|right; by left].
Qed.

Lemma elem_of_dependency_issues (apps : list AppRow) (deps : list DepRow) idxmap alg i :
  i ∈ dependency_issues apps deps idxmap alg ↔
  ∃ r s_env s_idx t_env t_idx,
    r ∈ app_deps deps ∧
    idxmap !! source r = Some (s_env, s_idx) ∧
    idxmap !! target r = Some (t_env, t_idx) ∧
    ((s_env ≠ t_env ∧ i = cross_env_dependency alg (source r) (target r)) ∨
     (s_env = t_env ∧ Qle_bool 8 (bcp_of apps (source r)) = true ∧ s_idx ≠ t_idx ∧
      i = cross_wave_high_bcp alg (source r) (target r) s_idx t_idx) ∨
     (s_env = t_env ∧ Qle_bool 7 (bcp_of apps (source r)) = true ∧
      Qle_bool (weight r) 7 = false ∧ t_idx ≠ s_idx ∧
      (Z.of_nat t_idx ≠ Z.of_nat s_idx - 1)%Z ∧
      i = critical_not_co_migrate alg (source r) (target r) (weight r) s_idx t_idx)).
Proof.
  unfold dependency_issues. rewrite elem_of_concat_map. split.
  - intros (r & Hr & Hi). unfold dep_issues_of in Hi.
    destruct (idxmap !! source r) as [[s_env s_idx]|] eqn:Es; [|by apply elem_of_nil in Hi].
    destruct (idxmap !! target r) as [[t_env t_idx]|] eqn:Et; [|by apply elem_of_nil in Hi].
    exists r, s_env, s_idx, t_env, t_idx. split; [done|]. split; [done|]. split; [done|].
    case_decide as Henv.
    + apply list_elem_of_singleton in Hi. left. done.
    + assert (s_env = t_env) as -> by (destruct (decide (s_env = t_env)); [done|tauto]).
      right. apply elem_of_app in Hi as [Hi|Hi].
      * left. destruct (Qle_bool 8 _) eqn:E8; simpl in Hi; [|by apply elem_of_nil in Hi].
        destruct (Nat.eqb_spec s_idx t_idx); simpl in Hi; [by apply elem_of_nil in Hi|].
        apply list_elem_of_singleton in Hi. done.
      * right. destruct (Qle_bool 7 _) eqn:E7; simpl in Hi; [|by apply elem_of_nil in Hi].
        destruct (Qle_bool (weight r) 7) eqn:Ew; simpl in Hi; [by apply elem_of_nil in Hi|].
        destruct (Nat.eqb_spec t_idx s_idx); simpl in Hi; [by apply elem_of_nil in Hi|].
        destruct (Z.eqb_spec (Z.of_nat t_idx) (Z.of_nat s_idx - 1)); simpl in Hi;
          [by apply elem_of_nil in Hi|].
        apply list_elem_of_singleton in Hi. done.
  - intros (r & s_env & s_idx & t_env & t_idx & Hr & Es & Et & Hi).
    exists r. split; [done|]. unfold dep_issues_of. rewrite Es, Et.
    destruct Hi as [[Hne ->]|[(-> & H8 & Hne & ->)|(-> & H7 & Hw & Hne & Hz & ->)]].
    + case_decide; [|done]. by left.
    + case_decide; [done|]. apply elem_of_app. left. rewrite H8.
      rewrite (proj2 (Nat.eqb_neq s_idx t_idx)) by done. by left.
    + case_decide; [done|]. apply elem_of_app. right. rewrite H7, Hw.
      rewrite (proj2 (Nat.eqb_neq t_idx s_idx)) by done.
      rewrite (proj2 (Z.eqb_neq _ _)) by done. by left.
Qed.

Lemma elem_of_mc_issues (apps : list AppRow) alg s i :
  i ∈ mc_issues apps alg s ↔
  ∃ env idx w a,
    env_waves env s !! idx = Some w ∧ a ∈ w ∧
    mission_critical apps a = true ∧ edge_wave (length (env_waves env s)) idx = true ∧
    i = mission_critical_edge_wave alg env idx a.
Proof.
  split.
  - unfold mc_issues. rewrite elem_of_concat_map.
    intros (env & _ & Hi). unfold mc_issues_env in Hi.
    apply elem_of_concat_map in Hi as ([idx w] & Hw & Hi).
    apply elem_of_enumerate_1 in Hw. unfold mc_issues_wave in Hi. simpl in Hi.
    apply elem_of_concat_map in Hi as (a & Ha & Hi). unfold mc_issue_of in Hi.
    destruct (mission_critical apps a) eqn:Em; simpl in Hi; [|by apply elem_of_nil in Hi].
    destruct (edge_wave _ idx) eqn:Ee; [|by apply elem_of_nil in Hi].
    apply list_elem_of_singleton in Hi. by exists env, idx, w, a.
  - intros (env & idx & w & a & Hw & Ha & Em & Ee & ->).
    eapply mc_issues_elem; eauto.
Qed.

Lemma sequencing_issues_check (apps : list AppRow) idxmap alg :
  Forall (λ i, issue_check i = 1) (sequencing_issues apps idxmap alg).
Proof.
  apply Forall_forall. intros i Hi. apply elem_of_sequencing_issues in Hi
    as (base & ins & np & p & _ & _ & _ & _ & _ & _ & [-> | ->]); done.
Qed.

Lemma dependency_issues_check (apps : list AppRow) (deps : list DepRow) idxmap alg :
  Forall (λ i, issue_check i = 2) (dependency_issues apps deps idxmap alg).
Proof.
  apply Forall_forall. intros i Hi. apply elem_of_dependency_issues in Hi
    as (r & ? & ? & ? & ? & _ & _ & _ & [[_ ->]|[(_ & _ & _ & ->)|(_ & _ & _ & _ & _ & ->)]]);
    done.
Qed.

Lemma mc_issues_check (apps : list AppRow) alg s :
  Forall (λ i, issue_check i = 3) (mc_issues apps alg s).
Proof.
  apply Forall_forall. intros i Hi.
  apply elem_of_mc_issues in Hi as (? & ? & ? & ? & _ & _ & _ & _ & ->). done.
Qed.

Lemma structural_issues_check alg s :
  Forall (λ i, issue_check i = 0)
    (count_issues alg s ++ size_issues alg s ++ excl_issues alg s).
Proof.
  apply Forall_forall. intros i Hi. rewrite !elem_of_app in Hi.
  rewrite elem_of_count_issues, elem_of_size_issues, elem_of_excl_issues in Hi.
  destruct Hi as [(? & -> & _)|[(? & ? & ? & _ & -> & _)|(? & ? & ? & ? & _ & _ & -> & _)]];
    done.
Qed.

(** an issue is in the part of the report of the check that files it *)
Lemma elem_of_report (l0 l1 l2 l3 : list Issue) i :
  Forall (λ i, issue_check i = 0) l0 → Forall (λ i, issue_check i = 1) l1 →
  Forall (λ i, issue_check i = 2) l2 → Forall (λ i, issue_check i = 3) l3 →
  i ∈ l0 ++ l1 ++ l2 ++ l3 ↔
  (issue_check i = 0 ∧ i ∈ l0) ∨ (issue_check i = 1 ∧ i ∈ l1) ∨
  (issue_check i = 2 ∧ i ∈ l2) ∨ (issue_check i = 3 ∧ i ∈ l3).
Proof.
  rewrite !Forall_forall. intros H0 H1 H2 H3. rewrite !elem_of_app. split.
  - intros [H|[H|[H|H]]]; [left|right; left|right; right; left|right; right; right];
      (split; [auto|done]).
  - tauto.
Qed.

(** the validator after its three structural checks *)
Lemma validate_waves_front (apps : list AppRow) (deps : list DepRow) alg s :
  validate_waves apps deps alg s
  = (check_sequencing apps (wave_index_map s) alg
       (count_issues alg s ++ size_issues alg s ++ excl_issues alg s) ≫= λ issues,
     check_dependencies apps deps (wave_index_map s) alg issues ≫= λ issues,
     check_mission_critical apps alg issues ≫= λ issues,
     mret (issues, wave_stats alg s)) s.
Proof.
  unfold validate_waves.
  rewrite (bind_run _ _ s (wave_index_map s) s) by done.
  rewrite (bind_run _ _ _ _ _ (check_wave_counts_run alg [] s)).
  rewrite (bind_run _ _ _ _ _ (check_wave_sizes_run alg _ [] s)).
  rewrite (bind_run _ _ _ _ _ (check_exclusivity_run alg _ s)).
  simpl. by rewrite <- app_assoc.
Qed.

Section Report.
Context (apps : list AppRow) (deps : list DepRow).

(** the later checks add none of the issues of the sequencing check *)
Lemma later_checks_add_no_sequencing_issue idxmap alg issues :
  yields (check_dependencies apps deps idxmap alg issues ≫= λ issues,
          check_mission_critical apps alg issues)
         (appends (λ i, issue_check i ≠ 1) issues).
Proof.
  eapply yields_bind.
  - apply (yields_for_each _ _ (appends (λ i, issue_check i ≠ 1) issues));
      [|apply appends_refl].
    intros r acc Hacc. unfold validate_dep.
    destruct (idxmap !! source r) as [[s_env s_idx]|]; [|by apply yields_ret].
    destruct (idxmap !! target r) as [[t_env t_idx]|]; [|by apply yields_ret].
    apply yields_bind_any. intros bcp.
    case_decide; [apply yields_ret; by apply appends_snoc|].
    apply yields_bind_any. intros b8. apply yields_bind_any. intros b7.
    assert (appends (λ i, issue_check i ≠ 1) issues
              (if b8 && negb (s_idx =? t_idx)
               then acc ++ [cross_wave_high_bcp alg (source r) (target r) s_idx t_idx]
               else acc)) by (destruct (_ && _); [by apply appends_snoc|done]).
    destruct (_ && _ && _); apply yields_ret; [by apply appends_snoc|done].
  - intros i5 H5.
    apply (yields_for_each _ _ (appends (λ i, issue_check i ≠ 1) issues)); [|done].
    intros env acc Hacc.
    apply yields_bind_any. intros N. apply yields_bind_any. intros ws.
    apply yields_for_each; [|done]. intros [i w] acc1 Hacc1.
    apply yields_for_each; [|done]. intros a acc2 Hacc2.
    apply yields_bind_any. intros bcp. apply yields_bind_any. intros b9.
    destruct (_ && _); apply yields_ret; [by apply appends_snoc|done].
Qed.

(** X19. The sequencing issues of a report of [validate_waves]: the report
    has a [nonprod_not_before_prod] issue with the wave indices [np] and [p]
    for a base application exactly when [np] is the least wave index of the
    '-nonprod' instances of the base application in the wave-index map, [p]
    the least wave index of its '-prod' instances (999 counting for an
    instance that is in no wave; the base application has an instance of
    either kind) and [p <= np]; and it has a
    [nonprod_production_gap_too_small] issue with the gap [p - np] under the
    same condition. *)
Theorem sequencing_issues_exact alg (s : Waves) issues stats s' :
  validate_waves apps deps alg s = (OK (issues, stats), s') →
  ∀ base,
    (∀ np p,
       nonprod_not_before_prod alg base np p ∈ issues ↔
       least np (map (idx_or_999 (wave_index_map s))
                   (filter (λ i, endswith i "-nonprod") (instances_of apps base))) ∧
       least p (map (idx_or_999 (wave_index_map s))
                  (filter (λ i, endswith i "-prod") (instances_of apps base))) ∧
       p ≤ np) ∧
    (∀ gap,
       nonprod_production_gap_too_small alg base gap ∈ issues ↔
       ∃ np p,
         least np (map (idx_or_999 (wave_index_map s))
                     (filter (λ i, endswith i "-nonprod") (instances_of apps base))) ∧
         least p (map (idx_or_999 (wave_index_map s))
                    (filter (λ i, endswith i "-prod") (instances_of apps base))) ∧
         p ≤ np ∧ gap = (Z.of_nat p - Z.of_nat np)%Z).
Proof.
  intros Hrun base.
  assert (Hsplit : ∃ t, issues = (count_issues alg s ++ size_issues alg s ++ excl_issues alg s)
                                   ++ sequencing_issues apps (wave_index_map s) alg ++ t
                        ∧ Forall (λ i, issue_check i ≠ 1) t).
  { rewrite validate_waves_front in Hrun.
    set (front := count_issues alg s ++ size_issues alg s ++ excl_issues alg s) in *.
    set (sq := sequencing_issues apps (wave_index_map s) alg) in *.
    rewrite (bind_run _ _ _ _ _ (check_sequencing_run apps _ alg front s)) in Hrun.
    fold sq in Hrun.
    pose proof (later_checks_add_no_sequencing_issue (wave_index_map s) alg
                  (front ++ sq) s I) as Hy.
    unfold mbind at 1, M_bind at 1 in Hrun.
    unfold mbind at 1, M_bind at 1 in Hy.
    destruct (check_dependencies apps deps (wave_index_map s) alg (front ++ sq) s)
      as [[i5|e] s5]; [|discriminate].
    unfold mbind at 1, M_bind at 1 in Hrun.
    destruct (check_mission_critical apps alg i5 s5) as [[i6|e] s6]; [|discriminate].
    injection Hrun as <- _ _. destruct Hy as (t & -> & Ht).
    exists t. by rewrite <- app_assoc. }
  destruct Hsplit as (t & -> & Ht).
  assert (Hin : ∀ i, issue_check i = 1 →
            (i ∈ (count_issues alg s ++ size_issues alg s ++ excl_issues alg s)
                   ++ sequencing_issues apps (wave_index_map s) alg ++ t
             ↔ i ∈ sequencing_issues apps (wave_index_map s) alg)).
  { intros i Hi. rewrite !elem_of_app. split; [|tauto].
    pose proof (structural_issues_check alg s) as H0. rewrite Forall_forall in H0, Ht.
    intros [H|[H|H]]; [|done|].
    - rewrite <- !elem_of_app in H. apply H0 in H. congruence.
    - apply Ht in H. done. }
  assert (Hne : ∀ (n : nat) (f : string → nat) (l : list string),
            least n (map f l) → l ≠ []).
  { intros n f l [Hn _] ->. by apply elem_of_nil in Hn. }
  assert (Hgroup : ∀ n (f : string → nat) (P : string → Prop) `{∀ x, Decision (P x)},
            least n (map f (filter P (instances_of apps base))) →
            (base, instances_of apps base) ∈ base_groups apps).
  { intros n f P ? Hl. apply base_groups_spec. split; [|done].
    apply Hne in Hl. intros E. rewrite E in Hl. done. }
  split.
  - intros np p. rewrite Hin by done. rewrite elem_of_sequencing_issues. split.
    + intros (b & ins & np' & p' & Hg & _ & _ & Lnp & Lp & Hle & [[= <- <- <-]|[=]]).
      apply base_groups_spec in Hg as [_ ->]. done.
    + intros (Lnp & Lp & Hle). exists base, (instances_of apps base), np, p.
      split; [by eapply Hgroup|]. split; [by eapply Hne|].
      split; [by eapply Hne|]. split; [done|]. split; [done|].
      split; [done|]. by left.
  - intros gap. rewrite Hin by done. rewrite elem_of_sequencing_issues. split.
    + intros (b & ins & np' & p' & Hg & _ & _ & Lnp & Lp & Hle & [[=]|[= <- ->]]).
      apply base_groups_spec in Hg as [_ ->]. by exists np', p'.
    + intros (np & p & Lnp & Lp & Hle & ->). exists base, (instances_of apps base), np, p.
      split; [by eapply Hgroup|]. split; [by eapply Hne|].
      split; [by eapply Hne|]. split; [done|]. split; [done|].
      split; [done|]. by right.
Qed.

Hypothesis apps_distinct : NoDup (app_ids apps).

Lemma validate_dep_emit idxmap alg r issues s :
  (∀ a env i, idxmap !! a = Some (env, i) → a ∈ app_ids apps) →
  validate_dep apps idxmap alg r issues s
  = (OK (issues ++ dep_issues_of apps idxmap alg r), s).
Proof.
  intros Hk. unfold validate_dep, dep_issues_of.
  destruct (idxmap !! source r) as [[s_env s_idx]|] eqn:Hs; [|by rewrite app_nil_r].
  destruct (idxmap !! target r) as [[t_env t_idx]|]; [|by rewrite app_nil_r].
  rewrite (loc_bcp_known apps apps_distinct (source r)) by by eapply Hk.
  unfold mbind, M_bind, lift. simpl.
  case_decide; [done|]. simpl.
  destruct (Qle_bool 8 _ && _); destruct (Qle_bool 7 _ && _ && _); simpl;
    by rewrite ?app_nil_r, <- ?app_assoc.
Qed.

Lemma check_mission_critical_emit alg issues s :
  (∀ env w a, w ∈ env_waves env s → a ∈ w → a ∈ app_ids apps) →
  check_mission_critical apps alg issues s = (OK (issues ++ mc_issues apps alg s), s).
Proof.
  intros Hk. unfold check_mission_critical, mc_issues.
  apply for_each_emit. intros env acc _.
  rewrite (bind_run _ _ s (length (env_waves env s)) s) by done.
  rewrite (bind_run _ _ s (env_waves env s) s) by done.
  unfold mc_issues_env. apply for_each_emit. intros [i w] acc1 Hiw.
  unfold mc_issues_wave. simpl. apply for_each_emit. intros a acc2 Ha.
  assert (Hin : a ∈ app_ids apps).
  { apply (Hk env w a); [|done]. apply elem_of_enumerate_1 in Hiw.
    by eapply list_elem_of_lookup_2. }
  unfold mc_issue_of. rewrite (mission_critical_known apps apps_distinct a) by done.
  rewrite (loc_bcp_known apps apps_distinct a) by done.
  unfold mbind, M_bind, lift, edge_wave. simpl.
  destruct (_ && _); [done|]. by rewrite app_nil_r.
Qed.

(** the report of the validator on waves that hold ids of the table *)
Lemma validate_waves_report alg s :
  (∀ env w a, w ∈ env_waves env s → a ∈ w → a ∈ app_ids apps) →
  validate_waves apps deps alg s
  = (OK ((count_issues alg s ++ size_issues alg s ++ excl_issues alg s)
         ++ sequencing_issues apps (wave_index_map s) alg
         ++ dependency_issues apps deps (wave_index_map s) alg
         ++ mc_issues apps alg s,
         wave_stats alg s), s).
Proof.
  intros Hk. rewrite validate_waves_front.
  rewrite (bind_run _ _ _ _ _ (check_sequencing_run apps _ alg _ s)).
  assert (Hd : ∀ issues,
            check_dependencies apps deps (wave_index_map s) alg issues s
            = (OK (issues ++ dependency_issues apps deps (wave_index_map s) alg), s)).
  { intros issues. unfold check_dependencies, dependency_issues.
    apply (for_each_emit _ _ (dep_issues_of apps (wave_index_map s) alg)).
    intros r acc _. apply validate_dep_emit. intros a env i Hi.
    apply wave_index_map_lookup in Hi as (w & Hw & Ha).
    apply (Hk env w a); [by eapply list_elem_of_lookup_2|done]. }
  rewrite (bind_run _ _ _ _ _ (Hd _)).
  rewrite (bind_run _ _ _ _ _ (check_mission_critical_emit alg _ s Hk)).
  simpl. by rewrite <- !app_assoc.
Qed.

Lemma elem_of_validate_report alg s i :
  i ∈ (count_issues alg s ++ size_issues alg s ++ excl_issues alg s)
        ++ sequencing_issues apps (wave_index_map s) alg
        ++ dependency_issues apps deps (wave_index_map s) alg
        ++ mc_issues apps alg s ↔
  (issue_check i = 0 ∧ i ∈ count_issues alg s ++ size_issues alg s ++ excl_issues alg s) ∨
  (issue_check i = 1 ∧ i ∈ sequencing_issues apps (wave_index_map s) alg) ∨
  (issue_check i = 2 ∧ i ∈ dependency_issues apps deps (wave_index_map s) alg) ∨
  (issue_check i = 3 ∧ i ∈ mc_issues apps alg s).
Proof.
  apply elem_of_report;
    [apply structural_issues_check|apply sequencing_issues_check
    |apply dependency_issues_check|apply mc_issues_check].
Qed.

(** X20. The dependency issues of the report, when the ids of the table are
    distinct and the waves hold ids of the table only: [validate_waves]
    returns, and for the rows of the dependency table with
    [source_type = 'application'] whose source and target are both in the
    wave-index map, the report has a [cross_env_dependency] exactly for the
    edges whose ends are in different environments, a [cross_wave_high_bcp]
    exactly for the edges inside one environment whose source has a BCP score
    of at least 8 and whose ends are in different waves, and a
    [critical_not_co_migrate] exactly for the edges inside one environment
    whose source has a BCP score of at least 7, whose weight is above 7 and
    whose target is neither in the source's wave nor in the wave before it. *)
Theorem dependency_issues_exact alg (s : Waves) :
  (∀ env w a, w ∈ env_waves env s → a ∈ w → a ∈ app_ids apps) →
  ∃ issues stats,
    validate_waves apps deps alg s = (OK (issues, stats), s) ∧
    (∀ src tgt,
       cross_env_dependency alg src tgt ∈ issues ↔
       ∃ r s_env s_idx t_env t_idx,
         r ∈ deps ∧ source_type r = "application" ∧ source r = src ∧ target r = tgt ∧
         wave_index_map s !! src = Some (s_env, s_idx) ∧
         wave_index_map s !! tgt = Some (t_env, t_idx) ∧ s_env ≠ t_env) ∧
    (∀ src tgt s_idx t_idx,
       cross_wave_high_bcp alg src tgt s_idx t_idx ∈ issues ↔
       ∃ r env,
         r ∈ deps ∧ source_type r = "application" ∧ source r = src ∧ target r = tgt ∧
         wave_index_map s !! src = Some (env, s_idx) ∧
         wave_index_map s !! tgt = Some (env, t_idx) ∧
         (8 <= bcp_of apps src)%Q ∧ s_idx ≠ t_idx) ∧
    (∀ src tgt wt s_idx t_idx,
       critical_not_co_migrate alg src tgt wt s_idx t_idx ∈ issues ↔
       ∃ r env,
         r ∈ deps ∧ source_type r = "application" ∧ source r = src ∧ target r = tgt ∧
         weight r = wt ∧
         wave_index_map s !! src = Some (env, s_idx) ∧
         wave_index_map s !! tgt = Some (env, t_idx) ∧
         (7 <= bcp_of apps src)%Q ∧ ¬ (wt <= 7)%Q ∧
         t_idx ≠ s_idx ∧ S t_idx ≠ s_idx).
Proof.
  intros Hk. eexists _, _. split; [by apply validate_waves_report|].
  assert (Hdeps : ∀ r, r ∈ app_deps deps ↔ r ∈ deps ∧ source_type r = "application").
  { intros r. unfold app_deps. rewrite list_elem_of_filter. tauto. }
  assert (Hin : ∀ i, issue_check i = 2 →
            (i ∈ (count_issues alg s ++ size_issues alg s ++ excl_issues alg s)
                   ++ sequencing_issues apps (wave_index_map s) alg
                   ++ dependency_issues apps deps (wave_index_map s) alg
                   ++ mc_issues apps alg s
             ↔ i ∈ dependency_issues apps deps (wave_index_map s) alg)).
  { intros i Hi. rewrite elem_of_validate_report. rewrite Hi. split; [|tauto].
    intros [[? _]|[[? _]|[[_ ?]|[? _]]]]; done. }
  split; [|split].
  - intros src tgt. rewrite Hin by done. rewrite elem_of_dependency_issues. split.
    + intros (r & se & si & te & ti & Hr & Es & Et
              & [[Hne [= -> ->]]|[(_ & _ & _ & [=])|(_ & _ & _ & _ & _ & [=])]]).
      apply Hdeps in Hr as [Hr Ht]. by exists r, se, si, te, ti.
    + intros (r & se & si & te & ti & Hr & Ht & <- & <- & Es & Et & Hne).
      exists r, se, si, te, ti. split; [by apply Hdeps|]. split; [done|].
      split; [done|]. by left.
  - intros src tgt si ti. rewrite Hin by done. rewrite elem_of_dependency_issues. split.
    + intros (r & se & si' & te & ti' & Hr & Es & Et
              & [[_ [=]]|[(-> & H8 & Hne & [= -> -> -> ->])|(_ & _ & _ & _ & _ & [=])]]).
      apply Hdeps in Hr as [Hr Ht]. exists r, te.
      repeat (split; [done|]). split; [by apply Qle_bool_iff|done].
    + intros (r & env & Hr & Ht & <- & <- & Es & Et & H8 & Hne).
      exists r, env, si, env, ti. split; [by apply Hdeps|]. split; [done|].
      split; [done|]. right. left. split; [done|].
      split; [by apply Qle_bool_iff|done].
  - intros src tgt wt si ti. rewrite Hin by done. rewrite elem_of_dependency_issues.
    split.
    + intros (r & se & si' & te & ti' & Hr & Es & Et
              & [[_ [=]]|[(_ & _ & _ & [=])
                         |(-> & H7 & Hw & Hne & Hz & [= -> -> -> -> ->])]]).
      apply Hdeps in Hr as [Hr Ht]. exists r, te.
      repeat (split; [done|]). split; [by apply Qle_bool_iff|].
      split; [|split; [done|lia]].
      intros Hle. apply Qle_bool_iff in Hle. congruence.
    + intros (r & env & Hr & Ht & <- & <- & <- & Es & Et & H7 & Hw & Hne & Hs).
      exists r, env, si, env, ti. split; [by apply Hdeps|]. split; [done|].
      split; [done|]. right. right. split; [done|].
      split; [by apply Qle_bool_iff|]. split.
      { destruct (Qle_bool (weight r) 7) eqn:E; [|done].
        apply Qle_bool_iff in E. done. }
      split; [done|]. split; [lia|done].
Qed.

(** X21. The mission-critical issues of the report, under the same
    conditions: the report has a [mission_critical_edge_wave] issue for an id
    of a wave exactly when the BCP score of the id is at least 9 and the wave
    is the first or the last wave of its environment. *)
Theorem mission_critical_issues_exact alg (s : Waves) :
  (∀ env w a, w ∈ env_waves env s → a ∈ w → a ∈ app_ids apps) →
  ∃ issues stats,
    validate_waves apps deps alg s = (OK (issues, stats), s) ∧
    ∀ env i a,
      mission_critical_edge_wave alg env i a ∈ issues ↔
      ∃ w, env_waves env s !! i = Some w ∧ a ∈ w ∧
           (9 <= bcp_of apps a)%Q ∧
           (i = 0 ∨ S i = length (env_waves env s)).
Proof.
  intros Hk. eexists _, _. split; [by apply validate_waves_report|].
  intros env i a. rewrite elem_of_validate_report. simpl.
  assert (Hedge : ∀ N, i < N → edge_wave N i = true ↔ i = 0 ∨ S i = N).
  { intros N HN. unfold edge_wave. rewrite orb_true_iff, Nat.eqb_eq, Z.eqb_eq. lia. }
  split.
  - intros [[? _]|[[? _]|[[? _]|[_ H]]]]; try done.
    apply elem_of_mc_issues in H as (e & j & w & b & Hw & Hb & Hm & He & [= -> -> ->]).
    exists w. split; [done|]. split; [done|].
    rewrite (mission_critical_known apps apps_distinct b) in Hm
      by (apply (Hk e w b); [by eapply list_elem_of_lookup_2|done]).
    split; [by apply Qle_bool_iff|]. apply Hedge; [by eapply lookup_lt_Some|done].
  - intros (w & Hw & Ha & H9 & Hi). right. right. right. split; [done|].
    apply elem_of_mc_issues. exists env, i, w, a. split; [done|]. split; [done|].
    split.
    + rewrite (mission_critical_known apps apps_distinct a)
        by (apply (Hk env w a); [by eapply list_elem_of_lookup_2|done]).
      by apply Qle_bool_iff.
    + split; [|done]. apply Hedge; [by eapply lookup_lt_Some|done].
Qed.

End Report.

Lemma example_waves_known :
  ∀ env w a, w ∈ env_waves env example_waves → a ∈ w → a ∈ app_ids example_apps.
Proof.
  intros env w a Hw Ha. destruct (example_waves_shaped env) as [_ Hall].
  rewrite Forall_forall in Hall. specialize (Hall w Hw).
  rewrite Forall_forall in Hall. by apply Hall.
Defined.

Lemma sequencing_issues_exact_witness :
  validate_waves scenario_apps [] "louvain" scenario_waves
    = (OK (fst scenario_report, snd scenario_report), scenario_waves) ∧
  ∀ base,
    (∀ np p,
       nonprod_not_before_prod "louvain" base np p ∈ fst scenario_report ↔
       least np (map (idx_or_999 (wave_index_map scenario_waves))
                   (filter (λ i, endswith i "-nonprod") (instances_of scenario_apps base))) ∧
       least p (map (idx_or_999 (wave_index_map scenario_waves))
                  (filter (λ i, endswith i "-prod") (instances_of scenario_apps base))) ∧
       p ≤ np) ∧
    (∀ gap,
       nonprod_production_gap_too_small "louvain" base gap ∈ fst scenario_report ↔
       ∃ np p,
         least np (map (idx_or_999 (wave_index_map scenario_waves))
                     (filter (λ i, endswith i "-nonprod") (instances_of scenario_apps base))) ∧
         least p (map (idx_or_999 (wave_index_map scenario_waves))
                    (filter (λ i, endswith i "-prod") (instances_of scenario_apps base))) ∧
         p ≤ np ∧ gap = (Z.of_nat p - Z.of_nat np)%Z).
Proof.
  assert (H : validate_waves scenario_apps [] "louvain" scenario_waves
              = (OK (fst scenario_report, snd scenario_report), scenario_waves))
    by (vm_compute; reflexivity).
  split; [exact H|].
  exact (sequencing_issues_exact scenario_apps [] "louvain" scenario_waves
           (fst scenario_report) (snd scenario_report) scenario_waves H).
Defined.

Lemma dependency_issues_exact_witness :
  NoDup (app_ids example_apps) ∧
  (∀ env w a, w ∈ env_waves env example_waves → a ∈ w → a ∈ app_ids example_apps) ∧
  ∃ issues stats,
    validate_waves example_apps example_deps "louvain" example_waves
      = (OK (issues, stats), example_waves) ∧
    (∀ src tgt,
       cross_env_dependency "louvain" src tgt ∈ issues ↔
       ∃ r s_env s_idx t_env t_idx,
         r ∈ example_deps ∧ source_type r = "application" ∧ source r = src ∧ target r = tgt ∧
         wave_index_map example_waves !! src = Some (s_env, s_idx) ∧
         wave_index_map example_waves !! tgt = Some (t_env, t_idx) ∧ s_env ≠ t_env) ∧
    (∀ src tgt s_idx t_idx,
       cross_wave_high_bcp "louvain" src tgt s_idx t_idx ∈ issues ↔
       ∃ r env,
         r ∈ example_deps ∧ source_type r = "application" ∧ source r = src ∧ target r = tgt ∧
         wave_index_map example_waves !! src = Some (env, s_idx) ∧
         wave_index_map example_waves !! tgt = Some (env, t_idx) ∧
         (8 <= bcp_of example_apps src)%Q ∧ s_idx ≠ t_idx) ∧
    (∀ src tgt wt s_idx t_idx,
       critical_not_co_migrate "louvain" src tgt wt s_idx t_idx ∈ issues ↔
       ∃ r env,
         r ∈ example_deps ∧ source_type r = "application" ∧ source r = src ∧ target r = tgt ∧
         weight r = wt ∧
         wave_index_map example_waves !! src = Some (env, s_idx) ∧
         wave_index_map example_waves !! tgt = Some (env, t_idx) ∧
         (7 <= bcp_of example_apps src)%Q ∧ ¬ (wt <= 7)%Q ∧
         t_idx ≠ s_idx ∧ S t_idx ≠ s_idx).
Proof.
  split; [exact example_apps_distinct|]. split; [exact example_waves_known|].
  exact (dependency_issues_exact example_apps example_deps example_apps_distinct
           "louvain" example_waves example_waves_known).
Defined.

Lemma mission_critical_issues_exact_witness :
  NoDup (app_ids example_apps) ∧
  (∀ env w a, w ∈ env_waves env example_waves → a ∈ w → a ∈ app_ids example_apps) ∧
  ∃ issues stats,
    validate_waves example_apps example_deps "louvain" example_waves
      = (OK (issues, stats), example_waves) ∧
    ∀ env i a,
      mission_critical_edge_wave "louvain" env i a ∈ issues ↔
      ∃ w, env_waves env example_waves !! i = Some w ∧ a ∈ w ∧
           (9 <= bcp_of example_apps a)%Q ∧
           (i = 0 ∨ S i = length (env_waves env example_waves)).
Proof.
  split; [exact example_apps_distinct|]. split; [exact example_waves_known|].
  exact (mission_critical_issues_exact example_apps example_deps example_apps_distinct
           "louvain" example_waves example_waves_known).
Defined.

(** ** The test of rule 1 and the changed flag of a repair pass *)

Lemma nonprod_in_prod_list (instances : list string) a :
  a ∈ filter (λ i, endswith i "nonprod") instances →
  a ∈ filter (λ i, endswith i "prod") instances.
Proof.
  rewrite !list_elem_of_filter. intros [Ha Hin]. split; [|done].
  apply Is_true_true. apply Is_true_true in Ha. by apply (endswith_longer a "non" "prod").
Qed.

(** the prod list of the repair rules contains the nonprod list, so the least
    index of the prod list is at most the least index of the nonprod list *)
Lemma sequencing_test idxmap (instances : list string) n ns :
  filter (λ i, endswith i "nonprod") instances = n :: ns →
  ∃ p ps, filter (λ i, endswith i "prod") instances = p :: ps ∧
          min_wave_index idxmap p ps ≤ min_wave_index idxmap n ns.
Proof.
  intros En.
  destruct (min_wave_index_least idxmap n ns) as [Hin _].
  apply list_elem_of_In, in_map_iff in Hin as (n1 & Hn1 & Hin). apply list_elem_of_In in Hin.
  rewrite <- En in Hin. apply nonprod_in_prod_list in Hin.
  destruct (filter (λ i, endswith i "prod") instances) as [|p ps];
    [by apply elem_of_nil in Hin|].
  exists p, ps. split; [done|]. rewrite <- Hn1. by apply min_wave_index_le.
Qed.

(** X23. The test of rule 1 and of the corrective pass is always true: for
    every wave-index map and every group of instances that has an instance
    ending with 'nonprod', the list selected with [endswith('prod')] is not
    empty and its least wave index [p_idx] is at most the least wave index
    [np_idx] of the nonprod list, because every id of the nonprod list is in
    the prod list too.  So both rules act on every base application that has
    a nonprod instance, also when its prod instances are already in a later
    wave. *)
Theorem sequencing_test_always_holds (idxmap : gmap string (Env * nat))
    (instances : list string) :
  (∀ a, a ∈ filter (λ i, endswith i "nonprod") instances →
        a ∈ filter (λ i, endswith i "prod") instances) ∧
  (∀ n ns, filter (λ i, endswith i "nonprod") instances = n :: ns →
     ∃ p ps, filter (λ i, endswith i "prod") instances = p :: ps ∧
             (min_wave_index idxmap p ps <=? min_wave_index idxmap n ns) = true).
Proof.
  split; [apply nonprod_in_prod_list|].
  intros n ns En. destruct (sequencing_test idxmap instances n ns En) as (p & ps & Ep & Hle).
  exists p, ps. split; [done|]. by apply Nat.leb_le.
Qed.

(** rules for the changed flag *)

Lemma yields_try_or {A} (body : M A) (dflt : A) (φ : A → Prop) :
  yields body φ → φ dflt → yields (try_or body dflt) φ.
Proof.
  intros Hb Hd s _. specialize (Hb s I). unfold try_or.
  by destruct (body s) as [[a|e] s'].
Qed.

Lemma yields_weaken {A} (m : M A) (φ ψ : A → Prop) :
  yields m φ → (∀ a, φ a → ψ a) → yields m ψ.
Proof.
  intros Hm Hi s _. specialize (Hm s I). destruct (m s) as [[a|e] s']; [by apply Hi|done].
Qed.

(** a loop whose body never resets the flag, and sets it on a hit *)
Lemma yields_for_each_flag {A} (l : list A) (body : A → bool → M bool)
    (hit : A → Prop) (c : bool) :
  (∀ x c, yields (body x c) (λ c', (c = true → c' = true) ∧ (hit x → c' = true))) →
  yields (for_each l body c)
    (λ c', (c = true → c' = true) ∧ ((∃ x, x ∈ l ∧ hit x) → c' = true)).
Proof.
  intros Hb. revert c. induction l as [|x l IH]; intros c; simpl.
  - apply yields_ret. split; [done|]. by intros (x & ?%elem_of_nil & _).
  - eapply yields_bind; [apply Hb|]. intros c1 [H1 H2].
    eapply yields_weaken; [apply IH|]. intros c2 [H3 H4].
    split; [auto|]. intros (y & Hy & Hhit).
    apply elem_of_cons in Hy as [->|Hy]; [auto|]. apply H4. eauto.
Qed.


Lemma flag_move_instances idxmap env target insts c :
  yields (move_instances idxmap env target insts c)
    (λ c', (c = true → c' = true) ∧
           ((∃ p, p ∈ insts ∧ ∃ e old, idxmap !! p = Some (e, old) ∧ old ≠ target) →
            c' = true)).
Proof.
  unfold move_instances.
  apply (yields_for_each_flag insts _
           (λ p, ∃ e old, idxmap !! p = Some (e, old) ∧ old ≠ target)).
  intros p c0. destruct (idxmap !! p) as [[e old]|].
  - case_decide as Hd.
    + apply yields_bind_any. intros _. apply yields_bind_any. intros _.
      by apply yields_ret.
    + apply yields_ret. split; [done|]. intros (e' & old' & [= <- <-] & Hne). done.
  - apply yields_ret. split; [done|]. by intros (e' & old' & [=] & _).
Qed.

Section Flags.
Context (apps : list AppRow) (deps : list DepRow).

Lemma flag_repair_dep idxmap tw r c :
  yields (repair_dep apps idxmap tw r c) (λ c', c = true → c' = true).
Proof.
  unfold repair_dep. cbv zeta.
  destruct (idxmap !! source r) as [[s_env s_idx]|]; [|by apply yields_ret].
  destruct (idxmap !! target r) as [[t_env t_idx]|]; [|by apply yields_ret].
  case_decide; [by apply yields_ret|].
  apply yields_bind_any. intros bcp. apply yields_bind_any. intros b8.
  apply (yields_bind _ _ (λ c1, c = true → c1 = true)).
  - destruct (b8 && _); [|by apply yields_ret].
    apply yields_try_or; [|done].
    apply yields_bind_any. intros _. apply yields_bind_any. intros w.
    case_bool_decide; [by apply yields_ret|].
    apply yields_bind_any. intros _. by apply yields_ret.
  - intros c1 H1. apply yields_bind_any. intros b7.
    destruct (b7 && _ && _); [|by apply yields_ret].
    apply yields_bind_any. intros _. apply yields_bind_any. intros j.
    apply yields_bind_any. intros w.
    case_bool_decide; [by apply yields_ret|].
    apply yields_bind_any. intros _. by apply yields_ret.
Qed.

Lemma flag_mission_critical_rule env c :
  yields (mission_critical_rule apps env c) (λ c', c = true → c' = true).
Proof.
  unfold mission_critical_rule. apply yields_bind_any. intros N.
  destruct (N <=? 2); [by apply yields_ret|].
  eapply yields_weaken.
  - apply (yields_for_each_flag (seq 0 N) _ (λ _, False)). intros i c0.
    apply yields_bind_any. intros snapshot.
    eapply yields_weaken.
    + apply (yields_for_each_flag snapshot _ (λ _, False)). intros a c1.
      unfold mission_critical_step. apply yields_try_or; [|done].
      apply yields_bind_any. intros bcp. apply yields_bind_any. intros b9.
      destruct (b9 && _); [|by apply yields_ret].
      apply yields_bind_any. intros _. apply yields_bind_any. intros _.
      by apply yields_ret.
    + intros c1 [H _]. split; [done|]. by intros [].
  - intros c1 [H _]. done.
Qed.

(** rule 1 sets the flag when a group has an instance ending with 'nonprod'
    that the wave-index map puts into one of [tw] waves *)
Lemma flag_sequencing_rule idxmap tw c g n e i :
  2 ≤ tw → tw ≤ 999 →
  (∀ a env j, idxmap !! a = Some (env, j) → j < tw) →
  g ∈ base_groups apps → n ∈ snd g → endswith n "nonprod" = true →
  idxmap !! n = Some (e, i) →
  yields (sequencing_rule apps idxmap tw c) (λ c', c' = true).
Proof.
  intros Htw Hmax Hok Hg Hn Hend Hentry. unfold sequencing_rule.
  eapply yields_weaken.
  - apply (yields_for_each_flag (base_groups apps) _ (λ g', g' = g)).
    intros [base instances] c0.
    destruct (filter (λ i, endswith i "nonprod") instances) as [|n0 ns] eqn:En.
    { apply yields_ret. split; [done|]. intros <-. simpl in Hn.
      assert (Hin : n ∈ filter (λ i, endswith i "nonprod") instances)
        by (apply list_elem_of_filter; split; [by apply Is_true_true|done]).
      rewrite En in Hin. by apply elem_of_nil in Hin. }
    destruct (sequencing_test idxmap instances n0 ns En) as (p & ps & Ep & Hle).
    rewrite Ep.
    rewrite (proj2 (Nat.leb_le _ _) Hle).
    set (np_idx := min_wave_index idxmap n0 ns) in *.
    assert (Hhit : (base, instances) = g →
              ∃ n1 e1, n1 ∈ n0 :: ns ∧ idxmap !! n1 = Some (e1, np_idx) ∧ np_idx < tw).
    { intros <-. simpl in Hn.
      assert (Hin : n ∈ n0 :: ns).
      { rewrite <- En. apply list_elem_of_filter. split; [by apply Is_true_true|done]. }
      pose proof (min_wave_index_le idxmap n0 ns n Hin) as Hmin. fold np_idx in Hmin.
      assert (Hi : idx_or_999 idxmap n = i) by (unfold idx_or_999; by rewrite Hentry).
      pose proof (Hok _ _ _ Hentry) as Hlt.
      destruct (min_wave_index_least idxmap n0 ns) as [Hatt _]. fold np_idx in Hatt.
      apply list_elem_of_In, in_map_iff in Hatt as (n1 & Hn1 & Hin1).
      apply list_elem_of_In in Hin1. unfold idx_or_999 in Hn1.
      destruct (idxmap !! n1) as [[e1 j]|] eqn:E1; [|lia].
      subst j. exists n1, e1. split; [done|]. split; [done|lia]. }
    destruct (Z.ltb_spec (Z.of_nat np_idx) (Z.of_nat tw - 1)).
    + eapply yields_weaken; [apply flag_move_instances|].
      intros c1 [H1 H2]. split; [done|]. intros Heq.
      destruct (Hhit Heq) as (n1 & e1 & Hin1 & He1 & _). apply H2.
      exists n1. split.
      * rewrite <- En in Hin1. apply nonprod_in_prod_list in Hin1.
        by rewrite Ep in Hin1.
      * exists e1, np_idx. split; [done|lia].
    + eapply yields_weaken; [apply flag_move_instances|].
      intros c1 [H1 H2]. split; [done|]. intros Heq.
      destruct (Hhit Heq) as (n1 & e1 & Hin1 & He1 & Hlt). apply H2.
      exists n1. split; [done|]. exists e1, np_idx. split; [done|lia].
  - intros c1 [_ H]. apply H. by exists g.
Qed.

Lemma flag_fix_order_pass idxmap tw g n e i :
  2 ≤ tw → tw ≤ 999 →
  (∀ a env j, idxmap !! a = Some (env, j) → j < tw) →
  g ∈ base_groups apps → n ∈ snd g → endswith n "nonprod" = true →
  idxmap !! n = Some (e, i) →
  yields
    (for_each (base_groups apps) (λ '(base, instances) changed_local,
       let nonprod := filter (λ i, endswith i "nonprod") instances in
       let prod := filter (λ i, endswith i "prod") instances in
       match nonprod, prod with
       | n :: ns, p :: ps =>
           let np_idx := min_wave_index idxmap n ns in
           let p_idx := min_wave_index idxmap p ps in
           if p_idx <=? np_idx then
             if 0 <? np_idx then
               move_instances idxmap Nonprod (Nat.max (np_idx - 1) 0) nonprod changed_local
             else if (Z.of_nat p_idx <? Z.of_nat tw - 1)%Z then
               move_instances idxmap Prod
                 (Z.to_nat (Z.min (Z.of_nat p_idx + 1) (Z.of_nat tw - 1)))
                 prod changed_local
             else mret changed_local
           else mret changed_local
       | _, _ => mret changed_local
       end) false)
    (λ c', c' = true).
Proof.
  intros Htw Hmax Hok Hg Hn Hend Hentry.
  eapply yields_weaken.
  - apply (yields_for_each_flag (base_groups apps) _ (λ g', g' = g)).
    intros [base instances] c0. cbv zeta.
    destruct (filter (λ i, endswith i "nonprod") instances) as [|n0 ns] eqn:En.
    { apply yields_ret. split; [done|]. intros <-. simpl in Hn.
      assert (Hin : n ∈ filter (λ i, endswith i "nonprod") instances)
        by (apply list_elem_of_filter; split; [by apply Is_true_true|done]).
      rewrite En in Hin. by apply elem_of_nil in Hin. }
    destruct (sequencing_test idxmap instances n0 ns En) as (p & ps & Ep & Hle).
    rewrite Ep.
    rewrite (proj2 (Nat.leb_le _ _) Hle).
    set (np_idx := min_wave_index idxmap n0 ns) in *.
    set (p_idx := min_wave_index idxmap p ps) in *.
    assert (Hhit : (base, instances) = g →
              ∃ n1 e1, n1 ∈ n0 :: ns ∧ idxmap !! n1 = Some (e1, np_idx) ∧ np_idx < tw).
    { intros <-. simpl in Hn.
      assert (Hin : n ∈ n0 :: ns).
      { rewrite <- En. apply list_elem_of_filter. split; [by apply Is_true_true|done]. }
      pose proof (min_wave_index_le idxmap n0 ns n Hin) as Hmin. fold np_idx in Hmin.
      assert (Hi : idx_or_999 idxmap n = i) by (unfold idx_or_999; by rewrite Hentry).
      pose proof (Hok _ _ _ Hentry) as Hlt.
      destruct (min_wave_index_least idxmap n0 ns) as [Hatt _]. fold np_idx in Hatt.
      apply list_elem_of_In, in_map_iff in Hatt as (n1 & Hn1 & Hin1).
      apply list_elem_of_In in Hin1. unfold idx_or_999 in Hn1.
      destruct (idxmap !! n1) as [[e1 j]|] eqn:E1; [|lia].
      subst j. exists n1, e1. split; [done|]. split; [done|lia]. }
    destruct (Nat.ltb_spec 0 np_idx).
    + eapply yields_weaken; [apply flag_move_instances|].
      intros c1 [H1 H2]. split; [done|]. intros Heq.
      destruct (Hhit Heq) as (n1 & e1 & Hin1 & He1 & Hlt). apply H2.
      exists n1. split; [done|]. exists e1, np_idx. split; [done|lia].
    + destruct (Z.ltb_spec (Z.of_nat p_idx) (Z.of_nat tw - 1)); [|lia].
      eapply yields_weaken; [apply flag_move_instances|].
      intros c1 [H1 H2]. split; [done|]. intros Heq.
      destruct (Hhit Heq) as (n1 & e1 & Hin1 & He1 & Hlt). apply H2.
      exists n1. split.
      * rewrite <- En in Hin1. apply nonprod_in_prod_list in Hin1.
        by rewrite Ep in Hin1.
      * exists e1, np_idx. split; [done|lia].
  - intros c1 [_ H]. apply H. by exists g.
Qed.

(** the group of an id of the table *)
Lemma group_of_instance n :
  n ∈ app_ids apps → ∃ g, g ∈ base_groups apps ∧ n ∈ snd g.
Proof.
  intros Hn. apply list_elem_of_In, in_map_iff in Hn as (r & <- & Hr).
  apply list_elem_of_In in Hr.
  assert (Hin : app_instance_id r ∈ instances_of apps (base_app_id r)).
  { unfold instances_of. apply list_elem_of_In, in_map, list_elem_of_In.
    by apply list_elem_of_filter. }
  exists (base_app_id r, instances_of apps (base_app_id r)). split; [|done].
  apply base_groups_spec. split; [|done]. intros E. rewrite E in Hin.
  by apply elem_of_nil in Hin.
Qed.

(** X24. A pass of the repair loop, and a pass of the corrective loop, always
    report a change when an instance whose id ends with 'nonprod' is in a
    wave: on an assignment with [target_waves] waves per environment
    (between 2 and 999) that holds ids of the table only, both passes return
    with the changed flag set, because the test of rule 1 is always true and
    the instance of least wave index is moved.  So neither loop stops before
    its cap of 40 passes as long as such an instance is in a wave. *)
Theorem repair_passes_always_change (tw : nat) (s : Waves) (n : string) :
  NoDup (app_ids apps) → 2 ≤ tw → tw ≤ 999 →
  shaped (known apps) tw s →
  endswith n "nonprod" = true → is_Some (wave_index_map s !! n) →
  (∃ s', repair_pass apps deps tw s = (OK true, s') ∧ shaped (known apps) tw s') ∧
  (∃ s', fix_order_pass apps tw s = (OK true, s') ∧ shaped (known apps) tw s').
Proof.
  intros Hnd Htw Hmax Hs Hend [[e i] Hentry].
  pose proof (wave_index_map_ok _ _ _ Hs) as Hok.
  assert (Hlt : ∀ a env j, wave_index_map s !! a = Some (env, j) → j < tw)
    by (intros a env j Ha; by destruct (Hok a env j Ha)).
  destruct (group_of_instance n) as (g & Hg & Hn); [by destruct (Hok n e i Hentry)|].
  split.
  - pose proof (triple_repair_pass apps deps tw Hnd s Hs) as Ht.
    assert (Hy : yields
              (changed ← sequencing_rule apps (wave_index_map s) tw false;
               changed ← dependency_rules apps deps (wave_index_map s) tw changed;
               changed ← for_each envs (mission_critical_rule apps) changed;
               for_each envs (λ env _, structural_rule tw env) ();;
               mret changed)
              (λ c, c = true)).
    { eapply yields_bind; [by eapply flag_sequencing_rule|]. intros c1 ->.
      eapply (yields_bind _ _ (λ c2, c2 = true)).
      { eapply yields_weaken.
        - apply (yields_for_each_flag (app_deps deps) _ (λ _, False)). intros r c0.
          eapply yields_weaken; [apply flag_repair_dep|]. intros c' H.
          split; [done|]. by intros [].
        - intros c2 [H _]. by apply H. }
      intros c2 ->.
      eapply (yields_bind _ _ (λ c3, c3 = true)).
      { eapply yields_weaken.
        - apply (yields_for_each_flag envs _ (λ _, False)). intros env c0.
          eapply yields_weaken; [apply flag_mission_critical_rule|]. intros c' H.
          split; [done|]. by intros [].
        - intros c3 [H _]. by apply H. }
      intros c3 ->. apply yields_bind_any. intros _. by apply yields_ret. }
    specialize (Hy s I). unfold repair_pass in *.
    rewrite (bind_run _ _ s (wave_index_map s) s) in Ht by done.
    destruct ((changed ← sequencing_rule apps (wave_index_map s) tw false;
               changed ← dependency_rules apps deps (wave_index_map s) tw changed;
               changed ← for_each envs (mission_critical_rule apps) changed;
               for_each envs (λ env _, structural_rule tw env) ();;
               mret changed) s) as [[c|ex] s'] eqn:E; [|done].
    exists s'. rewrite (bind_run _ _ s (wave_index_map s) s) by done.
    rewrite E, Hy. done.
  - pose proof (triple_fix_order_pass apps tw s Hs) as Ht.
    pose proof (flag_fix_order_pass (wave_index_map s) tw g n e i
                  Htw Hmax Hlt Hg Hn Hend Hentry s I) as Hy.
    unfold fix_order_pass in *.
    rewrite (bind_run _ _ s (wave_index_map s) s) in Ht by done.
    rewrite (bind_run _ _ s (wave_index_map s) s) by done.
    destruct (for_each (base_groups apps) _ false s) as [[c|ex] s'] eqn:E; [|done].
    exists s'. by rewrite Hy.
Qed.

End Flags.

Lemma repair_passes_always_change_witness :
  NoDup (app_ids example_apps) ∧ 2 ≤ 8 ∧ 8 ≤ 999 ∧
  shaped (known example_apps) 8 example_waves ∧
  endswith "APP_001-nonprod" "nonprod" = true ∧
  is_Some (wave_index_map example_waves !! "APP_001-nonprod") ∧
  (∃ s', repair_pass example_apps example_deps 8 example_waves = (OK true, s')
         ∧ shaped (known example_apps) 8 s') ∧
  (∃ s', fix_order_pass example_apps 8 example_waves = (OK true, s')
         ∧ shaped (known example_apps) 8 s').
Proof.
  assert (Hin : is_Some (wave_index_map example_waves !! "APP_001-nonprod"))
    by (exists (Nonprod, 0); vm_compute; reflexivity).
  split; [exact example_apps_distinct|]. split; [lia|]. split; [lia|].
  split; [exact example_waves_shaped|]. split; [reflexivity|]. split; [exact Hin|].
  exact (repair_passes_always_change example_apps example_deps 8 example_waves
           "APP_001-nonprod" example_apps_distinct ltac:(lia) ltac:(lia)
           example_waves_shaped eq_refl Hin).
Defined.
